(** * Updater.py: version codec, chain resolution and patch application

    A shallow embedding of [Updater.py].  Python values are modelled as
    follows: a [str] is a [string] whose characters are code points below
    256, an [int] is an unbounded [Z], a list of ints is a [list Z], and
    [None] is the [None] of an option.  The interpreter's configurable limit
    on the number of digits of an integer literal is not modelled. *)

From Stdlib Require Import ZArith Ascii String List Bool Lia.
From Stdlib Require Import Decimal DecimalString DecimalPos Sorted.
From stdpp Require Import base option list strings gmap.

Local Open Scope string_scope.
Local Open Scope Z_scope.

(** ** The Python builtins the program relies on *)

Module Py.

(** [str.isspace] on one character (the whitespace code points below 256). *)
Definition isspace (c : ascii) : bool :=
  let n := nat_of_ascii c in
  ((9 <=? n) && (n <=? 13) || (28 <=? n) && (n <=? 32)
   || (n =? 133) || (n =? 160))%nat.

(** Drop the leading whitespace of a string. *)
Fixpoint lstrip (s : string) : string :=
  match s with
  | EmptyString => EmptyString
  | String c s' => if isspace c then lstrip s' else s
  end.

(** Drop the trailing whitespace of a string. *)
Fixpoint rstrip (s : string) : string :=
  match s with
  | EmptyString => EmptyString
  | String c s' =>
      match rstrip s' with
      | EmptyString => if isspace c then EmptyString else String c EmptyString
      | r => String c r
      end
  end.

(** [s.strip()] *)
Definition strip (s : string) : string := rstrip (lstrip s).

(** [s.split(sep)] for a one-character separator: never an empty list. *)
Fixpoint split (sep : ascii) (s : string) : list string :=
  match s with
  | EmptyString => [EmptyString]
  | String c s' =>
      if Ascii.eqb c sep then EmptyString :: split sep s'
      else match split sep s' with
           | [] => [String c EmptyString]
           | w :: ws => String c w :: ws
           end
  end.

(** [sep.join(parts)] *)
Fixpoint join (sep : string) (parts : list string) : string :=
  match parts with
  | [] => EmptyString
  | [p] => p
  | p :: ps => String.append p (String.append sep (join sep ps))
  end.

(** The value of a decimal digit character. *)
Definition digit_val (c : ascii) : option Z :=
  let n := nat_of_ascii c in
  if ((48 <=? n) && (n <=? 57))%nat then Some (Z.of_nat n - 48) else None.

(** The digits of an integer literal, most significant first; one
    underscore is allowed between two digits.  [prev] tells whether the
    previous character was a digit. *)
Fixpoint int_digits (s : string) (prev : bool) (acc : Z) : option Z :=
  match s with
  | EmptyString => if prev then Some acc else None
  | String c s' =>
      match digit_val c with
      | Some d => int_digits s' true (10 * acc + d)
      | None =>
          if Ascii.eqb c "_" then
            if prev then int_digits s' false acc else None
          else None
      end
  end.

(** [int(s)] for a string: surrounding whitespace is dropped, then an
    optional sign, then the digits.  [None] stands for [ValueError]. *)
Definition int (s : string) : option Z :=
  match strip s with
  | String "-" r => Z.opp <$> int_digits r false 0
  | String "+" r => int_digits r false 0
  | r => int_digits r false 0
  end.

(** [str(n)] for an integer. *)
Definition str (n : Z) : string :=
  match n with
  | Z0 => "0"
  | Zpos p => NilEmpty.string_of_uint (Pos.to_uint p)
  | Zneg p => String "-" (NilEmpty.string_of_uint (Pos.to_uint p))
  end.

(** [a < b] on lists of integers. *)
Fixpoint list_lt (a b : list Z) : bool :=
  match a, b with
  | [], [] => false
  | [], _ :: _ => true
  | _ :: _, [] => false
  | x :: a', y :: b' => if x =? y then list_lt a' b' else x <? y
  end.

(** [a <= b] on lists of integers. *)
Fixpoint list_le (a b : list Z) : bool :=
  match a, b with
  | [], _ => true
  | _ :: _, [] => false
  | x :: a', y :: b' => if x =? y then list_le a' b' else x <? y
  end.

(** Truth value of a list: [not l] holds exactly for the empty list. *)
Definition truthy {A} (l : list A) : bool :=
  match l with [] => false | _ :: _ => true end.

End Py.

(** ** VersionCodec *)

(** [parse_version]: the list comprehension raises [ValueError] at the first
    segment [int] rejects, and the handler returns the empty list. *)
Definition parse_version (version_str : string) : list Z :=
  match mapM Py.int (Py.split "." version_str) with
  | Some parts => parts
  | None => []
  end.

Definition format_version (version_list : list Z) : string :=
  Py.join "." (map Py.str version_list).

(** ** ChainResolver *)

(** The chained comparison [current < version <= target]. *)
Definition in_range (current_parsed version_parsed target_parsed : list Z) : bool :=
  Py.list_lt current_parsed version_parsed && Py.list_le version_parsed target_parsed.

(** One iteration of the loop over [all_versions]. *)
Definition chain_step (current_parsed target_parsed : list Z)
    (update_chain : list string) (version : string) : list string :=
  let version_parsed := parse_version version in
  if negb (Py.truthy version_parsed) then update_chain
  else if in_range current_parsed version_parsed target_parsed
       then update_chain ++ [version]
       else update_chain.

Definition get_update_chain (current_version target_version : string)
    (all_versions : list string) : list string :=
  let current_parsed := parse_version current_version in
  let target_parsed := parse_version target_version in
  if negb (Py.truthy current_parsed) || negb (Py.truthy target_parsed) then []
  else fold_left (chain_step current_parsed target_parsed) all_versions [].

(** ** Predicates on strings *)

Fixpoint string_forallb (P : ascii → bool) (s : string) : bool :=
  match s with
  | EmptyString => true
  | String c s' => P c && string_forallb P s'
  end.

(** A character of [str n]: a digit or the minus sign, hence neither
    whitespace nor a dot. *)
Definition str_char (c : ascii) : bool :=
  match Py.digit_val c with Some _ => true | None => Ascii.eqb c "-" end.

Definition is_digit (c : ascii) : bool :=
  match Py.digit_val c with Some _ => true | None => false end.

(** The characters an integer literal may contain. *)
Definition numeric_char (c : ascii) : bool :=
  is_digit c || Py.isspace c || Ascii.eqb c "+" || Ascii.eqb c "-"
  || Ascii.eqb c "_".

Definition chars (s : string) : list ascii := list_ascii_of_string s.

(** ** The file system and the environment

    Paths are lists of components relative to the install root [GAME_DIR],
    which always exists.  The install root is a finite map from paths to
    nodes; the work area [TEMP_UPDATE] is kept apart from it as an ordered
    tree, in the order in which [os.walk] lists it.  The model therefore
    takes the work area to be disjoint from everything else: the package
    ships no top-level entry named [TEMP_UPDATE], and delete-list lines name
    paths below the install root and outside the work area, with [/] as the
    only separator.  File metadata, the console and symbolic links are not
    modelled. *)

Abbreviation path := (list string).

Inductive node :=
  | File (content : string)
  | Dir.

#[global] Instance node_eq_dec : EqDecision node.
Proof. solve_decision. Defined.

(** An entry of the work area, as extracted from a package. *)
#[warnings="-register-all"] Inductive pnode :=
  | PFile (name : string) (content : string)
  | PDir (name : string) (entries : list pnode).

(** The work area: absent, a directory, or a stray file of that name. *)
Inductive temp_state :=
  | TempAbsent
  | TempFile
  | TempDir (entries : list pnode).

(** What [zipfile] makes of a package: the tree [extractall] writes, and
    whether it finishes; when [complete] is false it raises after writing
    the members. *)
Record archive := Archive {
  members : list pnode;
  complete : bool
}.

(** The calls into the operating system that can fail for reasons outside
    the file tree (permissions, a full disk, a file in use). *)
Inductive fsop :=
  | OpRead (p : path)
  | OpOpenW (p : path)
  | OpWrite (p : path)
  | OpRemove (p : path)
  | OpRmtree (p : path)
  | OpMkdir (p : path).

(** The answer of the server to the request for a package. *)
Inductive response :=
  | RespTimeout
  | RespError
  | RespOk (content_length : option string) (body : list string)
           (stream_ok : bool).

(** The environment of a run.  [denied t op] tells whether the call [op]
    issued at time [t] fails; [disk_free t] is the free space
    [shutil.disk_usage] reports, [None] when it raises. *)
Record env := Env {
  unzip : string → option archive;
  denied : nat → fsop → bool;
  http_get : nat → string → response;
  disk_free : nat → option Z;
  DELETE_LIST_FILE : string
}.

Inductive warning :=
  | WStaleCleanup
  | WDeleteFailed
  | WCopyFailed (rel : path) (file : string)
  | WRestoreFailed
  | WTempCleanup
  | WPackageCleanup.

(** The steps of a run that the properties speak about. *)
Inductive event :=
  | EvFetch (version : string)
  | EvApply (version : string)
  | EvWalkDone
  | EvCommit (version : string)
  | EvRestore (version : string).

Record world := World {
  inst : gmap path node;
  temp : temp_state;
  clock : nat;
  UPDATE_WARNINGS : list warning;
  trace : list event
}.

Definition LOCAL_VERSION_FILE : path := ["SCRIPTS"; "LOC_VER.txt"].
Definition TEMP_DIR : path := ["TEMP_UPDATE"].

(** ** Computations: state and exceptions *)

Inductive res (A : Type) :=
  | Ret (a : A)
  | Raise.
Arguments Ret {A} a.
Arguments Raise {A}.

Definition M (A : Type) : Type := world → res A * world.

#[global] Instance M_ret : MRet M := λ A a w, (Ret a, w).
#[global] Instance M_bind : MBind M := λ A B f m w,
  match m w with
  | (Ret a, w') => f a w'
  | (Raise, w') => (Raise, w')
  end.

Definition raise {A} : M A := λ w, (Raise, w).
Definition get_world : M world := λ w, (Ret w, w).

(** [try: m except Exception: h] *)
Definition try_except {A} (m h : M A) : M A := λ w,
  match m w with
  | (Ret a, w') => (Ret a, w')
  | (Raise, w') => h w'
  end.

(** [try: m finally: c], for a [c] that does not raise. *)
Definition try_finally {A} (m : M A) (c : M unit) : M A := λ w,
  match m w with
  | (r, w') =>
      match c w' with
      | (Ret _, w'') => (r, w'')
      | (Raise, w'') => (Raise, w'')
      end
  end.

(** A [for] loop whose body may raise. *)
Definition for_each {A} (body : A → M unit) : list A → M unit :=
  fix go (l : list A) : M unit :=
    match l with
    | [] => mret tt
    | x :: l' => body x ;; go l'
    end.

Definition set_inst (f : gmap path node → gmap path node) : M unit := λ w,
  (Ret tt, World (f (inst w)) (temp w) (clock w) (UPDATE_WARNINGS w) (trace w)).
Definition set_temp (t : temp_state) : M unit := λ w,
  (Ret tt, World (inst w) t (clock w) (UPDATE_WARNINGS w) (trace w)).
Definition tick : M nat := λ w,
  (Ret (clock w),
   World (inst w) (temp w) (S (clock w)) (UPDATE_WARNINGS w) (trace w)).
Definition add_warning (warning_message : warning) : M unit := λ w,
  (Ret tt, World (inst w) (temp w) (clock w)
             (UPDATE_WARNINGS w ++ [warning_message]) (trace w)).
Definition emit (e : event) : M unit := λ w,
  (Ret tt, World (inst w) (temp w) (clock w) (UPDATE_WARNINGS w)
             (trace w ++ [e])).

(** A property of the world that a computation keeps, whatever its
    outcome. *)
Definition preserves {A} (I : world → Prop) (m : M A) : Prop :=
  ∀ w, I w → I (m w).2.

(** A computation that does not raise. *)
Definition total {A} (m : M A) : Prop :=
  ∀ w, ∃ a, (m w).1 = Ret a.

(** The versions fetched, applied and committed, as the trace tells. *)
Definition fetched (evs : list event) : list string :=
  omap (λ e, match e with EvFetch v => Some v | _ => None end) evs.
Definition applied (evs : list event) : list string :=
  omap (λ e, match e with EvApply v => Some v | _ => None end) evs.
Definition committed (evs : list event) : list string :=
  omap (λ e, match e with EvCommit v => Some v | _ => None end) evs.

(** No restore of the marker has failed so far. *)
Definition restores_ok (w : world) : Prop :=
  WRestoreFailed ∉ UPDATE_WARNINGS w.


(** ** The operating-system calls *)

Local Open Scope list_scope.

Section Program.

Context (E : env).

(** Ask the environment whether the call [op] goes through. *)
Definition check (op : fsop) : M unit :=
  t ← tick; if denied E t op then raise else mret tt.

Definition parent (p : path) : path := take (length p - 1) p.

(** [os.path.isdir] and [os.path.exists] below the install root. *)
Definition is_dir (m : gmap path node) (p : path) : bool :=
  match p with
  | [] => true
  | _ => match m !! p with Some Dir => true | _ => false end
  end.

Definition path_exists (m : gmap path node) (p : path) : bool :=
  match p with
  | [] => true
  | _ => match m !! p with Some _ => true | None => false end
  end.

(** The entries at or below [p] are dropped. *)
Definition remove_below (p : path) (m : gmap path node) : gmap path node :=
  filter (λ kv, ¬ p `prefix_of` kv.1) m.

(** [os.remove(p)]: [p] must be a file. *)
Definition os_remove (p : path) : M unit :=
  w ← get_world;
  match inst w !! p with
  | Some (File _) => check (OpRemove p) ;; set_inst (delete p)
  | _ => raise
  end.

(** [shutil.rmtree(p)]: [p] must be a directory; a failing call is taken
    to remove nothing. *)
Definition rmtree (p : path) : M unit :=
  w ← get_world;
  match inst w !! p with
  | Some Dir => check (OpRmtree p) ;; set_inst (remove_below p)
  | _ => raise
  end.

(** [os.mkdir(p)]: the parent must be a directory and [p] must not exist. *)
Definition os_mkdir (p : path) : M unit :=
  w ← get_world;
  if is_dir (inst w) (parent p) && negb (path_exists (inst w) p)
  then check (OpMkdir p) ;; set_inst (<[p := Dir]>)
  else raise.

(** [os.makedirs(base/rest)], the components of [base] being in place:
    every missing directory on the way is created, then the last one. *)
Fixpoint makedirs_from (base rest : path) : M unit :=
  match rest with
  | [] => raise
  | [x] => os_mkdir (base ++ [x])
  | x :: rest' =>
      w ← get_world;
      (if path_exists (inst w) (base ++ [x]) then mret tt
       else os_mkdir (base ++ [x])) ;;
      makedirs_from (base ++ [x]) rest'
  end.

Definition os_makedirs (p : path) : M unit := makedirs_from [] p.

(** [with open(p, "w") as f: f.write(s)]: the parent must be a directory
    and [p] must not be one; opening truncates the file, so a write that
    fails after the file was opened leaves it empty. *)
Definition write_file (p : path) (s : string) : M unit :=
  w ← get_world;
  if is_dir (inst w) (parent p) && negb (is_dir (inst w) p)
  then check (OpOpenW p) ;;
       set_inst (<[p := File EmptyString]>) ;;
       check (OpWrite p) ;;
       set_inst (<[p := File s]>)
  else raise.

(** [shutil.copy2(src, dst)] for a file of the work area with the given
    name and content: when [dst] is a directory the file goes below it
    under its own name. *)
Definition copy2 (src : path) (name content : string) (dst : path) : M unit :=
  w ← get_world;
  let dst' := if is_dir (inst w) dst then dst ++ [name] else dst in
  check (OpRead src) ;; write_file dst' content.

(** ** PatchApplier *)

(** [get_local_version]: [None] when the marker is missing or unreadable. *)
Definition get_local_version : M (option string) :=
  w ← get_world;
  match inst w !! LOCAL_VERSION_FILE with
  | None => mret None
  | Some Dir => mret None
  | Some (File content) =>
      try_except (check (OpRead LOCAL_VERSION_FILE) ;;
                  mret (Some (Py.strip content)))
                 (mret None)
  end.

(** Truth value of a string: the empty string is false. *)
Definition str_truthy (s : string) : bool :=
  match s with EmptyString => false | _ => true end.

Definition pname (n : pnode) : string :=
  match n with PFile name _ => name | PDir name _ => name end.

(** Remove the work area if present, then create it afresh. *)
Definition stage : M unit :=
  w ← get_world;
  match temp w with
  | TempAbsent => mret tt
  | TempFile => raise
  | TempDir _ => check (OpRmtree TEMP_DIR) ;; set_temp TempAbsent
  end ;;
  check (OpMkdir TEMP_DIR) ;;
  set_temp (TempDir []).

(** [zipfile.ZipFile(update_file).extractall(TEMP_DIR)] *)
Definition extract (update_file : path) : M unit :=
  w ← get_world;
  match inst w !! update_file with
  | Some (File content) =>
      check (OpRead update_file) ;;
      match unzip E content with
      | Some a =>
          set_temp (TempDir (members a)) ;;
          if complete a then mret tt else raise
      | None => raise
      end
  | _ => raise
  end.

(** The lines of a text file: both line-break characters end a line. *)
Fixpoint lines (s : string) : list string :=
  match s with
  | EmptyString => [EmptyString]
  | String c s' =>
      if Ascii.eqb c "010" || Ascii.eqb c "013" then EmptyString :: lines s'
      else match lines s' with
           | [] => [String c EmptyString]
           | l :: ls => String c l :: ls
           end
  end.

(** The path a delete-list line names below the install root; [None] for a
    line that names the root itself, leaves it, or points into the work
    area, which the model treats as absent. *)
Definition resolve (file_to_delete : string) : option path :=
  let comps := Py.split "/" file_to_delete in
  match comps with
  | EmptyString :: _ :: _ => None
  | _ =>
      let p := List.filter
                 (λ c, negb (String.eqb c EmptyString || String.eqb c "."))
                 comps in
      if existsb (String.eqb "..") p then None
      else match p with
           | [] => None
           | x :: _ => if String.eqb x "TEMP_UPDATE" then None else Some p
           end
  end.

(** The body of the loop over the lines of the delete-list. *)
Definition delete_line (line : string) : M unit :=
  let file_to_delete := Py.strip line in
  if str_truthy file_to_delete then
    match resolve file_to_delete with
    | None => mret tt
    | Some full_path =>
        w ← get_world;
        if path_exists (inst w) full_path then
          try_except
            (if is_dir (inst w) full_path then rmtree full_path
             else os_remove full_path)
            (add_warning WDeleteFailed)
        else mret tt
    end
  else mret tt.

Definition find_entry (name : string) (entries : list pnode) : option pnode :=
  List.find (λ n, String.eqb (pname n) name) entries.

(** Read the delete-list at the root of the work area, if there is one,
    and remove what it names. *)
Definition cleanse : M unit :=
  w ← get_world;
  match temp w with
  | TempDir entries =>
      match find_entry (DELETE_LIST_FILE E) entries with
      | None => mret tt
      | Some (PDir _ _) => raise
      | Some (PFile _ content) =>
          check (OpRead (TEMP_DIR ++ [DELETE_LIST_FILE E])) ;;
          for_each delete_line (lines content)
      end
  | _ => mret tt
  end.

(** The files of a directory of the work area, in listing order. *)
Definition files_of (entries : list pnode) : list (string * string) :=
  flat_map (λ n, match n with PFile name c => [(name, c)] | PDir _ _ => [] end)
           entries.

(** [files.remove(name)]: the first file of that name leaves the list. *)
Fixpoint remove_first (name : string) (files : list (string * string))
    : list (string * string) :=
  match files with
  | [] => []
  | f :: files' =>
      if String.eqb f.1 name then files' else f :: remove_first name files'
  end.

(** The body of the loop over the files of a visited directory. *)
Definition copy_file (relative_path : path) (file : string * string) : M unit :=
  try_except
    (copy2 (TEMP_DIR ++ relative_path ++ [file.1]) file.1 file.2
           (relative_path ++ [file.1]))
    (add_warning (WCopyFailed relative_path file.1)).

(** The body of the loop over [os.walk(TEMP_DIR)], for the directory of the
    work area at [relative_path]. *)
Definition visit (relative_path : path) (entries : list pnode) : M unit :=
  let files := files_of entries in
  let files :=
    match relative_path with
    | [] => if existsb (λ f, String.eqb f.1 (DELETE_LIST_FILE E)) files
            then remove_first (DELETE_LIST_FILE E) files else files
    | _ => files
    end in
  w ← get_world;
  (if path_exists (inst w) relative_path then mret tt
   else os_makedirs relative_path) ;;
  for_each (copy_file relative_path) files.

(** [os.walk] top-down: a directory is visited, then its sub-directories
    in listing order. *)
Fixpoint walk_entry (rel : path) (n : pnode) : M unit :=
  match n with
  | PFile _ _ => mret tt
  | PDir name entries =>
      visit (rel ++ [name]) entries ;;
      for_each (walk_entry (rel ++ [name])) entries
  end.

Definition walk : M unit :=
  w ← get_world;
  match temp w with
  | TempDir entries => visit [] entries ;; for_each (walk_entry []) entries
  | _ => mret tt
  end.

(** The [finally] clause: remove the work area if it is there. *)
Definition cleanup_temp : M unit :=
  w ← get_world;
  match temp w with
  | TempAbsent => mret tt
  | TempFile => add_warning WTempCleanup
  | TempDir _ =>
      try_except (check (OpRmtree TEMP_DIR) ;; set_temp TempAbsent)
                 (add_warning WTempCleanup)
  end.

(** The write that puts the snapshot of the marker back. *)
Definition restore_write (backup_version : string) : M unit :=
  emit (EvRestore backup_version) ;;
  write_file LOCAL_VERSION_FILE backup_version.

(** The [except] clause: restore the marker if there is a snapshot. *)
Definition restore (backup_version : option string) : M unit :=
  try_except
    (match backup_version with
     | Some b => if str_truthy b then restore_write b else mret tt
     | None => mret tt
     end)
    (add_warning WRestoreFailed).

(** The statements of the [try] block up to the end of the walk. *)
Definition install (update_file : path) : M unit :=
  stage ;; extract update_file ;; cleanse ;; walk ;; emit EvWalkDone.

(** The marker is written after the walk. *)
Definition commit (target_version : string) : M unit :=
  emit (EvCommit target_version) ;;
  write_file LOCAL_VERSION_FILE target_version.

Definition apply_update (update_file : path) (target_version : string)
    : M bool :=
  backup_version ← get_local_version;
  try_finally
    (try_except
       (install update_file ;; commit target_version ;; mret true)
       (restore backup_version ;; mret false))
    cleanup_temp.

(** ** PackageFetcher *)

Definition check_disk_space (required_size : Z) : M bool :=
  t ← tick;
  match disk_free E t with
  | Some free_space => mret (free_space >? required_size * 2)
  | None => mret true
  end.

Definition package_path (version : string) : path :=
  [String.append "Update_" (String.append version ".zip")].

(** Append a chunk to the file being downloaded. *)
Definition write_chunk (update_file : path) (chunk : string) : M unit :=
  if str_truthy chunk then
    check (OpWrite update_file) ;;
    set_inst (λ m, match m !! update_file with
                   | Some (File c) =>
                       <[update_file := File (String.append c chunk)]> m
                   | _ => m
                   end)
  else mret tt.

(** A package left over from an earlier run is removed first. *)
Definition cleanup_stale (update_file : path) : M unit :=
  w ← get_world;
  if path_exists (inst w) update_file
  then try_except (os_remove update_file) (add_warning WStaleCleanup)
  else mret tt.

(** [download_update]: [Some] path on success, [None] on the failures the
    function handles; other exceptions propagate. *)
Definition download_update (version : string) : M (option path) :=
  let update_file := package_path version in
  cleanup_stale update_file ;;
  t ← tick;
  match http_get E t version with
  | RespTimeout => mret None
  | RespError => mret None
  | RespOk content_length body stream_ok =>
      total_size ← match content_length with
                   | None => mret 0
                   | Some h => match Py.int h with
                               | Some n => mret n
                               | None => raise
                               end
                   end;
      enough ← check_disk_space total_size;
      if negb enough then mret None
      else
        w ← get_world;
        (if is_dir (inst w) (parent update_file)
            && negb (is_dir (inst w) update_file)
         then check (OpOpenW update_file) ;;
              set_inst (<[update_file := File EmptyString]>)
         else raise) ;;
        for_each (write_chunk update_file) body ;;
        if stream_ok then mret (Some update_file) else mret None
  end.

(** ** UpdateOrchestrator *)

Definition cleanup_update_package (update_package : path) : M unit :=
  w ← get_world;
  if path_exists (inst w) update_package
  then try_except (os_remove update_package) (add_warning WPackageCleanup)
  else mret tt.

(** The loop of [main] over the update chain; the result is [success]. *)
Fixpoint run_chain (update_chain : list string) : M bool :=
  match update_chain with
  | [] => mret true
  | version :: rest =>
      emit (EvFetch version) ;;
      update_package ← download_update version;
      match update_package with
      | None => mret false
      | Some update_package =>
          emit (EvApply version) ;;
          applied ← apply_update update_package version;
          if (applied : bool) then
            cleanup_update_package update_package ;; run_chain rest
          else mret false
      end
  end.

End Program.


(** ** The overlay and the delete-list as functions on the install root

    In an environment that does not change with time the effect of the
    walk and of the delete-list on the install root is a function of the
    install root alone. *)

Section Pure.

Context (E : env).

(** Whether a call fails, in an environment that does not change. *)
Definition den (op : fsop) : bool := denied E 0 op.

Definition static : Prop := ∀ t op, denied E t op = den op.

Definition copy_pure (rel : path) (file : string * string)
    (m : gmap path node) : gmap path node :=
  let dst := rel ++ [file.1] in
  let dst' := if is_dir m dst then dst ++ [file.1] else dst in
  if den (OpRead (TEMP_DIR ++ rel ++ [file.1])) then m
  else if is_dir m (parent dst') && negb (is_dir m dst') then
    if den (OpOpenW dst') then m
    else if den (OpWrite dst') then <[dst' := File EmptyString]> m
    else <[dst' := File file.2]> m
  else m.

Definition mkdir_pure (p : path) (m : gmap path node)
    : option (gmap path node) :=
  if is_dir m (parent p) && negb (path_exists m p) then
    if den (OpMkdir p) then None else Some (<[p := Dir]> m)
  else None.

Fixpoint makedirs_pure (base rest : path) (m : gmap path node)
    : option (gmap path node) :=
  match rest with
  | [] => None
  | [x] => mkdir_pure (base ++ [x]) m
  | x :: rest' =>
      m' ← (if path_exists m (base ++ [x]) then Some m
            else mkdir_pure (base ++ [x]) m);
      makedirs_pure (base ++ [x]) rest' m'
  end.

(** The files a visit copies: at the root the delete-list is left out. *)
Definition visited_files (rel : path) (entries : list pnode)
    : list (string * string) :=
  let files := files_of entries in
  match rel with
  | [] => if existsb (λ f, String.eqb f.1 (DELETE_LIST_FILE E)) files
          then remove_first (DELETE_LIST_FILE E) files else files
  | _ => files
  end.

Definition visit_pure (rel : path) (entries : list pnode)
    (m : gmap path node) : option (gmap path node) :=
  m' ← (if path_exists m rel then Some m else makedirs_pure [] rel m);
  Some (fold_left (λ m f, copy_pure rel f m) (visited_files rel entries) m').

(** A loop whose body may fail. *)
Definition fold_opt {A S} (f : A → S → option S) : list A → S → option S :=
  fix go (l : list A) (s : S) : option S :=
    match l with
    | [] => Some s
    | x :: l' => s' ← f x s; go l' s'
    end.

Fixpoint walk_entry_pure (rel : path) (n : pnode) (m : gmap path node)
    : option (gmap path node) :=
  match n with
  | PFile _ _ => Some m
  | PDir name entries =>
      m' ← visit_pure (rel ++ [name]) entries m;
      fold_opt (walk_entry_pure (rel ++ [name])) entries m'
  end.

Definition walk_pure (entries : list pnode) (m : gmap path node)
    : option (gmap path node) :=
  m' ← visit_pure [] entries m;
  fold_opt (walk_entry_pure []) entries m'.

(** The removal of what [full_path] names, unless the call fails. *)
Definition delete_at (full_path : path) (m : gmap path node)
    : gmap path node :=
  match m !! full_path with
  | Some Dir =>
      if den (OpRmtree full_path) then m else remove_below full_path m
  | Some (File _) =>
      if den (OpRemove full_path) then m else delete full_path m
  | None => m
  end.

Definition delete_line_pure (line : string) (m : gmap path node)
    : gmap path node :=
  let file_to_delete := Py.strip line in
  if str_truthy file_to_delete then
    match resolve file_to_delete with
    | None => m
    | Some full_path => delete_at full_path m
    end
  else m.

Definition cleanse_pure (entries : list pnode) (m : gmap path node)
    : option (gmap path node) :=
  match find_entry (DELETE_LIST_FILE E) entries with
  | None => Some m
  | Some (PDir _ _) => None
  | Some (PFile _ content) =>
      if den (OpRead (TEMP_DIR ++ [DELETE_LIST_FILE E])) then None
      else Some (fold_left (λ m line, delete_line_pure line m)
                           (lines content) m)
  end.

End Pure.

(** The names in every directory of a package are distinct. *)
Fixpoint unique_names (n : pnode) : Prop :=
  match n with
  | PFile _ _ => True
  | PDir _ entries =>
      NoDup (map pname entries)
      ∧ (fix all (l : list pnode) : Prop :=
           match l with
           | [] => True
           | e :: l' => unique_names e ∧ all l'
           end) entries
  end.

(** Every proper prefix of a path of the install root is a directory, and
    the root itself is no entry. *)
Definition well_formed (m : gmap path node) : Prop :=
  m !! [] = None
  ∧ ∀ k q, is_Some (m !! k) → q `prefix_of` k → q ≠ k → q ≠ [] →
           m !! q = Some Dir.

(** What exists keeps its kind. *)
Definition extends (m m' : gmap path node) : Prop :=
  ∀ k, (m !! k = Some Dir → m' !! k = Some Dir)
       ∧ (∀ c, m !! k = Some (File c) → ∃ c', m' !! k = Some (File c')).

(** A computation whose effect on the install root is the function [f],
    which leaves the work area alone and raises exactly when [f] fails. *)
Definition agrees (m : M unit) (f : gmap path node → option (gmap path node))
    : Prop :=
  ∀ w, ∃ w', temp w' = temp w
    ∧ ((m w = (Ret tt, w') ∧ f (inst w) = Some (inst w'))
       ∨ (m w = (Raise, w') ∧ f (inst w) = None)).

(** ** Comparing two walks

    [X] is the install root at some point of a first walk, [X'] what that
    walk makes of it, and [Y] the install root at the same point of a
    second walk.  Below [p] the second walk may already hold what the
    first one is about to write, and the marker may hold the committed
    version. *)
Definition allowed (target : string) (p : path) (X X' Y : gmap path node)
    : Prop :=
  ∀ k, p `prefix_of` k →
    Y !! k = X !! k ∨ Y !! k = X' !! k
    ∨ (k = LOCAL_VERSION_FILE ∧ Y !! k = Some (File target)).

Definition settled (target : string) (p : path) (X' Y' : gmap path node)
    : Prop :=
  ∀ k, p `prefix_of` k →
    Y' !! k = X' !! k
    ∨ (k = LOCAL_VERSION_FILE ∧ Y' !! k = Some (File target)).

Definition prefixes_exist (p : path) (m : gmap path node) : Prop :=
  ∀ q, q `prefix_of` p → path_exists m q = true.

Definition agree_at (p : path) (X Y : gmap path node) : Prop :=
  is_dir X p = is_dir Y p ∧ prefixes_exist p X ∧ prefixes_exist p Y.

(** Where a copy writes and what: nothing, or a file at [d]. *)
Definition copy_target (E : env) (rel : path) (file : string * string)
    (m : gmap path node) : option (path * string) :=
  let dst := rel ++ [file.1] in
  let d := if is_dir m dst then dst ++ [file.1] else dst in
  if den E (OpRead (TEMP_DIR ++ rel ++ [file.1])) then None
  else if is_dir m (parent d) && negb (is_dir m d) then
    if den E (OpOpenW d) then None
    else Some (d, if den E (OpWrite d) then EmptyString else file.2)
  else None.

(** An action on the entry named [x] of the directory [p]: it touches
    nothing outside [p ++ [x]], keeps the kind of what exists, and a second
    walk that runs it ends where the first one did. *)
Definition action : Type := string * (gmap path node → option (gmap path node)).

Definition run_actions (items : list action)
    : gmap path node → option (gmap path node) :=
  fold_opt (λ it : action, it.2) items.

Definition local_action (p : path) (it : action) : Prop :=
  ∀ m m', prefixes_exist p m → it.2 m = Some m' →
    ∀ k, ¬ (p ++ [it.1]) `prefix_of` k → m' !! k = m !! k.

Definition extending_action (it : action) : Prop :=
  ∀ m m', it.2 m = Some m' → extends m m'.

Definition repeatable_action (target : string) (p : path) (it : action)
    : Prop :=
  ∀ X X' Y, it.2 X = Some X' →
    allowed target (p ++ [it.1]) X X' Y → agree_at p X Y →
    X' !! LOCAL_VERSION_FILE ≠ Some Dir →
    ∃ Y', it.2 Y = Some Y' ∧ settled target (p ++ [it.1]) X' Y'.

(** The install root [XD] is what the steps up to the end of the walk make
    of [A] when none of them raises. *)
Definition installs (E : env) (update_file : path) (A XD : gmap path node)
    : Prop :=
  ∃ c a XC,
    A !! update_file = Some (File c)
    ∧ den E (OpRead update_file) = false
    ∧ unzip E c = Some a ∧ complete a = true
    ∧ den E (OpMkdir TEMP_DIR) = false
    ∧ cleanse_pure E (members a) A = Some XC
    ∧ walk_pure E (members a) XC = Some XD.

(** The marker can be written on [XD]. *)
Definition commits (E : env) (XD : gmap path node) : Prop :=
  XD !! ["SCRIPTS"] = Some Dir
  ∧ XD !! LOCAL_VERSION_FILE ≠ Some Dir
  ∧ den E (OpOpenW LOCAL_VERSION_FILE) = false
  ∧ den E (OpWrite LOCAL_VERSION_FILE) = false.

(** The packages of an environment list no name twice in a directory. *)
Definition unique_members (E : env) : Prop :=
  ∀ c a, unzip E c = Some a →
    NoDup (map pname (members a)) ∧ Forall unique_names (members a).

(** Two entries of the same kind. *)
Definition same_kind (a b : node) : Prop :=
  match a, b with
  | Dir, Dir => True
  | File _, File _ => True
  | _, _ => False
  end.

(** The actions of a walk on the entries of the directory [p]: the copies
    of its files, then the walks of its sub-directories. *)
Definition subdirs (entries : list pnode) : list pnode :=
  List.filter (λ n, match n with PDir _ _ => true | PFile _ _ => false end)
              entries.

Definition file_actions (E : env) (p : path) (files : list (string * string))
    : list action :=
  map (λ f, (f.1, λ m, Some (copy_pure E p f m))) files.

Definition dir_actions (E : env) (p : path) (entries : list pnode)
    : list action :=
  map (λ n, (pname n, walk_entry_pure E p n)) (subdirs entries).

Definition entry_actions (E : env) (p : path) (entries : list pnode)
    : list action :=
  file_actions E p (visited_files E p entries) ++ dir_actions E p entries.

(** The first step of a visit: the directory is created if it is missing. *)
Definition ensure_dir (E : env) (p : path) (m : gmap path node)
    : option (gmap path node) :=
  if path_exists m p then Some m else makedirs_pure E [] p m.

(** ** Concrete environments and worlds *)

Definition no_faults : nat → fsop → bool := λ _ _, false.

(** An install root that holds the marker with the given content. *)
Definition installed (version : string) : gmap path node :=
  <[["SCRIPTS"] := Dir]> (<[LOCAL_VERSION_FILE := File version]> ∅).

Definition fresh_world (m : gmap path node) : world :=
  World m TempAbsent 0 [] [].

(** No server and no readable package. *)
Definition env_offline : env :=
  Env (λ _, None) no_faults (λ _ _, RespError) (λ _, None) "delete.txt".

(** A server that reports a length of 600 for every package, and a disk
    with 1000 bytes free. *)
Definition env_small_disk : env :=
  Env (λ _, None) no_faults (λ _ _, RespOk (Some "600") ["data"] true)
      (λ _, Some 1000) "delete.txt".


(** An environment in which reading from the work area fails and nothing
    else does: every copy of the overlay fails. *)
Definition reads_of_work_area_fail (E : env) : Prop :=
  ∀ t op, denied E t op =
    match op with
    | OpRead p => bool_decide (TEMP_DIR `prefix_of` p)
    | _ => false
    end.

(** A package that holds files only. *)
Definition only_files (entries : list pnode) : Prop :=
  Forall (λ n, match n with PFile _ _ => True | PDir _ _ => False end) entries.

Definition three_files : archive :=
  Archive [PFile "a.dat" "1"; PFile "b.dat" "2"; PFile "c.dat" "3"] true.

Definition env_reads_fail : env :=
  Env (λ s, if String.eqb s "PKG" then Some three_files else None)
      (λ _ op, match op with
               | OpRead p => bool_decide (TEMP_DIR `prefix_of` p)
               | _ => false
               end)
      (λ _ _, RespError) (λ _, None) "delete.txt".

(** The install root with the marker and a downloaded package. *)
Definition with_package (version : string) : gmap path node :=
  <[["Update.zip"] := File "PKG"]> (installed version).

(** Every package is an empty archive, and from time [11] on, after the
    first version of a chain is committed, the marker can be opened but
    not written. *)
Definition env_marker_write_breaks : env :=
  Env (λ _, Some (Archive [] true))
      (λ t op, match op with
               | OpWrite p => bool_decide (p = LOCAL_VERSION_FILE) && (11 <=? t)%nat
               | _ => false
               end)
      (λ _ _, RespOk None ["PKG"] true) (λ _, None) "delete.txt".

(** The package of version 1.2 is corrupt; the others are empty archives. *)
Definition env_second_package_corrupt : env :=
  Env (λ s, if String.eqb s "PKG" then Some (Archive [] true) else None)
      no_faults
      (λ _ version, if String.eqb version "1.2" then RespOk None ["BAD"] true
                    else RespOk None ["PKG"] true)
      (λ _, None) "delete.txt".

(** A check of [well_formed] that runs. *)
Definition well_formedb (m : gmap path node) : bool :=
  bool_decide (m !! [] = None)
  && forallb (λ kv : path * node,
                forallb (λ n, is_dir m (take n kv.1))
                        (seq 1 (length kv.1 - 1)))
             (map_to_list m).

(** A package with a delete-list, two files and a directory. *)
Definition package_demo : archive :=
  Archive [PFile "delete.txt" "old.dat";
           PFile "a.dat" "A";
           PDir "lib" [PFile "b.dat" "B"; PDir "sub" [PFile "c.dat" "C"]]]
          true.

Definition env_demo : env :=
  Env (λ s, if String.eqb s "PKG" then Some package_demo else None)
      no_faults (λ _ _, RespError) (λ _, None) "delete.txt".

(** Version 1.0 installed, with a file the package asks to delete, one it
    overwrites, and the downloaded package. *)
Definition world_demo : world :=
  fresh_world (<[["old.dat"] := File "x"]>
                 (<[["a.dat"] := File "stale"]> (with_package "1.0"))).

(** A package that ships the marker file, its content ending in a line
    break, and a directory; the directory cannot be created. *)
Definition package_with_marker : archive :=
  Archive [PDir "SCRIPTS"
             [PFile "LOC_VER.txt" (String.append "1.1" (String "010" EmptyString))];
           PDir "lib" [PFile "b.dat" "B"]]
          true.

Definition env_mkdir_fails : env :=
  Env (λ s, if String.eqb s "PKG" then Some package_with_marker else None)
      (λ _ op, match op with
               | OpMkdir p => bool_decide (p = ["lib"])
               | _ => false
               end)
      (λ _ _, RespError) (λ _, None) "delete.txt".

(** An install root without a marker, with the downloaded package. *)
Definition world_no_marker : world :=
  fresh_world (<[["Update.zip"] := File "PKG"]> (<[["SCRIPTS"] := Dir]> ∅)).

(** A server whose content-length header is not a number. *)
Definition env_bad_length : env :=
  Env (λ _, None) no_faults (λ _ _, RespOk (Some "n/a") ["PKG"] true)
      (λ _, None) "delete.txt".

(** * The rest of the program

    The functions of [Updater.py] around the version codec, the fetcher and
    the patch applier: the version source, the configuration, the console
    dialogues and the decisions of [main]. *)

(** ** VersionSource *)

(** The outcome of [requests.get(url, timeout=10)] followed by
    [raise_for_status()]: a timeout, another [RequestException], or the
    text of the response. *)
Inductive http_text :=
  | HttpTimeout
  | HttpFailed
  | HttpText (text : string).

(** [get_server_version]: both handlers return [None]. *)
Definition get_server_version (response : http_text) : option string :=
  match response with
  | HttpText text => Some (Py.strip text)
  | HttpTimeout => None
  | HttpFailed => None
  end.

(** [get_min_supported_version]: one handler for every exception. *)
Definition get_min_supported_version (response : http_text) : option string :=
  match response with
  | HttpText text => Some (Py.strip text)
  | _ => None
  end.

(** [l.sort(key=key)] for keys that are lists of integers: the sort is
    stable and compares keys with [<] only.  It is written here as an
    insertion from the right, each element going before the first one whose
    key is not smaller. *)
Fixpoint insert_by_key {A} (key : A → list Z) (x : A) (l : list A) : list A :=
  match l with
  | [] => [x]
  | y :: l' =>
      if Py.list_lt (key y) (key x) then y :: insert_by_key key x l'
      else x :: l
  end.

Definition sort_by_key {A} (key : A → list Z) (l : list A) : list A :=
  fold_right (insert_by_key key) [] l.

(** The comprehension over the lines of the response:
    [[v.strip() for v in text.strip().split('\n') if v.strip()]]. *)
Definition version_lines (text : string) : list string :=
  map Py.strip
      (List.filter (λ v, str_truthy (Py.strip v))
                   (Py.split "010" (Py.strip text))).

(** The versions kept for sorting: those [parse_version] accepts. *)
Definition valid_versions (versions : list string) : list string :=
  List.filter (λ version, Py.truthy (parse_version version)) versions.

Definition get_version_list (response : http_text) : option (list string) :=
  match response with
  | HttpText text =>
      Some (sort_by_key parse_version (valid_versions (version_lines text)))
  | HttpTimeout => None
  | HttpFailed => None
  end.

(** Ascending by parsed version. *)
Definition ascending (versions : list string) : Prop :=
  StronglySorted
    (λ a b, Py.list_le (parse_version a) (parse_version b) = true) versions.

(** ** What the fetcher and the applier write *)

(** The chunks of a download, one after the other. *)
Definition payload (chunks : list string) : string :=
  fold_right String.append EmptyString chunks.

(** The lines of the delete-list of a package, if it has one. *)
Definition delete_lines (E : env) (entries : list pnode) : list string :=
  match find_entry (DELETE_LIST_FILE E) entries with
  | Some (PFile _ content) => lines content
  | _ => []
  end.

(** The paths an application of the package [a] may remove or write, the
    marker apart: those at or below an entry of its root, and those at or
    below a path its delete-list names. *)
Definition touched (E : env) (a : archive) (k : path) : Prop :=
  (∃ n, n ∈ members a ∧ [pname n] `prefix_of` k)
  ∨ (∃ line q, line ∈ delete_lines E (members a)
       ∧ resolve (Py.strip line) = Some q ∧ q `prefix_of` k).

(** No file-system call fails. *)
Definition fault_free (E : env) : Prop := ∀ t op, denied E t op = false.

(** The files the walk copies from the directory [n] of the work area,
    found at [rel], each with the path it is copied to, and the directories
    it makes sure exist. *)
Fixpoint dir_files (E : env) (rel : path) (n : pnode) : list (path * string) :=
  match n with
  | PFile _ _ => []
  | PDir name entries =>
      map (λ f : string * string, ((rel ++ [name]) ++ [f.1], f.2))
          (visited_files E (rel ++ [name]) entries)
      ++ flat_map (dir_files E (rel ++ [name])) entries
  end.

Fixpoint dir_paths (rel : path) (n : pnode) : list path :=
  match n with
  | PFile _ _ => []
  | PDir name entries =>
      (rel ++ [name]) :: flat_map (dir_paths (rel ++ [name])) entries
  end.

(** The same for the entries of the directory at [p]; at the root the
    delete-list is left out. *)
Definition files_at (E : env) (p : path) (entries : list pnode)
    : list (path * string) :=
  map (λ f : string * string, (p ++ [f.1], f.2)) (visited_files E p entries)
  ++ flat_map (dir_files E p) entries.

Definition dirs_at (p : path) (entries : list pnode) : list path :=
  flat_map (dir_paths p) entries.

Definition package_files (E : env) (a : archive) : list (path * string) :=
  files_at E [] (members a).

(** No file of the package is to go where the install root has a
    directory, and no directory where it has a file. *)
Definition no_conflict (E : env) (m : gmap path node) (p : path)
    (entries : list pnode) : Prop :=
  (∀ q c, (q, c) ∈ files_at E p entries → m !! q ≠ Some Dir)
  ∧ (∀ d c, d ∈ dirs_at p entries → m !! d ≠ Some (File c)).

(** What the walk of a directory of the package achieves when nothing
    fails: every file below it is in place afterwards. *)
Definition installs_dir (E : env) (n : pnode) : Prop :=
  ∀ rel X X', unique_names n →
    walk_entry_pure E rel n X = Some X' →
    is_dir X rel = true → prefixes_exist rel X →
    (∀ q c, (q, c) ∈ dir_files E rel n → X !! q ≠ Some Dir) →
    (∀ d c, d ∈ dir_paths rel n → X !! d ≠ Some (File c)) →
    ∀ q c, (q, c) ∈ dir_files E rel n → X' !! q = Some (File c).

(** ** Console *)

(** [c.upper()] for a character below 256, as code points: the upper case
    of two of them lies beyond 255, and that of the sharp s is two
    letters. *)
Definition upper_char (c : ascii) : list N :=
  let n := N_of_ascii c in
  if ((97 <=? n) && (n <=? 122))%N then [(n - 32)%N]
  else if (n =? 181)%N then [924%N]
  else if (n =? 223)%N then [83%N; 83%N]
  else if ((224 <=? n) && (n <=? 254) && negb (n =? 247))%N then [(n - 32)%N]
  else if (n =? 255)%N then [376%N]
  else [n].

(** [s.upper()] *)
Definition upper (s : string) : list N :=
  flat_map upper_char (list_ascii_of_string s).

Definition code_points (s : string) : list N :=
  map N_of_ascii (list_ascii_of_string s).

(** [s.upper() == literal] *)
Definition upper_is (s literal : string) : bool :=
  bool_decide (upper s = code_points literal).

(** How a dialogue ends: it returns, [sys.exit()] is called, or [input()]
    finds the input exhausted and raises [EOFError]. *)
Inductive ended (A : Type) :=
  | Returned (a : A)
  | Exited
  | EndOfInput.
Arguments Returned {A} a.
Arguments Exited {A}.
Arguments EndOfInput {A}.

(** [ask_retry_or_exit]: the lines typed are consumed one by one; the
    result comes with the lines left.  What is printed is not modelled. *)
Fixpoint ask_retry_or_exit (inputs : list string)
    : ended bool * list string :=
  match inputs with
  | [] => (EndOfInput, [])
  | choice :: rest =>
      if upper_is choice "Y" then (Returned true, rest)
      else if upper_is choice "N" then (Exited, rest)
      else ask_retry_or_exit rest
  end.

(** [user_choice_and_exit]: its two parameters only decide what is
    printed.  [launch n] tells whether the [n]-th call of [start_game]
    manages to start the game.  Every turn of the loop reads
    a line, so a number of turns above the number of lines is never
    reached; [None] stands for a loop cut short. *)
Fixpoint user_choice_loop (turns : nat) (launch : nat → bool) (attempt : nat)
    (inputs : list string) : option (ended unit * list string) :=
  match turns with
  | O => None
  | S turns' =>
      match inputs with
      | [] => Some (EndOfInput, [])
      | choice :: rest =>
          if upper_is choice "Y" then
            if launch attempt then Some (Exited, rest)
            else
              match ask_retry_or_exit rest with
              | (Returned true, rest') =>
                  user_choice_loop turns' launch (S attempt) rest'
              | (Returned false, rest') => Some (Returned tt, rest')
              | (Exited, rest') => Some (Exited, rest')
              | (EndOfInput, rest') => Some (EndOfInput, rest')
              end
          else if upper_is choice "N" then Some (Exited, rest)
          else user_choice_loop turns' launch attempt rest
      end
  end.

Definition user_choice_and_exit (launch : nat → bool) (inputs : list string)
    : option (ended unit * list string) :=
  user_choice_loop (S (length inputs)) launch 0 inputs.

(** ** Configuration *)

Module Config.

(** The module-level variables that [load_config] assigns. *)
Record globals := Globals {
  SERVER_VERSION_URL : option string;
  UPDATE_PACKAGE_URL_TEMPLATE : option string;
  VERSION_LIST_URL : option string;
  CHANGELOG_FILE : option string;
  DELETE_LIST_FILE : option string;
  MIN_SUPPORTED_FILENAME : option string
}.

(** All of them are [None] when the program starts. *)
Definition initial : globals := Globals None None None None None None.

(** What becomes of the configuration file: it does not exist; reading it
    raises a [configparser.Error]; reading it raises something else, which
    no handler of [load_config] catches; or it is read, and then every
    section gives for an option name the value that [config[section][name]]
    returns.  A name that is absent there stands for a lookup that raises
    [KeyError] or a [configparser.Error]. *)
Inductive file_state :=
  | Missing
  | Malformed
  | Unreadable
  | Parsed (sections : gmap string (gmap string string)).

(** The body of the [try] block after the file was read: [None] is an
    exception for which the handlers return [False]. *)
Definition step := globals → option unit * globals.

Definition assign (sections : gmap string (gmap string string))
    (name : string) (set : string → globals → globals) : step := λ g,
  match sections !! "Paths" with
  | Some paths =>
      match paths !! name with
      | Some value => (Some tt, set value g)
      | None => (None, g)
      end
  | None => (None, g)
  end.

Definition and_then (a b : step) : step := λ g,
  match a g with
  | (Some _, g') => b g'
  | (None, g') => (None, g')
  end.

Definition assignments (sections : gmap string (gmap string string)) : step :=
  and_then (assign sections "server_version_url"
              (λ v g, Globals (Some v) (UPDATE_PACKAGE_URL_TEMPLATE g)
                        (VERSION_LIST_URL g) (CHANGELOG_FILE g)
                        (DELETE_LIST_FILE g) (MIN_SUPPORTED_FILENAME g)))
  (and_then (assign sections "update_package_url_template"
              (λ v g, Globals (SERVER_VERSION_URL g) (Some v)
                        (VERSION_LIST_URL g) (CHANGELOG_FILE g)
                        (DELETE_LIST_FILE g) (MIN_SUPPORTED_FILENAME g)))
  (and_then (assign sections "version_list_url"
              (λ v g, Globals (SERVER_VERSION_URL g)
                        (UPDATE_PACKAGE_URL_TEMPLATE g) (Some v)
                        (CHANGELOG_FILE g) (DELETE_LIST_FILE g)
                        (MIN_SUPPORTED_FILENAME g)))
  (and_then (assign sections "changelog_filename"
              (λ v g, Globals (SERVER_VERSION_URL g)
                        (UPDATE_PACKAGE_URL_TEMPLATE g) (VERSION_LIST_URL g)
                        (Some v) (DELETE_LIST_FILE g)
                        (MIN_SUPPORTED_FILENAME g)))
  (and_then (assign sections "delete_list_filename"
              (λ v g, Globals (SERVER_VERSION_URL g)
                        (UPDATE_PACKAGE_URL_TEMPLATE g) (VERSION_LIST_URL g)
                        (CHANGELOG_FILE g) (Some v)
                        (MIN_SUPPORTED_FILENAME g)))
            (assign sections "min_supported_filename"
              (λ v g, Globals (SERVER_VERSION_URL g)
                        (UPDATE_PACKAGE_URL_TEMPLATE g) (VERSION_LIST_URL g)
                        (CHANGELOG_FILE g) (DELETE_LIST_FILE g)
                        (Some v))))))).

(** [load_config]: [Ret] of the value returned, or [Raise]. *)
Definition load_config (file : file_state) (g : globals)
    : res bool * globals :=
  match file with
  | Missing => (Ret false, g)
  | Malformed => (Ret false, g)
  | Unreadable => (Raise, g)
  | Parsed sections =>
      match assignments sections g with
      | (Some _, g') => (Ret true, g')
      | (None, g') => (Ret false, g')
      end
  end.

(** The option names in the order of the assignments, each with the
    variable it is assigned to. *)
Definition options : list (string * (globals → option string)) :=
  [("server_version_url", SERVER_VERSION_URL);
   ("update_package_url_template", UPDATE_PACKAGE_URL_TEMPLATE);
   ("version_list_url", VERSION_LIST_URL);
   ("changelog_filename", CHANGELOG_FILE);
   ("delete_list_filename", DELETE_LIST_FILE);
   ("min_supported_filename", MIN_SUPPORTED_FILENAME)].

(** [config['Paths'][name]], when it returns. *)
Definition value_of (sections : gmap string (gmap string string))
    (name : string) : option string :=
  sections !! "Paths" ≫= λ paths, paths !! name.

End Config.

(** ** The decisions of [main] *)

(** The check against the lowest supported version: the program ends,
    the user is asked whether to go on, or the check lets the version
    through. *)
Inductive gate :=
  | TooLow
  | AskToContinue
  | Open.

Definition min_version_gate (local_version_str : string)
    (min_supported_version : option string) : gate :=
  match min_supported_version with
  | Some m =>
      if str_truthy m then
        let local_version_parsed := parse_version local_version_str in
        let min_version_parsed := parse_version m in
        if Py.truthy local_version_parsed && Py.truthy min_version_parsed
           && Py.list_lt local_version_parsed min_version_parsed
        then TooLow else Open
      else Open
  | None => AskToContinue
  end.

(** What the comparison of the versions leads to: an error message and
    the question whether to retry, for version information that is unusable
    or for a chain that is empty; the update chain to install; or the
    message that the installation is up to date. *)
Inductive verdict :=
  | InfoError
  | NoPath
  | Update (update_chain : list string)
  | UpToDate.

Definition check_versions (local_version_str server_version_str : string)
    (all_versions : list string) : verdict :=
  let local_version := parse_version local_version_str in
  let server_version := parse_version server_version_str in
  if negb (Py.truthy local_version) || negb (Py.truthy server_version)
     || negb (Py.truthy all_versions)
  then InfoError
  else if Py.list_lt local_version server_version then
    let update_chain :=
      get_update_chain local_version_str server_version_str all_versions in
    if negb (Py.truthy update_chain) then NoPath else Update update_chain
  else UpToDate.
Example parse_1_12_3 : parse_version "1.12.3" = [1; 12; 3].
Proof. reflexivity. Qed.

Example parse_signed : parse_version " -1.+2. 3 .1_0" = [-1; 2; 3; 10].
Proof. reflexivity. Qed.

Example parse_bad : parse_version "1..2" = [] /\ parse_version "" = []
  /\ parse_version "1.a" = [] /\ parse_version "1_.2" = [].
Proof. repeat split; reflexivity. Qed.

Example format_1_12_3 : format_version [1; 12; 3] = "1.12.3".
Proof. reflexivity. Qed.

Example chain_scenario :
  get_update_chain "1.0.0" "1.2.0" ["1.0.0"; "1.1.0"; "1.1.5"; "1.2.0"]
  = ["1.1.0"; "1.1.5"; "1.2.0"].
Proof. reflexivity. Qed.

(** ** Order properties of the list comparison *)

Section ListOrder.

Implicit Types a b c : list Z.

Lemma list_lt_irrefl a : Py.list_lt a a = false.
Proof. induction a as [|x a IH]; simpl; [done|]. by rewrite Z.eqb_refl. Qed.

Lemma list_lt_trans a b c :
  Py.list_lt a b = true → Py.list_lt b c = true → Py.list_lt a c = true.
Proof.
  revert b c. induction a as [|x a IH]; intros [|y b] [|z c]; simpl; try done.
  destruct (Z.eqb_spec x y) as [->|Hxy].
  - destruct (Z.eqb_spec y z); [apply IH | done].
  - intros Hlt%Z.ltb_lt. destruct (Z.eqb_spec y z) as [->|Hyz].
    + intros _. destruct (Z.eqb_spec x z); [done | by apply Z.ltb_lt].
    + intros Hlt'%Z.ltb_lt. destruct (Z.eqb_spec x z); [lia | apply Z.ltb_lt; lia].
Qed.

Lemma list_lt_trichotomy a b :
  Py.list_lt a b = true ∨ a = b ∨ Py.list_lt b a = true.
Proof.
  revert b. induction a as [|x a IH]; intros [|y b]; simpl; auto.
  rewrite (Z.eqb_sym y x). destruct (Z.eqb_spec x y) as [->|Hxy].
  - destruct (IH b) as [?|[->|?]]; auto.
  - destruct (Z.ltb_spec x y); [auto|]. right; right. apply Z.ltb_lt; lia.
Qed.

Lemma list_lt_asym a b : Py.list_lt a b = true → Py.list_lt b a = false.
Proof.
  intros Hab. destruct (Py.list_lt b a) eqn:Hba; [|done].
  by rewrite <- (list_lt_irrefl a), (list_lt_trans a b a).
Qed.

Lemma list_le_lt_or_eq a b :
  Py.list_le a b = true ↔ Py.list_lt a b = true ∨ a = b.
Proof.
  revert b. induction a as [|x a IH]; intros [|y b]; simpl.
  - split; auto.
  - split; auto.
  - split; [done | by intros [?|?]].
  - destruct (Z.eqb_spec x y) as [->|Hxy].
    + rewrite IH. split; (intros [?|?]; [by left | right; congruence]).
    + split; [by left | intros [?|?]; [done | congruence]].
Qed.

(** The comparison is decided at the first position where the lists differ,
    and a proper prefix is smaller. *)
Lemma list_lt_first_diff p x y a b :
  x ≠ y → Py.list_lt (p ++ x :: a) (p ++ y :: b) = (x <? y).
Proof.
  intros Hxy. induction p as [|z p IH]; simpl.
  - by destruct (Z.eqb_spec x y).
  - by rewrite Z.eqb_refl.
Qed.

Lemma list_lt_prefix p y b : Py.list_lt p (p ++ y :: b) = true.
Proof. induction p as [|z p IH]; simpl; [done|]. by rewrite Z.eqb_refl. Qed.

End ListOrder.

(** ** Strings: stripping, splitting and joining *)


Section Strings.

Lemma string_forallb_impl (P Q : ascii → bool) s :
  (∀ c, P c = true → Q c = true) →
  string_forallb P s = true → string_forallb Q s = true.
Proof.
  intros HPQ. induction s as [|c s IH]; simpl; [done|].
  intros [Hc Hs]%andb_true_iff. by rewrite (HPQ c Hc), IH.
Qed.

Lemma rstrip_nospace s :
  string_forallb (λ c, negb (Py.isspace c)) s = true → Py.rstrip s = s.
Proof.
  induction s as [|c s IH]; simpl; [done|].
  intros [Hc Hs]%andb_true_iff. rewrite (IH Hs).
  destruct s; [|done]. by apply negb_true_iff in Hc as ->.
Qed.

Lemma strip_nospace s :
  string_forallb (λ c, negb (Py.isspace c)) s = true → Py.strip s = s.
Proof.
  intros Hs. unfold Py.strip.
  assert (Py.lstrip s = s) as ->; [|by apply rstrip_nospace].
  destruct s as [|c s]; simpl in *; [done|].
  apply andb_true_iff in Hs as [Hc _]. by apply negb_true_iff in Hc as ->.
Qed.

Lemma lstrip_idemp s : Py.lstrip (Py.lstrip s) = Py.lstrip s.
Proof.
  induction s as [|c s IH]; simpl; [done|].
  destruct (Py.isspace c) eqn:Hc; [done|]. simpl. by rewrite Hc.
Qed.

Lemma rstrip_idemp s : Py.rstrip (Py.rstrip s) = Py.rstrip s.
Proof.
  induction s as [|c s IH]; simpl; [done|].
  destruct (Py.rstrip s) as [|d r] eqn:Hr.
  - destruct (Py.isspace c) eqn:Hc; simpl; [done|]. by rewrite Hc.
  - change (Py.rstrip (String c (String d r))) with
      (match Py.rstrip (String d r) with
       | EmptyString =>
           if Py.isspace c then EmptyString else String c EmptyString
       | r' => String c r'
       end).
    by rewrite IH.
Qed.

(** Stripping on the right keeps a first character that is not whitespace. *)
Lemma rstrip_head c s :
  Py.isspace c = false → ∃ r, Py.rstrip (String c s) = String c r.
Proof.
  intros Hc. simpl. destruct (Py.rstrip s); [|by eexists].
  rewrite Hc. by eexists.
Qed.

Lemma lstrip_rstrip s : Py.lstrip (Py.rstrip (Py.lstrip s)) = Py.rstrip (Py.lstrip s).
Proof.
  induction s as [|c s IH]; simpl; [done|].
  destruct (Py.isspace c) eqn:Hc; [done|].
  destruct (rstrip_head c s Hc) as [r ->]. simpl. by rewrite Hc.
Qed.

Lemma strip_idemp s : Py.strip (Py.strip s) = Py.strip s.
Proof. unfold Py.strip. by rewrite lstrip_rstrip, rstrip_idemp. Qed.

Lemma split_nosep sep s :
  string_forallb (λ c, negb (Ascii.eqb c sep)) s = true → Py.split sep s = [s].
Proof.
  induction s as [|c s IH]; simpl; [done|].
  intros [Hc Hs]%andb_true_iff. apply negb_true_iff in Hc as ->.
  by rewrite (IH Hs).
Qed.

Lemma split_app sep s t :
  string_forallb (λ c, negb (Ascii.eqb c sep)) s = true →
  Py.split sep (String.append s (String sep t)) = s :: Py.split sep t.
Proof.
  induction s as [|c s IH]; simpl.
  - by rewrite Ascii.eqb_refl.
  - intros [Hc Hs]%andb_true_iff. apply negb_true_iff in Hc as ->.
    by rewrite (IH Hs).
Qed.

Lemma split_join sep parts :
  parts ≠ [] →
  Forall (λ s, string_forallb (λ c, negb (Ascii.eqb c sep)) s = true) parts →
  Py.split sep (Py.join (String sep EmptyString) parts) = parts.
Proof.
  intros Hne Hall. induction Hall as [|s parts Hs Hall IH]; [done|].
  destruct parts as [|s' parts]; simpl.
  - by apply split_nosep.
  - change (String.append (String sep EmptyString) ?t) with (String sep t).
    rewrite (split_app sep s _ Hs). f_equal. by apply IH.
Qed.

End Strings.

(** ** Decimal printing and parsing of integers *)

Section Decimal.


Lemma str_char_plain c :
  str_char c = true →
  negb (Py.isspace c) = true ∧ negb (Ascii.eqb c ".") = true.
Proof.
  unfold str_char, Py.digit_val, Py.isspace.
  destruct c as [[] [] [] [] [] [] [] []]; vm_compute; auto; discriminate.
Qed.

Lemma string_of_uint_chars d :
  string_forallb str_char (NilEmpty.string_of_uint d) = true.
Proof. induction d; simpl; auto. Qed.

Lemma str_chars n : string_forallb str_char (Py.str n) = true.
Proof. destruct n; simpl; auto using string_of_uint_chars. Qed.

Lemma int_digits_acc d (acc : positive) :
  Py.int_digits (NilEmpty.string_of_uint d) true (Z.pos acc)
  = Some (Z.pos (Pos.of_uint_acc d acc)).
Proof.
  revert acc. induction d; intros acc; simpl; [done|..];
    rewrite <- IHd; f_equal;
    match goal with
    | |- context [Z.of_nat ?n] =>
        let v := eval vm_compute in (Z.of_nat n) in change (Z.of_nat n) with v
    end; lia.
Qed.

Lemma int_digits_uint d prev :
  d ≠ Nil ∨ prev = true →
  Py.int_digits (NilEmpty.string_of_uint d) prev 0
  = Some (Z.of_N (Pos.of_uint d)).
Proof.
  revert prev. induction d; intros prev Hd; simpl;
    [by destruct Hd as [?| ->] | by apply IHd; right | ..];
    apply (int_digits_acc d).
Qed.

Lemma int_digits_pos p prev :
  Py.int_digits (NilEmpty.string_of_uint (Pos.to_uint p)) prev 0 = Some (Z.pos p).
Proof.
  rewrite int_digits_uint; [|left; apply Unsigned.to_uint_nonnil].
  by rewrite Unsigned.of_to.
Qed.

Lemma int_str n : Py.int (Py.str n) = Some n.
Proof.
  unfold Py.int. rewrite strip_nospace.
  2:{ eapply string_forallb_impl; [|apply str_chars].
      intros c Hc. by apply str_char_plain. }
  destruct n as [|p|p]; simpl; [done| |].
  - pose proof (int_digits_pos p false) as Hp.
    pose proof (string_of_uint_chars (Pos.to_uint p)) as Hc.
    destruct (NilEmpty.string_of_uint (Pos.to_uint p)) as [|c s]; [done|].
    simpl in Hc. apply andb_true_iff in Hc as [Hc _].
    unfold str_char in Hc.
    destruct (Ascii.eqb_spec c "-") as [->|?]; [done|].
    destruct (Ascii.eqb_spec c "+") as [->|?]; [done|].
    destruct c as [[] [] [] [] [] [] [] []]; try done.
  - by rewrite int_digits_pos.
Qed.

End Decimal.

(** ** The codec and the resolver *)

Section Codec.

Lemma format_parts_plain (a : list Z) :
  Forall (λ s, string_forallb (λ c, negb (Ascii.eqb c ".")) s = true)
         (map Py.str a).
Proof.
  apply Forall_map, Forall_true. intros n. simpl.
  eapply string_forallb_impl; [|apply str_chars].
  intros c Hc. by apply str_char_plain.
Qed.

Lemma mapM_int_str (a : list Z) : mapM Py.int (map Py.str a) = Some a.
Proof.
  apply mapM_Some. induction a as [|n a IH]; simpl; constructor; auto using int_str.
Qed.

Lemma parse_format (a : list Z) : parse_version (format_version a) = a.
Proof.
  unfold parse_version, format_version. destruct a as [|n a]; [done|].
  rewrite split_join; [|done|apply format_parts_plain].
  by rewrite mapM_int_str.
Qed.

Lemma truthy_nil_iff {A} (l : list A) : Py.truthy l = false ↔ l = [].
Proof. by destruct l. Qed.

(** The loop of [get_update_chain] appends to the chain built so far. *)
Lemma chain_loop cp tp (all_versions chain : list string) :
  fold_left (chain_step cp tp) all_versions chain
  = (chain ++ List.filter
      (λ v, Py.truthy (parse_version v) && in_range cp (parse_version v) tp)
      all_versions)%list.
Proof.
  revert chain. induction all_versions as [|v vs IH]; intros chain; simpl.
  - by rewrite app_nil_r.
  - rewrite IH. unfold chain_step.
    destruct (Py.truthy (parse_version v)); simpl; [|done].
    destruct (in_range cp (parse_version v) tp); [|done].
    by rewrite <- app_assoc.
Qed.

Lemma get_update_chain_filter cur tgt pub :
  get_update_chain cur tgt pub =
    if Py.truthy (parse_version cur) && Py.truthy (parse_version tgt)
    then List.filter
           (λ v, Py.truthy (parse_version v)
                 && in_range (parse_version cur) (parse_version v) (parse_version tgt))
           pub
    else [].
Proof.
  unfold get_update_chain.
  destruct (Py.truthy (parse_version cur)), (Py.truthy (parse_version tgt));
    simpl; try done.
  apply chain_loop.
Qed.

(** Nothing is smaller than the empty list. *)
Lemma list_lt_nil_r a : Py.list_lt a [] = false.
Proof. by destruct a. Qed.

End Codec.

(** ** What [int] accepts and rejects *)

Section IntAccepts.


Lemma digit_val_range c d : Py.digit_val c = Some d → 0 ≤ d ≤ 9.
Proof.
  unfold Py.digit_val. case_match eqn:Hc; [|done]. intros [= <-].
  apply andb_true_iff in Hc as [H1%Nat.leb_le H2%Nat.leb_le]. lia.
Qed.

Lemma int_digits_all_digits s prev acc :
  string_forallb is_digit s = true → 0 ≤ acc → s ≠ EmptyString ∨ prev = true →
  ∃ n, Py.int_digits s prev acc = Some n ∧ 0 ≤ n.
Proof.
  revert prev acc. induction s as [|c s IH]; intros prev acc Hs Hacc Hne; simpl.
  - destruct Hne as [?| ->]; [done|]. eauto.
  - simpl in Hs. apply andb_true_iff in Hs as [Hc Hs]. unfold is_digit in Hc.
    destruct (Py.digit_val c) as [d|] eqn:Hd; [|done].
    apply digit_val_range in Hd. apply IH; [done|lia|by right].
Qed.

Lemma is_digit_plain c :
  is_digit c = true →
  Py.isspace c = false ∧ Ascii.eqb c "-" = false ∧ Ascii.eqb c "+" = false.
Proof.
  unfold is_digit, Py.digit_val, Py.isspace.
  destruct c as [[] [] [] [] [] [] [] []]; vm_compute; auto; discriminate.
Qed.

Lemma int_all_digits s :
  s ≠ EmptyString → string_forallb is_digit s = true →
  ∃ n, Py.int s = Some n ∧ 0 ≤ n.
Proof.
  intros Hne Hs. unfold Py.int. rewrite strip_nospace.
  2:{ eapply string_forallb_impl; [|exact Hs].
      intros c Hc. by apply is_digit_plain in Hc as [-> _]. }
  assert (∃ n, Py.int_digits s false 0 = Some n ∧ 0 ≤ n) as Hn
    by (apply int_digits_all_digits; [done|lia|by left]).
  destruct s as [|c s]; [done|].
  simpl in Hs. apply andb_true_iff in Hs as [Hc _].
  apply is_digit_plain in Hc as (_ & Hm & Hp).
  destruct (Ascii.eqb_spec c "-") as [->|?]; [done|].
  destruct (Ascii.eqb_spec c "+") as [->|?]; [done|].
  destruct c as [[] [] [] [] [] [] [] []]; try done.
Qed.

Lemma int_digits_bad c s prev acc :
  In c (chars s) → is_digit c = false → Ascii.eqb c "_" = false →
  Py.int_digits s prev acc = None.
Proof.
  intros Hin Hd Hu. revert prev acc.
  induction s as [|c' s IH]; intros prev acc; simpl in *; [done|].
  destruct Hin as [->|Hin].
  - unfold is_digit in Hd. destruct (Py.digit_val c); [done|]. by rewrite Hu.
  - destruct (Py.digit_val c'); [by apply IH|].
    destruct (Ascii.eqb c' "_"); [|done]. destruct prev; [by apply IH|done].
Qed.

Lemma in_lstrip c s :
  In c (chars s) → Py.isspace c = false → In c (chars (Py.lstrip s)).
Proof.
  intros Hin Hc. induction s as [|c' s IH]; simpl in *; [done|].
  destruct (Py.isspace c') eqn:Hc'; [|done].
  destruct Hin as [->|Hin]; [congruence | by apply IH].
Qed.

Lemma in_rstrip c s :
  In c (chars s) → Py.isspace c = false → In c (chars (Py.rstrip s)).
Proof.
  intros Hin Hc. induction s as [|c' s IH]; simpl in *; [done|].
  destruct Hin as [->|Hin].
  - destruct (Py.rstrip s); [rewrite Hc|]; by left.
  - specialize (IH Hin). destruct (Py.rstrip s); [done | by right].
Qed.

Lemma int_non_numeric c s :
  In c (chars s) → numeric_char c = false → Py.int s = None.
Proof.
  unfold numeric_char. intros Hin Hc.
  repeat (apply orb_false_iff in Hc as [Hc ?]).
  assert (In c (chars (Py.strip s))) as Hin'
    by (apply in_rstrip; [apply in_lstrip|]; done).
  assert (∀ r prev acc, In c (chars r) → Py.int_digits r prev acc = None) as Hbad
    by (intros; by eapply int_digits_bad).
  unfold Py.int. destruct (Py.strip s) as [|c' r] eqn:Hr; [done|].
  destruct Hin' as [->|Hin'].
  - destruct (Ascii.eqb_spec c "-") as [->|?]; [done|].
    destruct (Ascii.eqb_spec c "+") as [->|?]; [done|].
    assert (Py.int_digits (String c r) false 0 = None) as Hn
      by (apply Hbad; by left).
    destruct c as [[] [] [] [] [] [] [] []]; try done.
  - assert (Py.int_digits (String c' r) false 0 = None) as Hn
      by (apply Hbad; by right).
    specialize (Hbad r false 0 Hin').
    destruct c' as [[] [] [] [] [] [] [] []]; try done; by rewrite Hbad.
Qed.

Lemma parse_version_reject s :
  Exists (λ seg, Py.int seg = None) (Py.split "." s) → parse_version s = [].
Proof.
  intros Hex. unfold parse_version.
  destruct (mapM Py.int (Py.split "." s)) as [parts|] eqn:Hm; [|done].
  apply mapM_Some in Hm. apply Exists_exists in Hex as (seg & Hin & Hnone).
  apply list_elem_of_lookup in Hin as [i Hi].
  destruct (Forall2_lookup_l _ _ _ i seg Hm Hi) as (z & _ & Hz). congruence.
Qed.

End IntAccepts.

(** ** Properties of the codec and of the resolver *)

(** C2.  [get_update_chain] returns the entries of the published list, in
    the order met, that parse and whose parsed value [v] satisfies
    [current < v <= target] under the comparison of integer lists; when
    [current] or [target] does not parse, the chain is empty. *)
Theorem get_update_chain_spec (current target : string) (published : list string) :
  get_update_chain current target published =
    if decide (parse_version current = [] ∨ parse_version target = []) then []
    else List.filter
           (λ v, negb (bool_decide (parse_version v = []))
                 && Py.list_lt (parse_version current) (parse_version v)
                 && Py.list_le (parse_version v) (parse_version target))
           published.
Proof.
  rewrite get_update_chain_filter.
  destruct (parse_version current) as [|x cp] eqn:Hc;
    [by rewrite decide_True by auto|].
  destruct (parse_version target) as [|y tp] eqn:Ht;
    [by rewrite decide_True by auto|].
  rewrite decide_False by (by intros [?|?]). simpl.
  apply filter_ext. intros v. unfold in_range.
  by destruct (parse_version v).
Qed.

(** C8.  Parsing a formatted version gives the version back, and [<] on
    versions is a strict total order that is decided at the first segment
    where two versions differ. *)
Theorem version_roundtrip_and_order (a b c : list Z) :
  parse_version (format_version a) = a
  ∧ Py.list_lt a a = false
  ∧ (Py.list_lt a b = true → Py.list_lt b c = true → Py.list_lt a c = true)
  ∧ (Py.list_lt a b = true ∨ a = b ∨ Py.list_lt b a = true)
  ∧ (∀ p x y s t, a = p ++ x :: s → b = p ++ y :: t → x ≠ y →
       Py.list_lt a b = (x <? y)).
Proof.
  split; [apply parse_format|].
  split; [apply list_lt_irrefl|].
  split; [apply list_lt_trans|].
  split; [apply list_lt_trichotomy|].
  intros p x y s t -> -> Hxy. by apply list_lt_first_diff.
Qed.

Lemma version_roundtrip_and_order_witness :
  parse_version (format_version [1; 2; 0]) = [1; 2; 0]
  ∧ Py.list_lt [1; 2] [1; 10] = true
  ∧ Py.list_lt [1; 2] [2] = true.
Proof.
  destruct (version_roundtrip_and_order [1; 2; 0] [1; 2; 0] []) as (H1 & _).
  destruct (version_roundtrip_and_order [1; 2] [1; 10] [2]) as (_ & _ & Ht & _ & Hd).
  split; [exact H1|].
  assert (Py.list_lt [1; 2] [1; 10] = true) as H12
    by (rewrite (Hd [1] 2 10 [] []); [reflexivity..|lia]).
  split; [exact H12|]. apply Ht; [exact H12|reflexivity].
Defined.



(** C7, as stated, fails: [int] accepts a sign, so a segment can parse to a
    negative integer. *)
Lemma parse_version_negative_segment :
  parse_version "-1.5" = [-1; 5]
  ∧ ¬ Forall (λ n, 0 ≤ n) (parse_version "-1.5").
Proof.
  assert (parse_version "-1.5" = [-1; 5]) as -> by reflexivity.
  split; [reflexivity|]. intros H. apply Forall_cons_1 in H as [H _]. lia.
Qed.

(** C7, amended.  [parse_version] splits on the dot and returns the
    integers [int] makes of the segments, which may carry a sign,
    surrounding whitespace and single underscores between digits; a segment
    of digits alone gives a non-negative integer.  A segment [int] rejects,
    in particular one that holds a character that is no digit, sign,
    underscore or whitespace, or that is empty, gives the empty list, and so
    does the empty input.  A current, target or published entry that does
    not parse takes no part in the chain. *)
Theorem parse_version_spec (s seg : string) (c : ascii)
    (current target v : string) (published : list string) :
  (∀ parts, mapM Py.int (Py.split "." s) = Some parts → parse_version s = parts)
  ∧ (Exists (λ x, Py.int x = None) (Py.split "." s) → parse_version s = [])
  ∧ (seg ≠ EmptyString → string_forallb is_digit seg = true →
     ∃ n, Py.int seg = Some n ∧ 0 ≤ n)
  ∧ (In c (chars seg) → numeric_char c = false → Py.int seg = None)
  ∧ Py.int EmptyString = None
  ∧ parse_version EmptyString = []
  ∧ (parse_version current = [] ∨ parse_version target = [] →
     get_update_chain current target published = [])
  ∧ (In v (get_update_chain current target published) →
     parse_version v ≠ [] ∧ parse_version current ≠ []
     ∧ parse_version target ≠ [] ∧ In v published).
Proof.
  split; [intros parts Hp; unfold parse_version; by rewrite Hp|].
  split; [apply parse_version_reject|].
  split; [apply int_all_digits|].
  split; [apply int_non_numeric|].
  split; [reflexivity|]. split; [reflexivity|].
  rewrite get_update_chain_filter. split.
  - intros [-> | ->]; [done|]. by rewrite andb_false_r.
  - destruct (parse_version current), (parse_version target); simpl; try done.
    intros [Hin Hv]%filter_In. apply andb_true_iff in Hv as [Hv _].
    repeat split; try done. by destruct (parse_version v).
Qed.

Lemma parse_version_spec_witness :
  parse_version "1.x" = []
  ∧ (∃ n, Py.int "12" = Some n ∧ 0 ≤ n)
  ∧ get_update_chain "abc" "1.2" ["1.1"] = []
  ∧ parse_version "1.1" ≠ [].
Proof.
  destruct (parse_version_spec "1.x" "12" "x" "abc" "1.2" "1.1" ["1.1"])
    as (_ & H1 & H2 & _ & _ & _ & H3 & _).
  destruct (parse_version_spec "1.x" "12" "x" "1.0" "1.2" "1.1" ["1.1"])
    as (_ & _ & _ & _ & _ & _ & _ & H4).
  split; [apply H1; apply Exists_cons_tl, Exists_cons_hd; reflexivity|].
  split; [apply H2; [discriminate|reflexivity]|].
  split; [apply H3; left; reflexivity|].
  apply H4. left. reflexivity.
Defined.

(** ** Reasoning about computations *)

Section Computations.

Lemma bind_run {A B} (m : M A) (f : A → M B) (w : world) :
  (m ≫= f) w = match m w with
               | (Ret a, w') => f a w'
               | (Raise, w') => (Raise, w')
               end.
Proof. reflexivity. Qed.

Lemma get_world_bind {B} (f : world → M B) (w : world) :
  (get_world ≫= f) w = f w w.
Proof. reflexivity. Qed.

Lemma bind_ret_run {A B} (m : M A) (f : A → M B) w a w' :
  m w = (Ret a, w') → (m ≫= f) w = f a w'.
Proof. intros H. by rewrite bind_run, H. Qed.

Lemma bind_raise_run {A B} (m : M A) (f : A → M B) w w' :
  m w = (Raise, w') → (m ≫= f) w = (Raise, w').
Proof. intros H. by rewrite bind_run, H. Qed.

Context (I : world → Prop).

Lemma preserves_ret {A} (a : A) : preserves I (mret a).
Proof. by intros w. Qed.

Lemma preserves_raise {A} : preserves I (@raise A).
Proof. by intros w. Qed.

Lemma preserves_get_world : preserves I get_world.
Proof. by intros w. Qed.

Lemma preserves_bind {A B} (m : M A) (f : A → M B) :
  preserves I m → (∀ a, preserves I (f a)) → preserves I (m ≫= f).
Proof.
  intros Hm Hf w Hw. rewrite bind_run. specialize (Hm w Hw).
  destruct (m w) as [[a|] w']; simpl in *; [by apply Hf | done].
Qed.

Lemma preserves_try_except {A} (m h : M A) :
  preserves I m → preserves I h → preserves I (try_except m h).
Proof.
  intros Hm Hh w Hw. unfold try_except. specialize (Hm w Hw).
  destruct (m w) as [[a|] w']; simpl in *; [done | by apply Hh].
Qed.

Lemma preserves_try_finally {A} (m : M A) (c : M unit) :
  preserves I m → preserves I c → preserves I (try_finally m c).
Proof.
  intros Hm Hc w Hw. unfold try_finally. specialize (Hm w Hw).
  destruct (m w) as [r w']; simpl in *. specialize (Hc w' Hm).
  by destruct (c w') as [[[]|] w''].
Qed.

Lemma preserves_for_each {A} (body : A → M unit) (l : list A) :
  (∀ x, preserves I (body x)) → preserves I (for_each body l).
Proof.
  intros Hb. induction l as [|x l IH]; simpl.
  - apply preserves_ret.
  - apply preserves_bind; [apply Hb | by intros _].
Qed.

Lemma preserves_if {A} (b : bool) (m1 m2 : M A) :
  preserves I m1 → preserves I m2 → preserves I (if b then m1 else m2).
Proof. by destruct b. Qed.

End Computations.

Lemma total_ret {A} (a : A) : total (mret a).
Proof. intros w. by exists a. Qed.

Lemma total_bind {A B} (m : M A) (f : A → M B) :
  total m → (∀ a, total (f a)) → total (m ≫= f).
Proof.
  intros Hm Hf w. rewrite bind_run. destruct (Hm w) as [a Ha].
  destruct (m w) as [[a'|] w']; simpl in *; [apply Hf | done].
Qed.

Lemma total_try_except {A} (m h : M A) : total h → total (try_except m h).
Proof.
  intros Hh w. unfold try_except.
  destruct (m w) as [[a|] w']; simpl; [by exists a | apply Hh].
Qed.

Lemma total_for_each {A} (body : A → M unit) (l : list A) :
  (∀ x, total (body x)) → total (for_each body l).
Proof.
  intros Hb. induction l as [|x l IH]; simpl.
  - apply total_ret.
  - apply total_bind; [apply Hb | by intros _].
Qed.

Lemma total_if {A} (b : bool) (m1 m2 : M A) :
  total m1 → total m2 → total (if b then m1 else m2).
Proof. by destruct b. Qed.

Lemma total_try_finally {A} (m : M A) (c : M unit) :
  total m → total c → total (try_finally m c).
Proof.
  intros Hm Hc w. unfold try_finally. destruct (Hm w) as [a Ha].
  destruct (m w) as [r w']. simpl in Ha. subst r.
  destruct (Hc w') as [[] Hu]. destruct (c w') as [r w'']. simpl in Hu.
  subst r. by exists a.
Qed.

Lemma total_run {A} (m : M A) (w : world) :
  total m → ∃ a w', m w = (Ret a, w').
Proof.
  intros Hm. destruct (Hm w) as [a Ha].
  destruct (m w) as [r w'] eqn:Hw. simpl in Ha. subst. eauto.
Qed.

(** Induction on the trees of the work area. *)
Lemma pnode_induct (P : pnode → Prop) :
  (∀ name content, P (PFile name content)) →
  (∀ name entries, Forall P entries → P (PDir name entries)) →
  ∀ n, P n.
Proof.
  intros Hf Hd. fix IH 1. intros [name content|name entries].
  - apply Hf.
  - apply Hd. induction entries as [|n entries IHe]; constructor; [apply IH | apply IHe].
Qed.

(** Break a computation into its parts, for a property kept by each. *)
Ltac pres_step leaf :=
  first
    [ leaf
    | apply preserves_ret | apply preserves_raise | apply preserves_get_world
    | apply preserves_bind; [|intros ?]
    | apply preserves_try_except
    | apply preserves_try_finally
    | apply preserves_for_each; intros ?
    | case_match ].
Ltac pres leaf := repeat (pres_step leaf).

(** Properties that every step other than [emit] and the failure of the
    restore keeps: they hold of the trace, and of the warnings other than
    that of a failed restore. *)
Section Frame.

Context (E : env) (I : world → Prop).
Context (I_inst : ∀ f, preserves I (set_inst f)).
Context (I_temp : ∀ s, preserves I (set_temp s)).
Context (I_tick : preserves I tick).
Context (I_warn : ∀ x, x ≠ WRestoreFailed → preserves I (add_warning x)).

Local Abbreviation framed m := (preserves I m).

Ltac frame_leaf :=
  first [ apply I_inst | apply I_temp | apply I_tick
        | by apply I_warn | eassumption ].

Lemma frame_check op : framed (check E op).
Proof. unfold check. pres frame_leaf. Qed.

Lemma frame_os_remove p : framed (os_remove E p).
Proof. unfold os_remove. pres ltac:(first [apply frame_check | frame_leaf]). Qed.

Lemma frame_rmtree p : framed (rmtree E p).
Proof. unfold rmtree. pres ltac:(first [apply frame_check | frame_leaf]). Qed.

Lemma frame_os_mkdir p : framed (os_mkdir E p).
Proof. unfold os_mkdir. pres ltac:(first [apply frame_check | frame_leaf]). Qed.

Lemma frame_makedirs_from base rest : framed (makedirs_from E base rest).
Proof.
  revert base. induction rest as [|x rest IH]; intros base; simpl.
  - apply preserves_raise.
  - destruct rest as [|y rest]; [apply frame_os_mkdir|].
    pres ltac:(first [apply frame_os_mkdir | apply IH | frame_leaf]).
Qed.

Lemma frame_write_file p s : framed (write_file E p s).
Proof. unfold write_file. pres ltac:(first [apply frame_check | frame_leaf]). Qed.

Lemma frame_copy2 src name content dst : framed (copy2 E src name content dst).
Proof.
  unfold copy2.
  pres ltac:(first [apply frame_check | apply frame_write_file | frame_leaf]).
Qed.

Lemma frame_get_local_version : framed (get_local_version E).
Proof. unfold get_local_version. pres ltac:(first [apply frame_check | frame_leaf]). Qed.

Lemma frame_stage : framed (stage E).
Proof. unfold stage. pres ltac:(first [apply frame_check | frame_leaf]). Qed.

Lemma frame_extract update_file : framed (extract E update_file).
Proof. unfold extract. pres ltac:(first [apply frame_check | frame_leaf]). Qed.

Lemma frame_delete_line line : framed (delete_line E line).
Proof.
  unfold delete_line.
  pres ltac:(first [apply frame_rmtree | apply frame_os_remove | frame_leaf]).
Qed.

Lemma frame_cleanse : framed (cleanse E).
Proof.
  unfold cleanse.
  pres ltac:(first [apply frame_check | apply frame_delete_line | frame_leaf]).
Qed.

Lemma frame_copy_file rel file : framed (copy_file E rel file).
Proof. unfold copy_file. pres ltac:(first [apply frame_copy2 | frame_leaf]). Qed.

Lemma frame_visit rel entries : framed (visit E rel entries).
Proof.
  unfold visit, os_makedirs.
  pres ltac:(first [apply frame_makedirs_from | apply frame_copy_file | frame_leaf]).
Qed.

Lemma frame_walk_entry rel n : framed (walk_entry E rel n).
Proof.
  revert rel. induction n as [name content|name entries IH] using pnode_induct;
    intros rel; simpl.
  - apply preserves_ret.
  - apply preserves_bind; [apply frame_visit|intros _].
    induction IH as [|n entries Hn _ IHe]; simpl; [apply preserves_ret|].
    apply preserves_bind; [apply Hn | by intros _].
Qed.

Lemma frame_walk : framed (walk E).
Proof.
  unfold walk.
  pres ltac:(first [apply frame_visit | apply frame_walk_entry | frame_leaf]).
Qed.

Lemma frame_cleanup_temp : framed (cleanup_temp E).
Proof. unfold cleanup_temp. pres ltac:(first [apply frame_check | frame_leaf]). Qed.

Lemma frame_cleanup_stale p : framed (cleanup_stale E p).
Proof. unfold cleanup_stale. pres ltac:(first [apply frame_os_remove | frame_leaf]). Qed.

Lemma frame_cleanup_update_package p : framed (cleanup_update_package E p).
Proof.
  unfold cleanup_update_package.
  pres ltac:(first [apply frame_os_remove | frame_leaf]).
Qed.

Lemma frame_check_disk_space n : framed (check_disk_space E n).
Proof. unfold check_disk_space. pres frame_leaf. Qed.

Lemma frame_write_chunk p chunk : framed (write_chunk E p chunk).
Proof. unfold write_chunk. pres ltac:(first [apply frame_check | frame_leaf]). Qed.

Lemma frame_download_update version : framed (download_update E version).
Proof.
  unfold download_update.
  pres ltac:(first [ apply frame_cleanup_stale | apply frame_check_disk_space
                   | apply frame_write_chunk | apply frame_check
                   | frame_leaf ]).
Qed.

End Frame.

(** The steps that leave the trace alone. *)
Section Silent.

Context (E : env) (t : list event).

Local Abbreviation silent m := (preserves (λ w, trace w = t) m).

Ltac silent_by lem := apply lem; repeat intro; assumption.

Lemma silent_check op : silent (check E op).
Proof. silent_by frame_check. Qed.

Lemma silent_os_remove p : silent (os_remove E p).
Proof. silent_by frame_os_remove. Qed.

Lemma silent_rmtree p : silent (rmtree E p).
Proof. silent_by frame_rmtree. Qed.

Lemma silent_os_mkdir p : silent (os_mkdir E p).
Proof. silent_by frame_os_mkdir. Qed.

Lemma silent_makedirs_from base rest : silent (makedirs_from E base rest).
Proof. silent_by frame_makedirs_from. Qed.

Lemma silent_write_file p s : silent (write_file E p s).
Proof. silent_by frame_write_file. Qed.

Lemma silent_copy2 src name content dst : silent (copy2 E src name content dst).
Proof. silent_by frame_copy2. Qed.

Lemma silent_get_local_version : silent (get_local_version E).
Proof. silent_by frame_get_local_version. Qed.

Lemma silent_stage : silent (stage E).
Proof. silent_by frame_stage. Qed.

Lemma silent_extract update_file : silent (extract E update_file).
Proof. silent_by frame_extract. Qed.

Lemma silent_delete_line line : silent (delete_line E line).
Proof. silent_by frame_delete_line. Qed.

Lemma silent_cleanse : silent (cleanse E).
Proof. silent_by frame_cleanse. Qed.

Lemma silent_copy_file rel file : silent (copy_file E rel file).
Proof. silent_by frame_copy_file. Qed.

Lemma silent_visit rel entries : silent (visit E rel entries).
Proof. silent_by frame_visit. Qed.

Lemma silent_walk_entry rel n : silent (walk_entry E rel n).
Proof. silent_by frame_walk_entry. Qed.

Lemma silent_walk : silent (walk E).
Proof. silent_by frame_walk. Qed.

Lemma silent_cleanup_temp : silent (cleanup_temp E).
Proof. silent_by frame_cleanup_temp. Qed.

Lemma silent_cleanup_stale p : silent (cleanup_stale E p).
Proof. silent_by frame_cleanup_stale. Qed.

Lemma silent_cleanup_update_package p : silent (cleanup_update_package E p).
Proof. silent_by frame_cleanup_update_package. Qed.

Lemma silent_check_disk_space n : silent (check_disk_space E n).
Proof. silent_by frame_check_disk_space. Qed.

Lemma silent_write_chunk p chunk : silent (write_chunk E p chunk).
Proof. silent_by frame_write_chunk. Qed.

Lemma silent_download_update version : silent (download_update E version).
Proof. silent_by frame_download_update. Qed.

End Silent.

(** ** The trace of one application *)

Section ApplyTrace.

Context (E : env).

Lemma run_bind_inv {A B} (m : M A) (f : A → M B) w r w' :
  (m ≫= f) w = (r, w') →
  (m w = (Raise, w') ∧ r = Raise)
  ∨ ∃ a w1, m w = (Ret a, w1) ∧ f a w1 = (r, w').
Proof.
  rewrite bind_run. destruct (m w) as [[a|] w1]; [by eauto|].
  intros [= <- <-]. by left.
Qed.

Lemma silent_run {A} (m : M A) w r w' :
  (∀ t, preserves (λ w, trace w = t) m) → m w = (r, w') → trace w' = trace w.
Proof. intros Hm Hw. specialize (Hm (trace w) w eq_refl). by rewrite Hw in Hm. Qed.

Lemma get_local_version_total : total (get_local_version E).
Proof.
  intros w. unfold get_local_version. rewrite bind_run. simpl.
  destruct (inst w !! LOCAL_VERSION_FILE) as [[content|]|]; simpl; eauto.
  unfold try_except.
  destruct ((check E (OpRead LOCAL_VERSION_FILE) ;; mret (Some (Py.strip content))) w)
    as [[a|] w']; simpl; eauto.
Qed.

Lemma cleanup_temp_total : total (cleanup_temp E).
Proof.
  intros w. unfold cleanup_temp. rewrite bind_run. simpl.
  destruct (temp w); simpl; eauto. unfold try_except.
  destruct ((check E (OpRmtree TEMP_DIR) ;; set_temp TempAbsent) w)
    as [[[]|] w']; simpl; eauto.
Qed.

Lemma restore_total backup : total (restore E backup).
Proof. unfold restore. apply total_try_except. intros w. by exists tt. Qed.

(** The steps up to the end of the walk add [EvWalkDone] when they
    finish, and nothing when they do not. *)
Lemma install_trace update_file w r w' :
  install E update_file w = (r, w') →
  trace w' = trace w ++ match r with Ret _ => [EvWalkDone] | Raise => [] end.
Proof.
  unfold install. intros H.
  apply run_bind_inv in H as [[H ->]|(? & w1 & H1 & H)].
  { rewrite app_nil_r. eapply silent_run; [|exact H]. intros; apply silent_stage. }
  apply (silent_run _ _ _ _ (λ t, silent_stage E t)) in H1.
  apply run_bind_inv in H as [[H ->]|(? & w2 & H2 & H)].
  { rewrite app_nil_r, <- H1. eapply silent_run; [|exact H].
    intros; apply silent_extract. }
  apply (silent_run _ _ _ _ (λ t, silent_extract E t _)) in H2.
  apply run_bind_inv in H as [[H ->]|(? & w3 & H3 & H)].
  { rewrite app_nil_r, <- H1, <- H2. eapply silent_run; [|exact H].
    intros; apply silent_cleanse. }
  apply (silent_run _ _ _ _ (λ t, silent_cleanse E t)) in H3.
  apply run_bind_inv in H as [[H ->]|(? & w4 & H4 & H)].
  { rewrite app_nil_r, <- H1, <- H2, <- H3. eapply silent_run; [|exact H].
    intros; apply silent_walk. }
  apply (silent_run _ _ _ _ (λ t, silent_walk E t)) in H4.
  injection H as <- <-. simpl. congruence.
Qed.

(** The events the [except] clause adds. *)
Lemma restore_trace backup w r w' :
  restore E backup w = (r, w') →
  trace w' = trace w
  ∨ ∃ b, backup = Some b ∧ str_truthy b = true
         ∧ trace w' = trace w ++ [EvRestore b].
Proof.
  unfold restore, try_except. destruct backup as [b|]; [|intros [= <- <-]; by left].
  destruct (str_truthy b) eqn:Hb; [|intros [= <- <-]; by left].
  unfold restore_write. rewrite bind_run. simpl.
  match goal with |- context [write_file E ?p ?s ?w0] =>
    pose proof (silent_run (write_file E p s) w0) as Hs;
    destruct (write_file E p s w0) as [[[]|] w1] eqn:Hw end.
  - intros [= <- <-]. right. exists b. repeat split; [done|].
    erewrite Hs; [done| |done]. intros; apply silent_write_file.
  - intros [= <- <-]. right. exists b. repeat split; [done|]. simpl.
    erewrite Hs; [done| |done]. intros; apply silent_write_file.
Qed.

End ApplyTrace.

Section ApplyShape.

Context (E : env).

Lemma commit_trace target w r w' :
  commit E target w = (r, w') → trace w' = trace w ++ [EvCommit target].
Proof.
  unfold commit. rewrite bind_run. simpl. intros H.
  eapply silent_run in H; [|intros; apply silent_write_file]. done.
Qed.

(** The four courses an application can take, with the events of each. *)
Lemma apply_update_cases update_file target w backup w0 r w' :
  get_local_version E w = (Ret backup, w0) →
  apply_update E update_file target w = (r, w') →
  ∃ evs, trace w' = trace w ++ evs ∧
    ((∃ w1 w2, install E update_file w0 = (Raise, w1)
        ∧ restore E backup w1 = (Ret tt, w2)
        ∧ cleanup_temp E w2 = (Ret tt, w')
        ∧ r = Ret false
        ∧ (evs = [] ∨ ∃ b, backup = Some b ∧ str_truthy b = true
                           ∧ evs = [EvRestore b]))
     ∨ (∃ w1 w2, install E update_file w0 = (Ret tt, w1)
        ∧ commit E target w1 = (Ret tt, w2)
        ∧ cleanup_temp E w2 = (Ret tt, w')
        ∧ r = Ret true
        ∧ evs = [EvWalkDone; EvCommit target])
     ∨ (∃ w1 w2 w3, install E update_file w0 = (Ret tt, w1)
        ∧ commit E target w1 = (Raise, w2)
        ∧ restore E backup w2 = (Ret tt, w3)
        ∧ cleanup_temp E w3 = (Ret tt, w')
        ∧ r = Ret false
        ∧ (evs = [EvWalkDone; EvCommit target]
           ∨ ∃ b, backup = Some b ∧ str_truthy b = true
                  ∧ evs = [EvWalkDone; EvCommit target; EvRestore b]))).
Proof.
  intros Hglv. unfold apply_update. rewrite (bind_ret_run _ _ _ _ _ Hglv).
  assert (trace w0 = trace w) as Ht0
    by (eapply silent_run; [|exact Hglv]; intros; apply silent_get_local_version).
  assert (∀ w1, (install E update_file ;; commit E target ;; mret true) w1
            = match install E update_file w1 with
              | (Ret _, w2) =>
                  match commit E target w2 with
                  | (Ret _, w3) => (Ret true, w3)
                  | (Raise, w3) => (Raise, w3)
                  end
              | (Raise, w2) => (Raise, w2)
              end) as Hbody.
  { intros w1. rewrite bind_run. destruct (install E update_file w1) as [[[]|] w2]; [|done].
    rewrite bind_run. by destruct (commit E target w2) as [[[]|] w3]. }
  assert (∀ w1, (restore E backup ;; mret false) w1
            = (Ret false, (restore E backup w1).2)) as Hhandler.
  { intros w1. rewrite bind_run.
    destruct (total_run (restore E backup) w1 (restore_total E backup)) as ([] & w2 & Hr).
    by rewrite Hr. }
  unfold try_finally, try_except. rewrite Hbody.
  destruct (install E update_file w0) as [[[]|] w1] eqn:Hi.
  - pose proof (install_trace _ _ _ _ _ Hi) as Ht1. simpl in Ht1.
    destruct (commit E target w1) as [[[]|] w2] eqn:Hc.
    + pose proof (commit_trace _ _ _ _ Hc) as Ht2. simpl.
      destruct (total_run (cleanup_temp E) w2 (cleanup_temp_total E)) as ([] & w3 & Hcl).
      rewrite Hcl. intros [= <- <-].
      exists [EvWalkDone; EvCommit target]. split.
      { erewrite silent_run; [|intros; apply silent_cleanup_temp|exact Hcl].
        rewrite Ht2, Ht1, Ht0, <- app_assoc. done. }
      right; left. by exists w1, w2.
    + pose proof (commit_trace _ _ _ _ Hc) as Ht2.
      destruct (total_run (restore E backup) w2 (restore_total E backup)) as ([] & w3 & Hr).
      rewrite Hhandler, Hr. simpl.
      destruct (total_run (cleanup_temp E) w3 (cleanup_temp_total E)) as ([] & w4 & Hcl).
      rewrite Hcl. intros [= <- <-].
      assert (trace w4 = trace w3) as Ht4
        by (eapply silent_run; [|exact Hcl]; intros; apply silent_cleanup_temp).
      destruct (restore_trace _ _ _ _ _ Hr) as [Ht3|(b & -> & Hb & Ht3)].
      * exists [EvWalkDone; EvCommit target]. split.
        { rewrite Ht4, Ht3, Ht2, Ht1, Ht0, <- app_assoc. done. }
        right; right. exists w1, w2, w3. repeat split; auto.
      * exists [EvWalkDone; EvCommit target; EvRestore b]. split.
        { rewrite Ht4, Ht3, Ht2, Ht1, Ht0, <- !app_assoc. done. }
        right; right. exists w1, w2, w3. repeat split; eauto 6.
  - pose proof (install_trace _ _ _ _ _ Hi) as Ht1. simpl in Ht1.
    rewrite app_nil_r in Ht1.
    destruct (total_run (restore E backup) w1 (restore_total E backup)) as ([] & w2 & Hr).
    rewrite Hhandler, Hr. simpl.
    destruct (total_run (cleanup_temp E) w2 (cleanup_temp_total E)) as ([] & w3 & Hcl).
    rewrite Hcl. intros [= <- <-].
    assert (trace w3 = trace w2) as Ht3
      by (eapply silent_run; [|exact Hcl]; intros; apply silent_cleanup_temp).
    destruct (restore_trace _ _ _ _ _ Hr) as [Ht2|(b & -> & Hb & Ht2)].
    + exists []. split; [rewrite app_nil_r; congruence|].
      left. exists w1, w2. repeat split; auto.
    + exists [EvRestore b]. split; [congruence|].
      left. exists w1, w2. repeat split; eauto 6.
Qed.

End ApplyShape.

(** ** What the primitive calls do to the world *)

Section Primitives.

Context (E : env).

Lemma check_run op w :
  check E op w =
    (if denied E (clock w) op then Raise else Ret tt,
     World (inst w) (temp w) (S (clock w)) (UPDATE_WARNINGS w) (trace w)).
Proof. unfold check. rewrite bind_run. simpl. by destruct (denied E (clock w) op). Qed.

Lemma check_inst op w : inst (check E op w).2 = inst w.
Proof. by rewrite check_run. Qed.

(** The three ways a write can go. *)
Lemma write_file_run (p : path) s w :
  write_file E p s w =
    if is_dir (inst w) (parent p) && negb (is_dir (inst w) p) then
      if denied E (clock w) (OpOpenW p) then
        (Raise, World (inst w) (temp w) (S (clock w)) (UPDATE_WARNINGS w)
                      (trace w))
      else if denied E (S (clock w)) (OpWrite p) then
        (Raise, World (<[p := File EmptyString]> (inst w)) (temp w)
                      (S (S (clock w))) (UPDATE_WARNINGS w) (trace w))
      else
        (Ret tt, World (<[p := File s]> (inst w)) (temp w)
                       (S (S (clock w))) (UPDATE_WARNINGS w) (trace w))
    else (Raise, w).
Proof.
  unfold write_file. rewrite get_world_bind.
  destruct (is_dir (inst w) (parent p) && negb (is_dir (inst w) p)); [|done].
  rewrite bind_run, check_run. destruct (denied E (clock w) (OpOpenW p)); [done|].
  rewrite bind_run. unfold set_inst at 1. cbn [inst temp clock UPDATE_WARNINGS trace].
  rewrite bind_run, check_run. cbn [inst temp clock UPDATE_WARNINGS trace].
  destruct (denied E (S (clock w)) (OpWrite p)); [done|].
  unfold set_inst. cbn [inst temp clock UPDATE_WARNINGS trace].
  by rewrite insert_insert_eq.
Qed.

(** A write that goes through leaves the file with the content written. *)
Lemma write_file_ok p s w w' :
  write_file E p s w = (Ret tt, w') → inst w' = <[p := File s]> (inst w).
Proof.
  unfold write_file. rewrite bind_run. simpl.
  destruct (is_dir (inst w) (parent p) && negb (is_dir (inst w) p)); [|done].
  rewrite bind_run, check_run. destruct (denied E (clock w) (OpOpenW p)); [done|].
  rewrite bind_run. simpl. rewrite bind_run, check_run. simpl.
  destruct (denied E (S (clock w)) (OpWrite p)); [done|].
  simpl. intros [= <-]. simpl. by rewrite insert_insert_eq.
Qed.

Lemma cleanup_temp_inst m : preserves (λ w, inst w = m) (cleanup_temp E).
Proof.
  unfold cleanup_temp.
  pres ltac:(first [ by intros w | intros w Hw; by rewrite check_inst ]).
Qed.

Lemma get_local_version_file w content :
  inst w !! LOCAL_VERSION_FILE = Some (File content) →
  denied E (clock w) (OpRead LOCAL_VERSION_FILE) = false →
  (get_local_version E w).1 = Ret (Some (Py.strip content)).
Proof.
  intros Hm Hd. unfold get_local_version. rewrite bind_run. simpl. rewrite Hm.
  unfold try_except. by rewrite bind_run, check_run, Hd.
Qed.

(** The snapshot is a stripped string. *)
Lemma get_local_version_stripped w b w0 :
  get_local_version E w = (Ret (Some b), w0) → Py.strip b = b.
Proof.
  unfold get_local_version. rewrite bind_run. simpl.
  destruct (inst w !! LOCAL_VERSION_FILE) as [[content|]|]; simpl; try done.
  unfold try_except. rewrite bind_run, check_run.
  destruct (denied E (clock w) (OpRead LOCAL_VERSION_FILE)); simpl; [done|].
  intros [= <- _]. apply strip_idemp.
Qed.

End Primitives.

(** ** The handlers of the per-file operations *)

Section Handlers.

Context (E : env).

Lemma add_warning_total x : total (add_warning x).
Proof. intros w. by exists tt. Qed.

Lemma delete_line_total line : total (delete_line E line).
Proof.
  unfold delete_line. apply total_if; [|apply total_ret].
  destruct (resolve (Py.strip line)) as [full_path|]; [|apply total_ret].
  intros w. rewrite bind_run. simpl.
  destruct (path_exists (inst w) full_path); [|by exists tt].
  apply total_try_except, add_warning_total.
Qed.

Lemma copy_file_total rel file : total (copy_file E rel file).
Proof. apply total_try_except, add_warning_total. Qed.

Lemma cleanup_stale_total p : total (cleanup_stale E p).
Proof.
  intros w. unfold cleanup_stale. rewrite bind_run. simpl.
  destruct (path_exists (inst w) p); [|by exists tt].
  apply total_try_except, add_warning_total.
Qed.

Lemma cleanup_update_package_total p : total (cleanup_update_package E p).
Proof.
  intros w. unfold cleanup_update_package. rewrite bind_run. simpl.
  destruct (path_exists (inst w) p); [|by exists tt].
  apply total_try_except, add_warning_total.
Qed.

(** What [os.remove] does to the install root. *)
Lemma os_remove_run p w :
  (∃ w', os_remove E p w = (Ret tt, w') ∧ inst w' = delete p (inst w)
         ∧ UPDATE_WARNINGS w' = UPDATE_WARNINGS w)
  ∨ (∃ w', os_remove E p w = (Raise, w') ∧ inst w' = inst w
           ∧ UPDATE_WARNINGS w' = UPDATE_WARNINGS w).
Proof.
  unfold os_remove. rewrite bind_run. simpl.
  destruct (inst w !! p) as [[c|]|]; try (right; by eexists).
  rewrite bind_run, check_run.
  destruct (denied E (clock w) (OpRemove p)); [right|left]; by eexists.
Qed.

(** Removing a file under a handler: the file goes, or a warning is added
    and the install root stays as it is. *)
Lemma guarded_remove_run p x w :
  ∃ w', try_except (os_remove E p) (add_warning x) w = (Ret tt, w')
    ∧ ((inst w' = delete p (inst w) ∧ UPDATE_WARNINGS w' = UPDATE_WARNINGS w)
       ∨ (inst w' = inst w ∧ UPDATE_WARNINGS w' = UPDATE_WARNINGS w ++ [x])).
Proof.
  unfold try_except.
  destruct (os_remove_run p w) as [(w' & -> & Hi & Hw)|(w' & -> & Hi & Hw)].
  - exists w'. auto.
  - eexists. split; [done|]. right. simpl. by rewrite Hi, Hw.
Qed.

Lemma cleanup_stale_run p w :
  ∃ w', cleanup_stale E p w = (Ret tt, w')
    ∧ trace w' = trace w
    ∧ (inst w' = inst w ∨ inst w' = delete p (inst w)).
Proof.
  destruct (total_run _ w (cleanup_stale_total p)) as ([] & w' & Hw).
  exists w'. split; [done|]. split.
  { eapply silent_run; [|exact Hw]. intros; apply silent_cleanup_stale. }
  revert Hw. unfold cleanup_stale. rewrite bind_run. simpl.
  destruct (path_exists (inst w) p); [|intros [= <-]; by left].
  destruct (guarded_remove_run p WStaleCleanup w) as (w1 & -> & [[Hi _]|[Hi _]]);
    intros [= <-]; auto.
Qed.

End Handlers.

(** ** A run in which every copy fails *)

Section AllCopiesFail.

Context (E : env).

Context (Hden : reads_of_work_area_fail E).

Lemma copy_file_fails file w :
  copy_file E [] file w =
    (Ret tt, World (inst w) (temp w) (S (clock w))
               (UPDATE_WARNINGS w ++ [WCopyFailed [] file.1]) (trace w)).
Proof.
  unfold copy_file, try_except, copy2. rewrite bind_run. simpl.
  rewrite bind_run, check_run, Hden.
  rewrite bool_decide_true; [done|]. by exists [file.1].
Qed.

Lemma copy_loop_fails files w :
  for_each (copy_file E []) files w =
    (Ret tt, World (inst w) (temp w) (length files + clock w)
               (UPDATE_WARNINGS w ++ map (λ f, WCopyFailed [] f.1) files)
               (trace w)).
Proof.
  revert w. induction files as [|f files IH]; intros w; simpl.
  - rewrite app_nil_r. by destruct w.
  - rewrite bind_run, copy_file_fails, IH. simpl.
    rewrite <- app_assoc. simpl. do 2 f_equal. lia.
Qed.

Lemma walk_entries_files rel entries w :
  only_files entries → for_each (walk_entry E rel) entries w = (Ret tt, w).
Proof.
  intros Hf. induction Hf as [|n entries Hn _ IH]; simpl; [done|].
  rewrite bind_run. destruct n; [|done]. simpl. apply IH.
Qed.

Lemma walk_all_fail entries w :
  temp w = TempDir entries → only_files entries →
  existsb (λ f, String.eqb f.1 (DELETE_LIST_FILE E)) (files_of entries) = false →
  walk E w =
    (Ret tt, World (inst w) (temp w) (length (files_of entries) + clock w)
               (UPDATE_WARNINGS w
                ++ map (λ f, WCopyFailed [] f.1) (files_of entries))
               (trace w)).
Proof.
  intros Ht Hf Hdl. unfold walk. rewrite bind_run. simpl. rewrite Ht.
  rewrite bind_run. unfold visit. rewrite Hdl. rewrite bind_run. simpl.
  rewrite bind_run. simpl. rewrite copy_loop_fails.
  rewrite walk_entries_files by done. by rewrite Ht.
Qed.

Lemma find_entry_files entries name :
  only_files entries →
  existsb (λ f, String.eqb f.1 name) (files_of entries) = false →
  find_entry name entries = None.
Proof.
  intros Hf. induction Hf as [|n entries Hn _ IH]; simpl; [done|].
  destruct n as [name' c|]; [|done]. simpl.
  destruct (String.eqb name' name); [done|]. apply IH.
Qed.

(** Reading the marker changes the clock only. *)
Lemma get_local_version_frame w :
  ∃ backup w0, get_local_version E w = (Ret backup, w0)
    ∧ inst w0 = inst w ∧ temp w0 = temp w
    ∧ UPDATE_WARNINGS w0 = UPDATE_WARNINGS w ∧ trace w0 = trace w.
Proof.
  unfold get_local_version. rewrite bind_run. simpl.
  destruct (inst w !! LOCAL_VERSION_FILE) as [[content|]|];
    try (eexists _, _; by split).
  unfold try_except. rewrite bind_run, check_run.
  destruct (denied E (clock w) (OpRead LOCAL_VERSION_FILE));
    eexists _, _; by split.
Qed.

Lemma stage_absent w :
  temp w = TempAbsent →
  stage E w = (Ret tt, World (inst w) (TempDir []) (S (clock w))
                         (UPDATE_WARNINGS w) (trace w)).
Proof.
  intros Ht. unfold stage. rewrite get_world_bind, Ht.
  rewrite bind_run. simpl. rewrite bind_run, check_run, Hden. done.
Qed.

Lemma extract_ok update_file content a w :
  ¬ TEMP_DIR `prefix_of` update_file →
  inst w !! update_file = Some (File content) →
  unzip E content = Some a → complete a = true →
  extract E update_file w =
    (Ret tt, World (inst w) (TempDir (members a)) (S (clock w))
               (UPDATE_WARNINGS w) (trace w)).
Proof.
  intros Hu Hpkg Hzip Hc. unfold extract. rewrite get_world_bind, Hpkg.
  rewrite bind_run, check_run, Hden. rewrite bool_decide_false by done.
  rewrite Hzip. rewrite bind_run. simpl. by rewrite Hc.
Qed.

Lemma cleanse_no_list entries w :
  temp w = TempDir entries →
  find_entry (DELETE_LIST_FILE E) entries = None →
  cleanse E w = (Ret tt, w).
Proof.
  intros Ht Hfind. unfold cleanse. by rewrite get_world_bind, Ht, Hfind.
Qed.

Lemma commit_ok target w :
  inst w !! ["SCRIPTS"] = Some Dir →
  inst w !! LOCAL_VERSION_FILE ≠ Some Dir →
  commit E target w =
    (Ret tt, World (<[LOCAL_VERSION_FILE := File target]> (inst w)) (temp w)
               (S (S (clock w))) (UPDATE_WARNINGS w)
               (trace w ++ [EvCommit target])).
Proof.
  intros Hs Hm. unfold commit. rewrite bind_run. simpl.
  rewrite write_file_run. cbn [inst temp clock UPDATE_WARNINGS trace].
  change (parent LOCAL_VERSION_FILE) with ["SCRIPTS"].
  unfold is_dir, LOCAL_VERSION_FILE in *. rewrite Hs, !Hden.
  by destruct (inst w !! ["SCRIPTS"; "LOC_VER.txt"]) as [[]|].
Qed.

Lemma cleanup_temp_ok entries w :
  temp w = TempDir entries →
  cleanup_temp E w =
    (Ret tt, World (inst w) TempAbsent (S (clock w)) (UPDATE_WARNINGS w)
               (trace w)).
Proof.
  intros Ht. unfold cleanup_temp. rewrite get_world_bind, Ht.
  unfold try_except. by rewrite bind_run, check_run, Hden.
Qed.

Lemma apply_update_all_copies_fail update_file target content entries w :
  ¬ TEMP_DIR `prefix_of` update_file →
  inst w !! update_file = Some (File content) →
  unzip E content = Some (Archive entries true) →
  only_files entries →
  existsb (λ f, String.eqb f.1 (DELETE_LIST_FILE E)) (files_of entries) = false →
  temp w = TempAbsent →
  inst w !! ["SCRIPTS"] = Some Dir →
  inst w !! LOCAL_VERSION_FILE ≠ Some Dir →
  ∃ w', apply_update E update_file target w = (Ret true, w')
    ∧ UPDATE_WARNINGS w' =
        UPDATE_WARNINGS w ++ map (λ f, WCopyFailed [] f.1) (files_of entries)
    ∧ inst w' = <[LOCAL_VERSION_FILE := File target]> (inst w).
Proof.
  intros Hu Hpkg Hzip Hf Hdl Htemp Hscripts Hmarker.
  destruct (get_local_version_frame w) as (backup & w0 & Hglv & Hi0 & Ht0 & Hw0 & _).
  unfold apply_update. rewrite (bind_ret_run _ _ _ _ _ Hglv).
  rewrite <- Hi0, <- Hw0 in *. rewrite <- Ht0 in Htemp. clear Hglv Hi0 Ht0 Hw0 w.
  unfold try_finally, try_except, install.
  erewrite bind_ret_run; cycle 1.
  { erewrite bind_ret_run; [|by apply stage_absent].
    erewrite bind_ret_run; [|by eapply extract_ok].
    erewrite bind_ret_run; [|by eapply cleanse_no_list, find_entry_files].
    erewrite bind_ret_run; [|by eapply walk_all_fail]. done. }
  erewrite bind_ret_run; [|by apply commit_ok]. simpl.
  erewrite cleanup_temp_ok; [|done]. eexists. split; [done|]. by split.
Qed.

End AllCopiesFail.

Lemma apply_update_total (E : env) update_file target :
  total (apply_update E update_file target).
Proof.
  unfold apply_update. apply total_bind; [apply get_local_version_total|].
  intros backup. apply total_try_finally; [|apply cleanup_temp_total].
  apply total_try_except, total_bind; [apply restore_total | intros; apply total_ret].
Qed.

(** A handler that records a warning turns a failure into a warning. *)
Lemma try_except_warning (m : M unit) x w :
  try_except m (add_warning x) w =
    match m w with
    | (Ret a, w1) => (Ret a, w1)
    | (Raise, w1) =>
        (Ret tt, World (inst w1) (temp w1) (clock w1)
                   (UPDATE_WARNINGS w1 ++ [x]) (trace w1))
    end.
Proof. unfold try_except. by destruct (m w) as [[[]|] w1]. Qed.

(** ** The marker across the steps of the orchestrator *)

Section Marker.

Context (E : env).

Lemma restores_ok_frame {A} (m : M A) :
  (∀ I : world → Prop,
     (∀ f, preserves I (set_inst f)) → (∀ s, preserves I (set_temp s)) →
     preserves I tick →
     (∀ x, x ≠ WRestoreFailed → preserves I (add_warning x)) →
     preserves I m) →
  preserves restores_ok m.
Proof.
  intros Hm. apply Hm; try (by intros ? ?).
  intros x Hx w Hw. unfold restores_ok in *. simpl.
  rewrite elem_of_app, list_elem_of_singleton. by intros [?|?].
Qed.

Lemma package_path_not_marker version : package_path version ≠ LOCAL_VERSION_FILE.
Proof. done. Qed.

Context (x : option node).

Local Abbreviation keeps_marker m :=
  (preserves (λ w, inst w !! LOCAL_VERSION_FILE = x) m).

Lemma keeps_marker_check op : keeps_marker (check E op).
Proof. intros w Hw. by rewrite check_inst. Qed.

Lemma keeps_marker_os_remove (p : path) :
  p ≠ LOCAL_VERSION_FILE → keeps_marker (os_remove E p).
Proof.
  intros Hp w Hw.
  destruct (os_remove_run E p w) as [(w' & -> & Hi & _)|(w' & -> & Hi & _)];
    simpl; rewrite Hi; [by rewrite lookup_delete_ne | done].
Qed.

Lemma keeps_marker_add_warning y : keeps_marker (add_warning y).
Proof. by intros w. Qed.

Lemma keeps_marker_cleanup_stale (p : path) :
  p ≠ LOCAL_VERSION_FILE → keeps_marker (cleanup_stale E p).
Proof.
  intros Hp. unfold cleanup_stale.
  pres ltac:(first [ by apply keeps_marker_os_remove
                   | apply keeps_marker_add_warning ]).
Qed.

Lemma keeps_marker_cleanup_update_package (p : path) :
  p ≠ LOCAL_VERSION_FILE → keeps_marker (cleanup_update_package E p).
Proof.
  intros Hp. unfold cleanup_update_package.
  pres ltac:(first [ by apply keeps_marker_os_remove
                   | apply keeps_marker_add_warning ]).
Qed.

Lemma keeps_marker_write_chunk (p : path) chunk :
  p ≠ LOCAL_VERSION_FILE → keeps_marker (write_chunk E p chunk).
Proof.
  intros Hp. unfold write_chunk.
  pres ltac:(first [ apply keeps_marker_check
                   | intros w Hw; simpl; repeat case_match;
                     by rewrite ?lookup_insert_ne ]).
Qed.

Lemma keeps_marker_download_update version :
  keeps_marker (download_update E version).
Proof.
  pose proof (package_path_not_marker version) as Hp.
  unfold download_update, check_disk_space.
  pres ltac:(first [ by apply keeps_marker_cleanup_stale
                   | by apply keeps_marker_write_chunk
                   | apply keeps_marker_check
                   | intros w Hw; simpl; by rewrite ?lookup_insert_ne ]).
Qed.

End Marker.

(** ** The outcome of one application *)

Section ApplyOutcome.

Context (E : env).

Lemma restore_run backup w :
  restore E backup w =
    match backup with
    | Some b =>
        if str_truthy b then
          match restore_write E b w with
          | (Ret _, w') => (Ret tt, w')
          | (Raise, w') =>
              (Ret tt, World (inst w') (temp w') (clock w')
                         (UPDATE_WARNINGS w' ++ [WRestoreFailed]) (trace w'))
          end
        else (Ret tt, w)
    | None => (Ret tt, w)
    end.
Proof.
  unfold restore. rewrite try_except_warning.
  destruct backup as [b|]; [|done]. destruct (str_truthy b); [|done].
  by destruct (restore_write E b w) as [[[]|] w'].
Qed.

Lemma restore_write_ok b w w' :
  restore_write E b w = (Ret tt, w') →
  inst w' !! LOCAL_VERSION_FILE = Some (File b).
Proof.
  unfold restore_write. rewrite bind_run. simpl. intros H.
  apply write_file_ok in H. rewrite H. apply lookup_insert_eq.
Qed.

Lemma cleanup_temp_run w :
  ∃ w', cleanup_temp E w = (Ret tt, w')
    ∧ inst w' = inst w ∧ trace w' = trace w
    ∧ (UPDATE_WARNINGS w' = UPDATE_WARNINGS w
       ∨ UPDATE_WARNINGS w' = UPDATE_WARNINGS w ++ [WTempCleanup]).
Proof.
  unfold cleanup_temp. rewrite get_world_bind.
  destruct (temp w); try (eexists; by auto).
  rewrite try_except_warning, bind_run, check_run.
  destruct (denied E (clock w) (OpRmtree TEMP_DIR)); eexists; by auto.
Qed.

Lemma get_local_version_some w b w0 :
  get_local_version E w = (Ret (Some b), w0) →
  ∃ c, inst w !! LOCAL_VERSION_FILE = Some (File c) ∧ b = Py.strip c.
Proof.
  unfold get_local_version. rewrite get_world_bind.
  destruct (inst w !! LOCAL_VERSION_FILE) as [[content|]|]; simpl; try done.
  unfold try_except. rewrite bind_run, check_run.
  destruct (denied E (clock w) (OpRead LOCAL_VERSION_FILE)); simpl; [done|].
  intros [= <- _]. eauto.
Qed.

Lemma install_restores_ok update_file :
  preserves restores_ok (install E update_file).
Proof.
  unfold install.
  pres ltac:(first
    [ apply restores_ok_frame; intros; by apply frame_stage
    | apply restores_ok_frame; intros; by apply frame_extract
    | apply restores_ok_frame; intros; by apply frame_cleanse
    | apply restores_ok_frame; intros; by apply frame_walk
    | by intros w Hw ]).
Qed.

Lemma commit_restores_ok target : preserves restores_ok (commit E target).
Proof.
  unfold commit.
  pres ltac:(first
    [ apply restores_ok_frame; intros; by apply frame_write_file
    | by intros w Hw ]).
Qed.

(** A restore whose failure is not on record has put the snapshot back. *)
Lemma restore_ok_marker b w w1 w' :
  str_truthy b = true →
  restore E (Some b) w = (Ret tt, w1) →
  cleanup_temp E w1 = (Ret tt, w') →
  restores_ok w' →
  inst w' !! LOCAL_VERSION_FILE = Some (File b).
Proof.
  intros Hb Hr Hcl Hok. rewrite restore_run, Hb in Hr.
  destruct (cleanup_temp_run w1) as (w2 & Hcl' & Hi & _ & Hw).
  rewrite Hcl in Hcl'. injection Hcl' as <-. rewrite Hi.
  destruct (restore_write E b w) as [[[]|] w2] eqn:Hrw.
  - injection Hr as <-. by eapply restore_write_ok.
  - injection Hr as <-. exfalso. apply Hok. unfold restores_ok.
    destruct Hw as [-> | ->]; simpl; rewrite ?elem_of_app, ?list_elem_of_singleton;
      auto.
Qed.

Lemma apply_update_outcome update_file target w r w' :
  apply_update E update_file target w = (r, w') → restores_ok w →
  ∃ evs, trace w' = trace w ++ evs ∧ fetched evs = [] ∧ applied evs = []
    ∧ ((r = Ret true ∧ committed evs = [target]
        ∧ inst w' !! LOCAL_VERSION_FILE = Some (File target)
        ∧ restores_ok w')
       ∨ (r = Ret false
          ∧ (committed evs = [] ∨ committed evs = [target])
          ∧ ∀ b, last evs = Some (EvRestore b) → restores_ok w' →
              inst w' !! LOCAL_VERSION_FILE = Some (File b)
              ∧ ∀ c, inst w !! LOCAL_VERSION_FILE = Some (File c) →
                     b = Py.strip c)).
Proof.
  intros Happ Hok.
  destruct (total_run _ w (get_local_version_total E)) as (backup & w0 & Hglv).
  destruct (apply_update_cases E _ _ _ _ _ _ _ Hglv Happ) as (evs & Ht & Hcases).
  exists evs. split; [done|].
  assert (∀ b, backup = Some b →
            ∀ c, inst w !! LOCAL_VERSION_FILE = Some (File c) → b = Py.strip c)
    as Hsnap.
  { intros b -> c Hc. apply get_local_version_some in Hglv as (c' & Hc' & ->).
    congruence. }
  destruct Hcases as [(w1 & w2 & Hi & Hr & Hcl & -> & Hevs)
                     |[(w1 & w2 & Hi & Hc & Hcl & -> & ->)
                      |(w1 & w2 & w3 & Hi & Hc & Hr & Hcl & -> & Hevs)]].
  - destruct Hevs as [->|(b & -> & Hb & ->)]; (do 2 (split; [done|])); right;
      (split; [done|]); (split; [by left|]); intros b' Hlast Hok'; [done|].
    injection Hlast as <-. split; [|by apply Hsnap].
    by eapply restore_ok_marker.
  - do 2 (split; [done|]). left. split; [done|]. split; [done|].
    pose proof (restores_ok_frame (get_local_version E)
                  (λ I H1 H2 H3 H4, frame_get_local_version E I H3) w Hok) as Hok0.
    rewrite Hglv in Hok0.
    pose proof (install_restores_ok update_file w0 Hok0) as Hok1. rewrite Hi in Hok1.
    pose proof (commit_restores_ok target w1 Hok1) as Hok2. rewrite Hc in Hok2.
    pose proof (restores_ok_frame (cleanup_temp E)
                  (λ I H1 H2 H3 H4, frame_cleanup_temp E I H2 H3 H4) w2 Hok2) as Hok3.
    rewrite Hcl in Hok3. split; [|done].
    pose proof (cleanup_temp_inst E (inst w2) w2 eq_refl) as Hi2.
    rewrite Hcl in Hi2. simpl in Hi2. rewrite Hi2.
    unfold commit in Hc. rewrite bind_run in Hc. simpl in Hc.
    apply write_file_ok in Hc. rewrite Hc. apply lookup_insert_eq.
  - destruct Hevs as [->|(b & -> & Hb & ->)]; (do 2 (split; [done|])); right;
      (split; [done|]); (split; [by right|]); intros b' Hlast Hok'; [done|].
    injection Hlast as <-. split; [|by apply Hsnap].
    by eapply restore_ok_marker.
Qed.

End ApplyOutcome.

(** ** The outcome of the chain *)

Section ChainOutcome.

Context (E : env).

Lemma download_update_some version w f w' :
  download_update E version w = (Ret (Some f), w') → f = package_path version.
Proof.
  unfold download_update. intros H.
  apply run_bind_inv in H as [[_ ?]|([] & w1 & _ & H)]; [done|].
  apply run_bind_inv in H as [[_ ?]|(t & w2 & _ & H)]; [done|].
  destruct (http_get E t version); try (by injection H).
  apply run_bind_inv in H as [[_ ?]|(n & w3 & _ & H)]; [done|].
  apply run_bind_inv in H as [[_ ?]|(enough & w4 & _ & H)]; [done|].
  destruct (negb enough); [by injection H|].
  rewrite get_world_bind in H.
  apply run_bind_inv in H as [[_ ?]|([] & w5 & _ & H)]; [done|].
  apply run_bind_inv in H as [[_ ?]|([] & w6 & _ & H)]; [done|].
  destruct stream_ok; by injection H.
Qed.

(** What the steps between two applications keep. *)
Lemma download_update_keeps version w r w' :
  download_update E version w = (r, w') →
  trace w' = trace w
  ∧ inst w' !! LOCAL_VERSION_FILE = inst w !! LOCAL_VERSION_FILE
  ∧ (restores_ok w → restores_ok w').
Proof.
  intros H. split; [|split].
  - eapply silent_run; [|exact H]. intros; apply silent_download_update.
  - pose proof (keeps_marker_download_update E _ version w eq_refl) as Hm.
    by rewrite H in Hm.
  - intros Hok.
    pose proof (restores_ok_frame (download_update E version)
                  (λ I H1 H2 H3 H4, frame_download_update E I H1 H3 H4 version)
                  w Hok) as Hok'.
    by rewrite H in Hok'.
Qed.

Lemma cleanup_update_package_keeps version w :
  ∃ w', cleanup_update_package E (package_path version) w = (Ret tt, w')
    ∧ trace w' = trace w
    ∧ inst w' !! LOCAL_VERSION_FILE = inst w !! LOCAL_VERSION_FILE
    ∧ (restores_ok w → restores_ok w').
Proof.
  destruct (total_run _ w (cleanup_update_package_total E (package_path version)))
    as ([] & w' & H).
  exists w'. split; [done|]. split; [|split].
  - eapply silent_run; [|exact H]. intros; apply silent_cleanup_update_package.
  - pose proof (keeps_marker_cleanup_update_package E _ _
                  (package_path_not_marker version) w eq_refl) as Hm.
    by rewrite H in Hm.
  - intros Hok.
    pose proof (restores_ok_frame (cleanup_update_package E (package_path version))
                  (λ I H1 H2 H3 H4,
                     frame_cleanup_update_package E I H1 H3 H4 _) w Hok) as Hok'.
    by rewrite H in Hok'.
Qed.

Lemma last_app_cons {A} (l1 l2 : list A) :
  l2 ≠ [] → last (l1 ++ l2) = last l2.
Proof.
  intros Hl2. destruct l2 as [|y l2] using rev_ind; [done|].
  by rewrite app_assoc, !last_snoc.
Qed.

Lemma snoc_cases {A} (l : list A) : l = [] ∨ ∃ l' x, l = l' ++ [x].
Proof. induction l as [|x l _] using rev_ind; eauto. Qed.

Lemma run_chain_outcome chain w r w' :
  run_chain E chain w = (r, w') → restores_ok w →
  ∃ evs, trace w' = trace w ++ evs
    ∧ ((r = Ret true ∧ fetched evs = chain ∧ applied evs = chain
        ∧ committed evs = chain
        ∧ ∀ u done, chain = done ++ [u] →
            inst w' !! LOCAL_VERSION_FILE = Some (File u))
       ∨ (r ≠ Ret true
          ∧ ∃ done v rest, chain = done ++ v :: rest
              ∧ fetched evs = done ++ [v]
              ∧ (applied evs = done ∨ applied evs = done ++ [v])
              ∧ (committed evs = done ∨ committed evs = done ++ [v])
              ∧ ∀ b, last evs = Some (EvRestore b) → restores_ok w' →
                  inst w' !! LOCAL_VERSION_FILE = Some (File b)
                  ∧ (∀ u done', done = done' ++ [u] → b = Py.strip u)
                  ∧ (done = [] →
                     ∀ c, inst w !! LOCAL_VERSION_FILE = Some (File c) →
                          b = Py.strip c))).
Proof.
  revert w r w'. induction chain as [|v rest IH]; intros w r w' Hrun Hok.
  { injection Hrun as <- <-. exists []. split; [by rewrite app_nil_r|].
    left. repeat split; try done. by intros u [|??]. }
  simpl in Hrun. rewrite bind_run in Hrun. simpl in Hrun.
  rewrite bind_run in Hrun.
  match type of Hrun with context [download_update E v ?x] =>
    set (wa := x) in *; destruct (download_update E v wa) as [rd wb] eqn:Hd end.
  destruct (download_update_keeps _ _ _ _ Hd) as (Htb & Hmb & Hokb).
  assert (r ≠ Ret true → wb = w' →
          (∀ b, last [EvFetch v] = Some (EvRestore b) → False) →
          ∃ evs, trace w' = trace w ++ evs
            ∧ ((r = Ret true ∧ fetched evs = v :: rest ∧ applied evs = v :: rest
                ∧ committed evs = v :: rest
                ∧ ∀ u done, v :: rest = done ++ [u] →
                    inst w' !! LOCAL_VERSION_FILE = Some (File u))
               ∨ (r ≠ Ret true
                  ∧ ∃ done v' rest', v :: rest = done ++ v' :: rest'
                      ∧ fetched evs = done ++ [v']
                      ∧ (applied evs = done ∨ applied evs = done ++ [v'])
                      ∧ (committed evs = done ∨ committed evs = done ++ [v'])
                      ∧ ∀ b, last evs = Some (EvRestore b) → restores_ok w' →
                          inst w' !! LOCAL_VERSION_FILE = Some (File b)
                          ∧ (∀ u done', done = done' ++ [u] → b = Py.strip u)
                          ∧ (done = [] →
                             ∀ c, inst w !! LOCAL_VERSION_FILE = Some (File c) →
                                  b = Py.strip c)))) as Hstop.
  { intros Hr <- Hlast. exists [EvFetch v]. split; [by rewrite Htb|].
    right. split; [done|]. exists [], v, rest. repeat split; auto.
    all: intros; by exfalso; eapply Hlast. }
  destruct rd as [[f|]|].
  2:{ injection Hrun as <- <-. apply Hstop; [done..|]. by intros b [=]. }
  2:{ injection Hrun as <- <-. apply Hstop; [done..|]. by intros b [=]. }
  clear Hstop. apply download_update_some in Hd as Hf. subst f.
  rewrite bind_run in Hrun. simpl in Hrun. rewrite bind_run in Hrun.
  match type of Hrun with context [apply_update E _ v ?x] =>
    set (wc0 := x) in *;
    destruct (apply_update E (package_path v) v wc0) as [ra wc] eqn:Ha end.
  assert (restores_ok wc0) as Hokc0 by (by apply Hokb).
  destruct (apply_update_outcome E _ _ _ _ _ Ha Hokc0)
    as (evsa & Hta & Hfa & Haa & Hout).
  assert (trace wc = trace w ++ [EvFetch v; EvApply v] ++ evsa) as Htc.
  { rewrite Hta. subst wc0. simpl. rewrite Htb. subst wa. simpl.
    by rewrite <- !app_assoc. }
  assert (inst wc0 !! LOCAL_VERSION_FILE = inst w !! LOCAL_VERSION_FILE) as Hmc0
    by (subst wc0; simpl; by rewrite Hmb).
  destruct Hout as [(-> & Hca & Hma & Hokc)|(-> & Hca & Hrest)].
  - destruct (cleanup_update_package_keeps v wc) as (wd & Hcl & Htd & Hmd & Hokd).
    simpl in Hrun. rewrite bind_run, Hcl in Hrun.
    destruct (IH _ _ _ Hrun (Hokd Hokc)) as (evsr & Htr & Hr).
    exists ([EvFetch v; EvApply v] ++ evsa ++ evsr). split.
    { rewrite Htr, Htd, Htc. by rewrite <- !app_assoc. }
    unfold fetched, applied, committed in *.
    rewrite !omap_app. simpl. rewrite Hfa, Haa, Hca. simpl.
    destruct Hr as [(-> & Hfr & Har & Hcr & Hmr)
                   |(Hr & done & v' & rest' & -> & Hfr & Har & Hcr & Hmr)].
    + left. rewrite Hfr, Har, Hcr. repeat split; try done.
      intros u done Hch. destruct (snoc_cases rest) as [->|(rest2 & v2 & ->)].
      * injection Hrun as <-. rewrite Hmd, Hma.
        by apply (app_inj_tail [] done v u) in Hch as [_ ->].
      * rewrite app_comm_cons in Hch.
        apply app_inj_tail in Hch as [_ <-]. by eapply Hmr.
    + right. split; [done|]. exists (v :: done), v', rest'.
      rewrite Hfr. split; [done|]. split; [done|].
      split; [destruct Har as [-> | ->]; auto|].
      split; [destruct Hcr as [-> | ->]; auto|].
      intros b Hlast Hok'.
      assert (evsr ≠ []) as Hne.
      { intros ->. by destruct done. }
      assert (last evsr = Some (EvRestore b)) as Hlast'.
      { rewrite <- Hlast. symmetry.
        by apply (last_app_cons (EvFetch v :: EvApply v :: evsa) evsr). }
      destruct (Hmr b Hlast' Hok') as (Hm' & Hu & Hnil).
      split; [done|]. split; [|done].
      intros u done' Hdone. destruct (snoc_cases done) as [->|(done2 & v2 & ->)].
      * apply (app_inj_tail [] done' v u) in Hdone as [_ <-].
        apply Hnil; [done|]. by rewrite Hmd, Hma.
      * rewrite app_comm_cons in Hdone.
        apply app_inj_tail in Hdone as [_ <-]. by eapply Hu.
  - simpl in Hrun. injection Hrun as <- <-.
    exists ([EvFetch v; EvApply v] ++ evsa). split; [done|].
    right. split; [done|]. exists [], v, rest.
    unfold fetched, applied, committed in *.
    rewrite !omap_app. simpl. rewrite Hfa, Haa. simpl.
    split; [done|]. split; [done|]. split; [by right|].
    split; [destruct Hca as [-> | ->]; auto|].
    intros b Hlast Hok'.
    assert (evsa ≠ []) as Hne by (intros ->; done).
    assert (last evsa = Some (EvRestore b)) as Hlast'.
    { rewrite <- Hlast. symmetry.
      by apply (last_app_cons [EvFetch v; EvApply v] evsa). }
    destruct (Hrest b Hlast' Hok') as (Hm' & Hc'). split; [done|].
    split; [by intros u [|??]|]. intros _ c Hc. apply Hc'. by rewrite Hmc0.
Qed.

End ChainOutcome.

(** ** The steps as functions on the install root *)

Section Agrees.

Context (E : env) (Hstatic : static E).

Lemma check_static op w :
  check E op w =
    (if den E op then Raise else Ret tt,
     World (inst w) (temp w) (S (clock w)) (UPDATE_WARNINGS w) (trace w)).
Proof. by rewrite check_run, Hstatic. Qed.

Lemma agrees_ret : agrees (mret tt) Some.
Proof. intros w. exists w. split; [done|]. by left. Qed.

Lemma agrees_raise : agrees raise (λ _, None).
Proof. intros w. exists w. split; [done|]. by right. Qed.

Lemma agrees_bind (m1 m2 : M unit) f1 f2 :
  agrees m1 f1 → agrees m2 f2 → agrees (m1 ;; m2) (λ m, f1 m ≫= f2).
Proof.
  intros H1 H2 w. rewrite bind_run.
  destruct (H1 w) as (w1 & Ht1 & [[-> Hf1]|[-> Hf1]]); rewrite Hf1; simpl.
  - destruct (H2 w1) as (w2 & Ht2 & Hw2). exists w2. split; [congruence|done].
  - exists w1. split; [done|]. by right.
Qed.

Lemma agrees_get_world (k : world → M unit) g :
  (∀ w0, agrees (k w0) (g (inst w0))) → agrees (get_world ≫= k) (λ m, g m m).
Proof. intros H w. rewrite get_world_bind. apply H. Qed.

Lemma agrees_ext (m : M unit) f g :
  (∀ x, f x = g x) → agrees m f → agrees m g.
Proof. intros Hfg H w. rewrite <- Hfg. apply H. Qed.

Lemma agrees_for_each {A} (body : A → M unit) f (l : list A) :
  (∀ x, agrees (body x) (f x)) → agrees (for_each body l) (fold_opt f l).
Proof.
  intros Hb. induction l as [|x l IH]; simpl; [apply agrees_ret|].
  by apply agrees_bind.
Qed.

Lemma agrees_check_set op f :
  agrees (check E op ;; set_inst f)
         (λ m, if den E op then None else Some (f m)).
Proof.
  intros w. rewrite bind_run, check_static.
  destruct (den E op); eexists; (split; [|by auto]); done.
Qed.

Lemma agrees_os_mkdir p : agrees (os_mkdir E p) (mkdir_pure E p).
Proof.
  unfold os_mkdir, mkdir_pure.
  apply (agrees_get_world _ (λ m0 m,
    if is_dir m0 (parent p) && negb (path_exists m0 p)
    then if den E (OpMkdir p) then None else Some (<[p:=Dir]> m) else None)).
  intros w0. destruct (is_dir (inst w0) (parent p) && negb (path_exists (inst w0) p)).
  - apply agrees_check_set.
  - apply agrees_raise.
Qed.

Lemma agrees_makedirs_from base rest :
  agrees (makedirs_from E base rest) (makedirs_pure E base rest).
Proof.
  revert base. induction rest as [|x rest IH]; intros base; simpl.
  - apply agrees_raise.
  - destruct rest as [|y rest]; [apply agrees_os_mkdir|].
    apply (agrees_get_world _ (λ m0 m,
      (if path_exists m0 (base ++ [x]) then Some m
       else mkdir_pure E (base ++ [x]) m) ≫=
      makedirs_pure E (base ++ [x]) (y :: rest))).
    intros w0. apply agrees_bind; [|apply IH].
    destruct (path_exists (inst w0) (base ++ [x]));
      [apply agrees_ret | apply agrees_os_mkdir].
Qed.

Lemma write_file_static (p : path) s w :
  write_file E p s w =
    if is_dir (inst w) (parent p) && negb (is_dir (inst w) p) then
      if den E (OpOpenW p) then
        (Raise, World (inst w) (temp w) (S (clock w)) (UPDATE_WARNINGS w)
                      (trace w))
      else if den E (OpWrite p) then
        (Raise, World (<[p := File EmptyString]> (inst w)) (temp w)
                      (S (S (clock w))) (UPDATE_WARNINGS w) (trace w))
      else
        (Ret tt, World (<[p := File s]> (inst w)) (temp w)
                       (S (S (clock w))) (UPDATE_WARNINGS w) (trace w))
    else (Raise, w).
Proof. by rewrite write_file_run, !Hstatic. Qed.

Lemma agrees_copy_file rel file :
  agrees (copy_file E rel file) (λ m, Some (copy_pure E rel file m)).
Proof.
  intros w. unfold copy_file, copy2, copy_pure.
  rewrite try_except_warning, get_world_bind, bind_run, check_static.
  destruct (den E (OpRead (TEMP_DIR ++ rel ++ [file.1]))).
  { eexists. split; [|left; split; [done|]]; done. }
  rewrite write_file_static. cbn [inst temp clock UPDATE_WARNINGS trace].
  set (dst' := if is_dir (inst w) (rel ++ [file.1])
               then (rel ++ [file.1]) ++ [file.1] else rel ++ [file.1]).
  destruct (is_dir (inst w) (parent dst') && negb (is_dir (inst w) dst')).
  2:{ eexists. split; [|left; split; [done|]]; done. }
  destruct (den E (OpOpenW dst')).
  { eexists. split; [|left; split; [done|]]; done. }
  destruct (den E (OpWrite dst'));
    eexists; (split; [|left; split; [done|]]); done.
Qed.

Lemma fold_opt_total {A S} (f : A → S → S) (l : list A) (s : S) :
  fold_opt (λ x s, Some (f x s)) l s = Some (fold_left (λ s x, f x s) l s).
Proof. revert s. induction l as [|x l IH]; intros s; simpl; [done|apply IH]. Qed.

Lemma agrees_visit rel entries :
  agrees (visit E rel entries) (visit_pure E rel entries).
Proof.
  unfold visit, visit_pure.
  apply (agrees_get_world _ (λ m0 m,
    (if path_exists m0 rel then Some m else makedirs_pure E [] rel m) ≫=
    λ m', Some (fold_left (λ m f, copy_pure E rel f m)
                          (visited_files E rel entries) m'))).
  intros w0. apply agrees_bind.
  - destruct (path_exists (inst w0) rel);
      [apply agrees_ret | apply agrees_makedirs_from].
  - eapply agrees_ext; [intros x; apply fold_opt_total|].
    apply agrees_for_each. intros f. apply agrees_copy_file.
Qed.

Lemma agrees_walk_entry rel n :
  agrees (walk_entry E rel n) (walk_entry_pure E rel n).
Proof.
  revert rel. induction n as [name content|name entries IH] using pnode_induct;
    intros rel; simpl.
  - apply agrees_ret.
  - apply agrees_bind; [apply agrees_visit|].
    induction IH as [|n entries Hn _ IHe]; simpl; [apply agrees_ret|].
    apply agrees_bind; [apply Hn | apply IHe].
Qed.

Lemma agrees_walk_entries rel entries :
  agrees (for_each (walk_entry E rel) entries)
         (fold_opt (walk_entry_pure E rel) entries).
Proof. apply agrees_for_each. intros n. apply agrees_walk_entry. Qed.

Lemma resolve_nonempty s p : resolve s = Some p → p ≠ [].
Proof.
  unfold resolve. intros H Hp. subst p.
  repeat case_match; simplify_eq.
Qed.

Lemma agrees_delete_line line :
  agrees (delete_line E line) (λ m, Some (delete_line_pure E line m)).
Proof.
  intros w. unfold delete_line, delete_line_pure, delete_at.
  destruct (str_truthy (Py.strip line)); [|exists w; by auto].
  destruct (resolve (Py.strip line)) as [p|] eqn:Hp; [|exists w; by auto].
  rewrite get_world_bind. unfold path_exists, is_dir.
  destruct p as [|x p]; [by apply resolve_nonempty in Hp|].
  destruct (inst w !! (x :: p)) as [[c|]|] eqn:Hk; [| |exists w; by auto].
  - rewrite try_except_warning. unfold os_remove.
    rewrite get_world_bind, Hk, bind_run, check_static.
    destruct (den E (OpRemove (x :: p))); simpl; eexists;
      (split; [|left; split; reflexivity]); reflexivity.
  - rewrite try_except_warning. unfold rmtree.
    rewrite get_world_bind, Hk, bind_run, check_static.
    destruct (den E (OpRmtree (x :: p))); simpl; eexists;
      (split; [|left; split; reflexivity]); reflexivity.
Qed.

Lemma agrees_check op :
  agrees (check E op) (λ m, if den E op then None else Some m).
Proof.
  intros w. rewrite check_static.
  exists (World (inst w) (temp w) (S (clock w)) (UPDATE_WARNINGS w) (trace w)).
  split; [done|]. destruct (den E op); [by right|by left].
Qed.

(** With the work area unpacked, the delete-list and the walk act on the
    install root as their pure counterparts. *)
Lemma cleanse_run entries w :
  temp w = TempDir entries →
  ∃ w', temp w' = TempDir entries
    ∧ ((cleanse E w = (Ret tt, w') ∧ cleanse_pure E entries (inst w) = Some (inst w'))
       ∨ (cleanse E w = (Raise, w') ∧ cleanse_pure E entries (inst w) = None)).
Proof.
  intros Ht. unfold cleanse, cleanse_pure. rewrite get_world_bind, Ht.
  destruct (find_entry (DELETE_LIST_FILE E) entries) as [[name content|name es]|].
  - assert (agrees (check E (OpRead (TEMP_DIR ++ [DELETE_LIST_FILE E])) ;;
                    for_each (delete_line E) (lines content))
        (λ m, if den E (OpRead (TEMP_DIR ++ [DELETE_LIST_FILE E])) then None
              else Some (fold_left (λ m line, delete_line_pure E line m)
                                   (lines content) m))) as Hag.
    { eapply agrees_ext;
        [|exact (agrees_bind _ _ _ _
             (agrees_check (OpRead (TEMP_DIR ++ [DELETE_LIST_FILE E])))
             (agrees_for_each _ _ (lines content) agrees_delete_line))].
      intros m. cbv beta.
      destruct (den E (OpRead (TEMP_DIR ++ [DELETE_LIST_FILE E]))); simpl;
        [done|apply fold_opt_total]. }
    destruct (Hag w) as (w' & Hw' & Hres).
    exists w'. split; [congruence|done].
  - exists w. split; [done|by right].
  - exists w. split; [done|by left].
Qed.

Lemma walk_run entries w :
  temp w = TempDir entries →
  ∃ w', temp w' = TempDir entries
    ∧ ((walk E w = (Ret tt, w') ∧ walk_pure E entries (inst w) = Some (inst w'))
       ∨ (walk E w = (Raise, w') ∧ walk_pure E entries (inst w) = None)).
Proof.
  intros Ht. unfold walk, walk_pure. rewrite get_world_bind, Ht.
  destruct (agrees_bind _ _ _ _ (agrees_visit [] entries)
              (agrees_walk_entries [] entries) w) as (w' & Hw' & Hres).
  exists w'. split; [congruence|done].
Qed.

End Agrees.

(** ** Paths and lookups *)

Section Paths.

Implicit Types (p q k rel : path) (m : gmap path node).

Lemma parent_snoc p (x : string) : parent (p ++ [x]) = p.
Proof.
  unfold parent. rewrite length_app. simpl.
  replace (length p + 1 - 1)%nat with (length p) by lia.
  by rewrite take_app_length.
Qed.

Lemma is_dir_snoc m p (x : string) :
  is_dir m (p ++ [x]) =
    match m !! (p ++ [x]) with Some Dir => true | _ => false end.
Proof. unfold is_dir. by destruct p. Qed.

Lemma path_exists_snoc m p (x : string) :
  path_exists m (p ++ [x]) =
    match m !! (p ++ [x]) with Some _ => true | None => false end.
Proof. unfold path_exists. by destruct p. Qed.

Lemma snoc_not_prefix p (x y : string) k :
  x ≠ y → (p ++ [x]) `prefix_of` k → ¬ (p ++ [y]) `prefix_of` k.
Proof.
  intros Hxy [k1 ->] [k2 Hk]. rewrite <- !app_assoc in Hk.
  apply app_inv_head in Hk. simpl in Hk. congruence.
Qed.

Lemma prefix_snoc_self p (x : string) : ¬ (p ++ [x]) `prefix_of` p.
Proof.
  intros [k Hk]. apply (f_equal length) in Hk. rewrite !length_app in Hk.
  simpl in Hk. lia.
Qed.

Lemma prefix_of_prefix_snoc q p (x : string) :
  q `prefix_of` p → ¬ (p ++ [x]) `prefix_of` q.
Proof.
  intros [k1 ->] [k2 Hk]. apply (f_equal length) in Hk.
  rewrite !length_app in Hk. simpl in Hk. lia.
Qed.

Lemma extends_refl m : extends m m.
Proof. intros k. split; [done|]. intros c Hc. by exists c. Qed.

Lemma extends_trans m1 m2 m3 : extends m1 m2 → extends m2 m3 → extends m1 m3.
Proof.
  intros H12 H23 k. destruct (H12 k) as [Hd Hf], (H23 k) as [Hd' Hf'].
  split; [auto|]. intros c Hc. destruct (Hf c Hc) as [c' Hc']. eauto.
Qed.

Lemma extends_insert_file m k c :
  m !! k ≠ Some Dir → extends m (<[k := File c]> m).
Proof.
  intros Hk k'. destruct (decide (k = k')) as [<-|Hne].
  - rewrite lookup_insert_eq. split; [done|]. intros; by eexists.
  - rewrite lookup_insert_ne by done. split; [done|]. intros; by eexists.
Qed.

Lemma extends_insert_dir m k : m !! k = None → extends m (<[k := Dir]> m).
Proof.
  intros Hk k'. destruct (decide (k = k')) as [<-|Hne].
  - rewrite lookup_insert_eq, Hk. split; [done|]. by intros.
  - rewrite lookup_insert_ne by done. split; [done|]. intros; by eexists.
Qed.

Lemma extends_exists m m' k :
  extends m m' → path_exists m k = true → path_exists m' k = true.
Proof.
  intros Hext. unfold path_exists. destruct k as [|x k]; [done|].
  destruct (Hext (x :: k)) as [Hd Hf].
  destruct (m !! (x :: k)) as [[c|]|]; [|by rewrite Hd|done].
  destruct (Hf c eq_refl) as [c' ->]. done.
Qed.

Lemma extends_is_dir m m' k :
  extends m m' → path_exists m k = true → is_dir m' k = is_dir m k.
Proof.
  intros Hext. unfold path_exists, is_dir. destruct k as [|x k]; [done|].
  destruct (Hext (x :: k)) as [Hd Hf].
  destruct (m !! (x :: k)) as [[c|]|]; [|by rewrite Hd|done].
  destruct (Hf c eq_refl) as [c' ->]. done.
Qed.

End Paths.

(** ** One copy of the overlay *)

Section Copy.

Context (E : env) (target : string).

Implicit Types (p q k rel : path) (m X Y : gmap path node).

Lemma copy_pure_target rel file m :
  copy_pure E rel file m =
    match copy_target E rel file m with
    | Some (d, c) => <[d := File c]> m
    | None => m
    end.
Proof.
  unfold copy_pure, copy_target.
  repeat (case_match; try done).
Qed.

Lemma copy_target_spec rel file m d c :
  copy_target E rel file m = Some (d, c) →
  m !! d ≠ Some Dir
  ∧ ((d = rel ++ [file.1] ∧ is_dir m rel = true)
     ∨ (d = (rel ++ [file.1]) ++ [file.1]
        ∧ m !! (rel ++ [file.1]) = Some Dir)).
Proof.
  unfold copy_target. rewrite !is_dir_snoc.
  destruct (den E (OpRead _)); [done|].
  destruct (m !! (rel ++ [file.1])) as [[c0|]|] eqn:Hdst.
  - rewrite parent_snoc, is_dir_snoc, Hdst. simpl. rewrite andb_true_r.
    destruct (is_dir m rel) eqn:Hrel; [|done].
    destruct (den E (OpOpenW _)); [done|]. intros [= <- <-].
    split; [by rewrite Hdst | by left].
  - rewrite parent_snoc, !is_dir_snoc, Hdst. simpl.
    destruct (m !! ((rel ++ [file.1]) ++ [file.1])) as [[c0|]|] eqn:He; simpl;
      try done; destruct (den E (OpOpenW _)); try done; intros [= <- <-];
      (split; [by rewrite He | by right]).
  - rewrite parent_snoc, is_dir_snoc, Hdst. simpl. rewrite andb_true_r.
    destruct (is_dir m rel) eqn:Hrel; [|done].
    destruct (den E (OpOpenW _)); [done|]. intros [= <- <-].
    split; [by rewrite Hdst | by left].
Qed.

Lemma copy_target_below rel file m d c :
  copy_target E rel file m = Some (d, c) → (rel ++ [file.1]) `prefix_of` d.
Proof.
  intros H. apply copy_target_spec in H as [_ [[-> _]|[-> _]]]; [done|].
  by eexists.
Qed.

Lemma copy_pure_local rel file m k :
  ¬ (rel ++ [file.1]) `prefix_of` k → copy_pure E rel file m !! k = m !! k.
Proof.
  intros Hk. rewrite copy_pure_target.
  destruct (copy_target E rel file m) as [[d c]|] eqn:Ht; [|done].
  apply lookup_insert_ne. intros ->. by apply copy_target_below in Ht.
Qed.

Lemma copy_pure_extends rel file m : extends m (copy_pure E rel file m).
Proof.
  rewrite copy_pure_target.
  destruct (copy_target E rel file m) as [[d c]|] eqn:Ht; [|apply extends_refl].
  apply extends_insert_file. by apply copy_target_spec in Ht as [? _].
Qed.

Lemma copy_pure_dirs rel file m k :
  copy_pure E rel file m !! k = Some Dir ↔ m !! k = Some Dir.
Proof.
  split; [|apply copy_pure_extends].
  rewrite copy_pure_target.
  destruct (copy_target E rel file m) as [[d c]|] eqn:Ht; [|done].
  destruct (decide (d = k)) as [->|Hne];
    [by rewrite lookup_insert_eq | by rewrite lookup_insert_ne].
Qed.

(** The target of a copy depends on the kinds of three entries only. *)
Lemma copy_target_kinds rel file X Y :
  is_dir X rel = is_dir Y rel →
  is_dir X (rel ++ [file.1]) = is_dir Y (rel ++ [file.1]) →
  is_dir X ((rel ++ [file.1]) ++ [file.1])
    = is_dir Y ((rel ++ [file.1]) ++ [file.1]) →
  copy_target E rel file X = copy_target E rel file Y.
Proof.
  intros H1 H2 H3. unfold copy_target. rewrite H2.
  destruct (is_dir Y (rel ++ [file.1])) eqn:HY; rewrite !parent_snoc.
  - by rewrite H2, H3, HY.
  - by rewrite H1, H2, HY.
Qed.

Lemma allowed_is_dir p X X' Y k :
  allowed target p X X' Y → p `prefix_of` k →
  (X' !! k = Some Dir ↔ X !! k = Some Dir) →
  X' !! LOCAL_VERSION_FILE ≠ Some Dir →
  k ≠ [] →
  is_dir X k = is_dir Y k.
Proof.
  intros Hall Hk Hdirs Hmarker Hne. unfold is_dir.
  destruct k as [|x k]; [done|].
  destruct (Hall _ Hk) as [HY|[HY|[Hk' HY]]]; rewrite HY; [done| |].
  - destruct (decide (X !! (x :: k) = Some Dir)) as [Hd|Hnd].
    + by rewrite Hd, (proj2 Hdirs Hd).
    + assert (X' !! (x :: k) ≠ Some Dir) as Hnd'
        by (intros H; by apply Hdirs in H).
      destruct (X !! (x :: k)) as [[]|], (X' !! (x :: k)) as [[]|]; done.
  - assert (X !! (x :: k) ≠ Some Dir) as Hnd.
    { intros H. apply Hdirs in H. by rewrite Hk' in H. }
    by destruct (X !! (x :: k)) as [[]|].
Qed.

Lemma copy_pure_sim rel file X Y :
  allowed target (rel ++ [file.1]) X (copy_pure E rel file X) Y →
  is_dir X rel = is_dir Y rel →
  copy_pure E rel file X !! LOCAL_VERSION_FILE ≠ Some Dir →
  settled target (rel ++ [file.1]) (copy_pure E rel file X)
          (copy_pure E rel file Y).
Proof.
  intros Hall Hrel Hmarker.
  assert (copy_target E rel file X = copy_target E rel file Y) as Ht.
  { apply copy_target_kinds; [done|..];
      (eapply allowed_is_dir; [exact Hall| |apply copy_pure_dirs|done|]);
      [done|by destruct rel|by eexists|by destruct rel]. }
  intros k Hk. destruct (Hall k Hk) as [HY|[HY|HY]];
    rewrite !copy_pure_target, <- Ht in *;
    destruct (copy_target E rel file X) as [[d c]|]; auto;
    (destruct (decide (d = k)) as [->|Hne];
     [rewrite !lookup_insert_eq; by left|]);
    rewrite !lookup_insert_ne in * by done; auto.
Qed.

End Copy.

(** ** Creating a directory *)

Section Mkdir.

Context (E : env).

Implicit Types (p q k rel : path) (m : gmap path node).

Lemma mkdir_pure_spec p m m' :
  mkdir_pure E p m = Some m' →
  m' = <[p := Dir]> m ∧ path_exists m p = false
  ∧ is_dir m (parent p) = true ∧ den E (OpMkdir p) = false.
Proof.
  unfold mkdir_pure.
  destruct (is_dir m (parent p)), (path_exists m p); simpl; try done.
  destruct (den E (OpMkdir p)); [done|]. by intros [= <-].
Qed.

Lemma path_exists_false m p : path_exists m p = false → m !! p = None.
Proof. unfold path_exists. destruct p; [done|]. by destruct (m !! _). Qed.

Lemma makedirs_pure_last base rest (x : string) m :
  (∀ q, q `prefix_of` rest → q ≠ [] → path_exists m (base ++ q) = true) →
  makedirs_pure E base (rest ++ [x]) m = mkdir_pure E (base ++ rest ++ [x]) m.
Proof.
  revert base. induction rest as [|y rest IH]; intros base Hq; [done|].
  change ((y :: rest) ++ [x]) with (y :: (rest ++ [x])).
  assert (∃ z l, rest ++ [x] = z :: l) as (z & l & Hzl)
    by (destruct rest; simpl; eauto).
  simpl. rewrite Hzl, <- Hzl.
  rewrite (Hq [y]); [|by exists rest|done]. simpl.
  rewrite IH.
  - by rewrite <- app_assoc.
  - intros q Hpre Hne. rewrite <- app_assoc. apply Hq; [|done].
    by apply prefix_cons.
Qed.

Lemma makedirs_pure_snoc rel (x : string) m :
  prefixes_exist rel m →
  makedirs_pure E [] (rel ++ [x]) m = mkdir_pure E (rel ++ [x]) m.
Proof. intros Hp. apply makedirs_pure_last. intros q Hq _. by apply Hp. Qed.

End Mkdir.

(** ** Sequences of actions on the entries of one directory *)

Section Actions.

Context (target : string) (p : path).

Implicit Types (k q : path) (m X Y : gmap path node) (items : list action).

Lemma prefixes_exist_local it m m' :
  local_action p it → prefixes_exist p m → it.2 m = Some m' →
  prefixes_exist p m'.
Proof.
  intros Hl Hp Hm q Hq. pose proof (Hp q Hq) as Hq'. unfold path_exists in *.
  destruct q as [|x q]; [done|].
  rewrite (Hl m m' Hp Hm); [done|]. by apply prefix_of_prefix_snoc.
Qed.

Lemma run_actions_local items m m' :
  Forall (local_action p) items → prefixes_exist p m →
  run_actions items m = Some m' →
  ∀ k, (∀ it, it ∈ items → ¬ (p ++ [it.1]) `prefix_of` k) → m' !! k = m !! k.
Proof.
  intros Hl. revert m. induction Hl as [|it items Hit _ IH]; intros m Hp Hrun k Hk.
  { by injection Hrun as <-. }
  simpl in Hrun. destruct (it.2 m) as [m1|] eqn:H1; [|done]. simpl in Hrun.
  rewrite (IH m1); [| by eapply prefixes_exist_local | done |].
  - apply (Hit m m1 Hp H1). apply Hk. by left.
  - intros it' Hin. apply Hk. by right.
Qed.

Lemma run_actions_extends items m m' :
  Forall extending_action items → run_actions items m = Some m' →
  extends m m'.
Proof.
  intros He. revert m. induction He as [|it items Hit _ IH]; intros m Hrun.
  { injection Hrun as <-. apply extends_refl. }
  simpl in Hrun. destruct (it.2 m) as [m1|] eqn:H1; [|done]. simpl in Hrun.
  eapply extends_trans; [by apply Hit | by apply IH].
Qed.

Lemma agree_at_local it X X1 Y Y1 :
  local_action p it → agree_at p X Y →
  it.2 X = Some X1 → it.2 Y = Some Y1 → agree_at p X1 Y1.
Proof.
  intros Hl (Hd & HpX & HpY) HX HY. split; [|split].
  - unfold is_dir in *. destruct p as [|x q] eqn:Hp; [done|]. rewrite <- Hp in *.
    by rewrite (Hl X X1 HpX HX p (prefix_snoc_self p it.1)),
               (Hl Y Y1 HpY HY p (prefix_snoc_self p it.1)).
  - exact (prefixes_exist_local it X X1 Hl HpX HX).
  - exact (prefixes_exist_local it Y Y1 Hl HpY HY).
Qed.

Lemma run_actions_sim items X X' Y :
  NoDup items.*1 →
  Forall (local_action p) items → Forall extending_action items →
  Forall (repeatable_action target p) items →
  run_actions items X = Some X' →
  (∀ it, it ∈ items → allowed target (p ++ [it.1]) X X' Y) →
  agree_at p X Y →
  X' !! LOCAL_VERSION_FILE ≠ Some Dir →
  ∃ Y', run_actions items Y = Some Y'
    ∧ (∀ it, it ∈ items → settled target (p ++ [it.1]) X' Y')
    ∧ agree_at p X' Y'
    ∧ (∀ k, (∀ it, it ∈ items → ¬ (p ++ [it.1]) `prefix_of` k) →
            Y' !! k = Y !! k).
Proof.
  revert X Y. induction items as [|it items IH];
    intros X Y Hnd Hl He Hr Hrun Hall Hag Hmarker.
  { injection Hrun as <-. exists Y. split; [done|]. split; [|done].
    intros it Hin. by apply elem_of_nil in Hin. }
  apply NoDup_cons in Hnd as [Hnin Hnd].
  apply Forall_cons in Hl as [Hlit Hl]. apply Forall_cons in He as [Heit He].
  apply Forall_cons in Hr as [Hrit Hr].
  simpl in Hrun. destruct (it.2 X) as [X1|] eqn:HX1; [|done]. simpl in Hrun.
  assert (prefixes_exist p X1) as HpX1
    by exact (prefixes_exist_local it X X1 Hlit (proj1 (proj2 Hag)) HX1).
  assert (∀ it', it' ∈ items → ∀ k, (p ++ [it.1]) `prefix_of` k →
            ¬ (p ++ [it'.1]) `prefix_of` k) as Hdisj.
  { intros it' Hin k Hk. apply (snoc_not_prefix p it.1 it'.1); [|done].
    intros Heq. apply Hnin. rewrite Heq. by apply list_elem_of_fmap_2. }
  assert (∀ k, (p ++ [it.1]) `prefix_of` k → X' !! k = X1 !! k) as Hrest.
  { intros k Hk. eapply (run_actions_local items); eauto. }
  assert (X1 !! LOCAL_VERSION_FILE ≠ Some Dir) as Hm1.
  { intros H. apply Hmarker. by apply (run_actions_extends _ _ _ He Hrun). }
  destruct (Hrit X X1 Y HX1) as (Y1 & HY1 & Hset1); [|done|done|].
  { intros k Hk. destruct (Hall it ltac:(by left) k Hk) as [?|[?|?]]; auto.
    right; left. by rewrite <- Hrest. }
  destruct (IH X1 Y1) as (Y' & HY' & Hset & Hag' & Hout); try done.
  { intros it' Hin k Hk.
    assert (¬ (p ++ [it.1]) `prefix_of` k) as Hnk.
    { intros Hk'. by apply (Hdisj it' Hin k Hk'). }
    rewrite (Hlit X X1 ltac:(apply Hag) HX1 k Hnk).
    rewrite (Hlit Y Y1 ltac:(apply Hag) HY1 k Hnk).
    exact (Hall it' ltac:(by right) k Hk). }
  { by eapply agree_at_local. }
  exists Y'. split; [by simpl; rewrite HY1|]. split; [|split; [done|]].
  - intros it' [->|Hin]%elem_of_cons; [|by apply Hset].
    intros k Hk. rewrite (Hrest k Hk).
    rewrite (Hout k); [by apply Hset1|].
    intros it'' Hin. by apply Hdisj.
  - intros k Hk. rewrite (Hout k); [|intros it' Hin; apply Hk; by right].
    apply (Hlit Y Y1 ltac:(apply Hag) HY1). apply Hk. by left.
Qed.

End Actions.

(** ** The walk as a sequence of actions *)

Section WalkActions.

Context (E : env).

Implicit Types (p q k rel : path) (m X Y : gmap path node).

Lemma fold_opt_app {A S} (f : A → S → option S) (l1 l2 : list A) (s : S) :
  fold_opt f (l1 ++ l2) s = fold_opt f l1 s ≫= fold_opt f l2.
Proof.
  revert s. induction l1 as [|x l1 IH]; intros s; simpl; [done|].
  destruct (f x s); simpl; [apply IH|done].
Qed.

Lemma fold_opt_map {A B S} (g : A → B) (f : B → S → option S) (l : list A) s :
  fold_opt f (map g l) s = fold_opt (λ x, f (g x)) l s.
Proof.
  revert s. induction l as [|x l IH]; intros s; simpl; [done|].
  destruct (f (g x) s); simpl; [apply IH|done].
Qed.

Lemma run_file_actions p files m :
  run_actions (file_actions E p files) m
  = Some (fold_left (λ m f, copy_pure E p f m) files m).
Proof.
  unfold run_actions, file_actions. rewrite fold_opt_map. simpl.
  apply fold_opt_total.
Qed.

Lemma run_dir_actions p entries m :
  run_actions (dir_actions E p entries) m
  = fold_opt (walk_entry_pure E p) entries m.
Proof.
  unfold run_actions, dir_actions. rewrite fold_opt_map. simpl.
  revert m. induction entries as [|n entries IH]; intros m; simpl; [done|].
  destruct n as [name c|name es]; simpl; [apply IH|].
  destruct (visit_pure E (p ++ [name]) es m) as [m1|]; simpl; [|done].
  destruct (fold_opt (walk_entry_pure E (p ++ [name])) es m1); simpl;
    [apply IH|done].
Qed.

Lemma visit_pure_actions p entries m :
  visit_pure E p entries m
  = ensure_dir E p m
      ≫= run_actions (file_actions E p (visited_files E p entries)).
Proof.
  unfold visit_pure, ensure_dir.
  destruct (if path_exists m p then Some m else makedirs_pure E [] p m);
    simpl; [|done].
  by rewrite run_file_actions.
Qed.

(** A directory is walked by making sure it is there and running the
    actions of its entries. *)
Lemma walk_entry_pure_actions rel name entries m :
  walk_entry_pure E rel (PDir name entries) m
  = ensure_dir E (rel ++ [name]) m
      ≫= run_actions (entry_actions E (rel ++ [name]) entries).
Proof.
  simpl. rewrite visit_pure_actions. unfold entry_actions, run_actions.
  destruct (ensure_dir E (rel ++ [name]) m) as [m1|]; simpl; [|done].
  rewrite fold_opt_app. fold (run_actions (file_actions E (rel ++ [name])
    (visited_files E (rel ++ [name]) entries)) m1).
  rewrite run_file_actions. simpl. symmetry. apply run_dir_actions.
Qed.

Lemma walk_pure_actions entries m :
  walk_pure E entries m = run_actions (entry_actions E [] entries) m.
Proof.
  unfold walk_pure. rewrite visit_pure_actions. unfold entry_actions, run_actions.
  unfold ensure_dir. simpl. rewrite fold_opt_app.
  fold (run_actions (file_actions E [] (visited_files E [] entries)) m).
  rewrite run_file_actions. simpl. symmetry. apply run_dir_actions.
Qed.

End WalkActions.

(** ** What a walk touches *)

Section WalkLocal.

Context (E : env).

Implicit Types (p q k rel : path) (m X Y : gmap path node).

Lemma prefix_snoc_inv q rel (x : string) :
  q `prefix_of` (rel ++ [x]) → q = rel ++ [x] ∨ q `prefix_of` rel.
Proof.
  intros [k Hk]. destruct (snoc_cases k) as [->|(k' & y & ->)].
  - left. by rewrite app_nil_r in Hk.
  - right. rewrite app_assoc in Hk. apply app_inj_tail in Hk as [-> _].
    by exists k'.
Qed.

Lemma prefix_snoc_below p (x : string) k :
  ¬ p `prefix_of` k → ¬ (p ++ [x]) `prefix_of` k.
Proof. intros Hk [k' ->]. apply Hk. exists ([x] ++ k'). by rewrite app_assoc. Qed.

Lemma ensure_dir_spec rel (x : string) m m' :
  prefixes_exist rel m →
  ensure_dir E (rel ++ [x]) m = Some m' →
  (path_exists m (rel ++ [x]) = true ∧ m' = m)
  ∨ (m !! (rel ++ [x]) = None ∧ m' = <[rel ++ [x] := Dir]> m
     ∧ is_dir m rel = true ∧ den E (OpMkdir (rel ++ [x])) = false).
Proof.
  intros Hp. unfold ensure_dir.
  destruct (path_exists m (rel ++ [x])) eqn:Hex.
  - intros [= <-]. by left.
  - rewrite makedirs_pure_snoc by done. intros Hmk.
    apply mkdir_pure_spec in Hmk as (-> & _ & Hd & Hden).
    rewrite parent_snoc in Hd. right. by apply path_exists_false in Hex.
Qed.

Lemma ensure_dir_exists p m :
  path_exists m p = true → ensure_dir E p m = Some m.
Proof. unfold ensure_dir. by intros ->. Qed.

Lemma ensure_dir_mkdir rel (x : string) m :
  prefixes_exist rel m → m !! (rel ++ [x]) = None → is_dir m rel = true →
  den E (OpMkdir (rel ++ [x])) = false →
  ensure_dir E (rel ++ [x]) m = Some (<[rel ++ [x] := Dir]> m).
Proof.
  intros Hp Hnone Hd Hden. unfold ensure_dir.
  rewrite path_exists_snoc, Hnone, makedirs_pure_snoc by done.
  unfold mkdir_pure. by rewrite parent_snoc, Hd, path_exists_snoc, Hnone, Hden.
Qed.

Lemma ensure_dir_local rel (x : string) m m' k :
  prefixes_exist rel m → ensure_dir E (rel ++ [x]) m = Some m' →
  k ≠ rel ++ [x] → m' !! k = m !! k.
Proof.
  intros Hp Hen Hk.
  destruct (ensure_dir_spec _ _ _ _ Hp Hen) as [[_ ->]|(_ & -> & _)]; [done|].
  by rewrite lookup_insert_ne.
Qed.

Lemma mkdir_pure_extends p m m' : mkdir_pure E p m = Some m' → extends m m'.
Proof.
  intros Hmk. apply mkdir_pure_spec in Hmk as (-> & Hex & _).
  by apply extends_insert_dir, path_exists_false.
Qed.

Lemma makedirs_pure_extends base rest m m' :
  makedirs_pure E base rest m = Some m' → extends m m'.
Proof.
  revert base m. induction rest as [|x rest IH]; intros base m; [done|].
  destruct rest as [|y rest]; [apply mkdir_pure_extends|].
  cbn [makedirs_pure].
  destruct (path_exists m (base ++ [x])); simpl.
  - apply IH.
  - destruct (mkdir_pure E (base ++ [x]) m) as [m1|] eqn:Hmk; simpl; [|done].
    intros Hrest. eapply extends_trans; [by eapply mkdir_pure_extends|].
    by eapply IH.
Qed.

Lemma ensure_dir_extends p m m' : ensure_dir E p m = Some m' → extends m m'.
Proof.
  unfold ensure_dir. destruct (path_exists m p).
  - intros [= <-]. apply extends_refl.
  - apply makedirs_pure_extends.
Qed.

Lemma ensure_dir_prefixes rel (x : string) m m' :
  prefixes_exist rel m → ensure_dir E (rel ++ [x]) m = Some m' →
  prefixes_exist (rel ++ [x]) m'.
Proof.
  intros Hp Hen q Hq. apply prefix_snoc_inv in Hq as [->|Hq].
  - destruct (ensure_dir_spec _ _ _ _ Hp Hen) as [[Hex ->]|(_ & -> & _)]; [done|].
    by rewrite path_exists_snoc, lookup_insert_eq.
  - eapply extends_exists; [by eapply ensure_dir_extends|by apply Hp].
Qed.

Lemma file_action_local p (f : string * string) :
  local_action p (f.1, λ m, Some (copy_pure E p f m)).
Proof. intros m m' _ [= <-] k Hk. by apply copy_pure_local. Qed.

Lemma file_action_extending p (f : string * string) :
  extending_action (f.1, λ m, Some (copy_pure E p f m)).
Proof. intros m m' [= <-]. apply copy_pure_extends. Qed.

Lemma file_actions_local p files :
  Forall (local_action p) (file_actions E p files).
Proof. apply Forall_map, Forall_forall. intros f _. apply file_action_local. Qed.

Lemma file_actions_extending p files :
  Forall extending_action (file_actions E p files).
Proof. apply Forall_map, Forall_forall. intros f _. apply file_action_extending. Qed.

Lemma elem_of_subdirs n entries :
  n ∈ subdirs entries ↔ n ∈ entries ∧ ∃ name es, n = PDir name es.
Proof.
  unfold subdirs. rewrite !list_elem_of_In, filter_In.
  split; intros [Hin Hd]; (split; [done|]).
  - destruct n; [done|]. by eexists _, _.
  - by destruct Hd as (name & es & ->).
Qed.

Lemma walk_entry_local n rel : local_action rel (pname n, walk_entry_pure E rel n).
Proof.
  revert rel. induction n as [name content|name entries IH] using pnode_induct;
    intros rel m m' Hp Hrun k Hk.
  { by injection Hrun as <-. }
  cbn [fst snd pname] in *. rewrite walk_entry_pure_actions in Hrun.
  destruct (ensure_dir E (rel ++ [name]) m) as [m1|] eqn:Hen; [|done].
  simpl in Hrun.
  rewrite (run_actions_local (rel ++ [name])
             (entry_actions E (rel ++ [name]) entries) m1 m'); [| | |done|].
  - eapply ensure_dir_local; [done..|]. intros ->. by apply Hk.
  - apply Forall_app. split; [apply file_actions_local|].
    apply Forall_map, Forall_forall. intros n Hn.
    apply elem_of_subdirs in Hn as [Hn _].
    rewrite Forall_forall in IH. by apply IH.
  - by eapply ensure_dir_prefixes.
  - intros it _. apply prefix_snoc_below. intros Hpre. apply Hk. done.
Qed.

Lemma walk_entry_extending n rel :
  extending_action (pname n, walk_entry_pure E rel n).
Proof.
  revert rel. induction n as [name content|name entries IH] using pnode_induct;
    intros rel m m' Hrun.
  { injection Hrun as <-. apply extends_refl. }
  cbn [fst snd pname] in *. rewrite walk_entry_pure_actions in Hrun.
  destruct (ensure_dir E (rel ++ [name]) m) as [m1|] eqn:Hen; [|done].
  simpl in Hrun.
  eapply extends_trans; [by eapply ensure_dir_extends|].
  eapply run_actions_extends; [|done].
  apply Forall_app. split; [apply file_actions_extending|].
  apply Forall_map, Forall_forall. intros n Hn.
  apply elem_of_subdirs in Hn as [Hn _].
  rewrite Forall_forall in IH. by apply IH.
Qed.

Lemma entry_actions_local p entries :
  Forall (local_action p) (entry_actions E p entries).
Proof.
  apply Forall_app. split; [apply file_actions_local|].
  apply Forall_map, Forall_forall. intros n _. apply walk_entry_local.
Qed.

Lemma entry_actions_extending p entries :
  Forall extending_action (entry_actions E p entries).
Proof.
  apply Forall_app. split; [apply file_actions_extending|].
  apply Forall_map, Forall_forall. intros n _. apply walk_entry_extending.
Qed.

End WalkLocal.

(** ** A second walk ends where the first one did *)

Section WalkTwice.

Context (E : env) (target : string).

Implicit Types (p q k rel : path) (m X Y : gmap path node).

Lemma unique_names_dir name entries :
  unique_names (PDir name entries)
  ↔ NoDup (map pname entries) ∧ Forall unique_names entries.
Proof.
  simpl. apply and_iff_compat_l.
  induction entries as [|n entries IH]; [by rewrite Forall_nil|].
  by rewrite Forall_cons, IH.
Qed.

Lemma entry_names_sub (x : string) entries :
  x ∈ (files_of entries).*1 ++ map pname (subdirs entries) →
  x ∈ map pname entries.
Proof.
  induction entries as [|[name c|name es] entries IH]; simpl; [done|..].
  - rewrite !elem_of_cons. intros [->|Hin]; [by left|right; by apply IH].
  - rewrite elem_of_app, !elem_of_cons.
    intros [Hin|[->|Hin]]; [right; apply IH|by left|right; apply IH];
      apply elem_of_app; [by left|by right].
Qed.

Lemma entry_names_NoDup entries :
  NoDup (map pname entries) →
  NoDup ((files_of entries).*1 ++ map pname (subdirs entries)).
Proof.
  induction entries as [|[name c|name es] entries IH]; simpl; [done|..];
    rewrite NoDup_cons; intros [Hnin Hnd].
  - apply NoDup_cons. split; [|by apply IH].
    intros Hin. by apply Hnin, entry_names_sub.
  - rewrite <- Permutation_middle. apply NoDup_cons. split; [|by apply IH].
    intros Hin. by apply Hnin, entry_names_sub.
Qed.

Lemma remove_first_sublist name (files : list (string * string)) :
  remove_first name files `sublist_of` files.
Proof.
  induction files as [|f files IH]; simpl; [done|].
  destruct (String.eqb f.1 name); [by apply sublist_cons|by apply sublist_skip].
Qed.

Lemma visited_files_sublist p entries :
  visited_files E p entries `sublist_of` files_of entries.
Proof.
  unfold visited_files. destruct p; [|done].
  destruct (existsb _ _); [apply remove_first_sublist|done].
Qed.

Lemma entry_actions_names p entries :
  (entry_actions E p entries).*1
  = (visited_files E p entries).*1 ++ map pname (subdirs entries).
Proof.
  unfold entry_actions, file_actions, dir_actions.
  rewrite fmap_app. f_equal.
  - rewrite <- list_fmap_compose. done.
  - change (map ?f ?l) with (f <$> l). rewrite <- list_fmap_compose. done.
Qed.

Lemma entry_actions_NoDup p entries :
  NoDup (map pname entries) → NoDup (entry_actions E p entries).*1.
Proof.
  intros Hnd. rewrite entry_actions_names.
  eapply sublist_NoDup; [by apply entry_names_NoDup|].
  apply sublist_app; [|done]. apply fmap_sublist, visited_files_sublist.
Qed.

Lemma file_action_repeatable p (f : string * string) :
  repeatable_action target p (f.1, λ m, Some (copy_pure E p f m)).
Proof.
  intros X X' Y [= <-] Hall (Hd & _) Hmarker. eexists. split; [done|].
  by apply copy_pure_sim.
Qed.

(** The directory of a walked entry is made, or found, alike. *)
Lemma ensure_dir_sim rel (x : string) X Xm X' Y :
  ensure_dir E (rel ++ [x]) X = Some Xm →
  extends Xm X' → X' !! (rel ++ [x]) = Xm !! (rel ++ [x]) →
  allowed target (rel ++ [x]) X X' Y → agree_at rel X Y →
  X' !! LOCAL_VERSION_FILE ≠ Some Dir →
  ∃ Ym, ensure_dir E (rel ++ [x]) Y = Some Ym
    ∧ agree_at (rel ++ [x]) Xm Ym
    ∧ (∀ k, k ≠ rel ++ [x] → Ym !! k = Y !! k)
    ∧ (Ym !! (rel ++ [x]) = Xm !! (rel ++ [x])
       ∨ (Ym !! (rel ++ [x]) = Y !! (rel ++ [x])
          ∧ Xm !! (rel ++ [x]) = X !! (rel ++ [x]))).
Proof.
  intros HenX Hext Hp' Hall (Hd & HpX & HpY) Hmarker.
  pose proof (Hall (rel ++ [x]) (reflexivity _)) as Hat.
  assert (∀ m, path_exists m (rel ++ [x]) = true →
            prefixes_exist rel m → prefixes_exist (rel ++ [x]) m) as Hpre.
  { intros m Hex Hm q Hq. apply prefix_snoc_inv in Hq as [->|Hq]; [done|].
    by apply Hm. }
  destruct (ensure_dir_spec E _ _ _ _ HpX HenX)
    as [[Hex ->]|(Hnone & -> & Hdir & Hden)].
  - assert (path_exists Y (rel ++ [x]) = true) as HexY.
    { rewrite path_exists_snoc in Hex |- *.
      destruct Hat as [->|[->|[_ ->]]]; [done| |done]. by rewrite Hp'. }
    exists Y. split; [by apply ensure_dir_exists|].
    split; [|split; [done|by right]].
    split; [|split; by apply Hpre].
    rewrite !is_dir_snoc.
    destruct Hat as [->|[->|[Hk ->]]]; [done|by rewrite Hp'|].
    rewrite <- Hp', Hk. by destruct (X' !! LOCAL_VERSION_FILE) as [[]|].
  - rewrite lookup_insert_eq in Hp'.
    assert (prefixes_exist (rel ++ [x]) (<[rel ++ [x]:=Dir]> X)) as HpXm.
    { apply Hpre; [by rewrite path_exists_snoc, lookup_insert_eq|].
      intros q Hq. eapply extends_exists; [by apply extends_insert_dir|].
      by apply HpX. }
    destruct Hat as [HY|[HY|[Hk HY]]].
    + rewrite Hnone in HY.
      exists (<[rel ++ [x]:=Dir]> Y).
      split; [apply ensure_dir_mkdir; [done|done|by rewrite <- Hd|done]|].
      split; [|split].
      * split; [by rewrite !is_dir_snoc, !lookup_insert_eq|]. split; [done|].
        apply Hpre; [by rewrite path_exists_snoc, lookup_insert_eq|].
        intros q Hq. eapply extends_exists; [by apply extends_insert_dir|].
        by apply HpY.
      * intros k Hk. by rewrite lookup_insert_ne.
      * left. by rewrite !lookup_insert_eq.
    + rewrite Hp' in HY. exists Y.
      split; [apply ensure_dir_exists; by rewrite path_exists_snoc, HY|].
      split; [|split; [done|left; by rewrite lookup_insert_eq]].
      split; [by rewrite !is_dir_snoc, lookup_insert_eq, HY|]. split; [done|].
      apply Hpre; [by rewrite path_exists_snoc, HY|done].
    + by rewrite Hk in Hp'.
Qed.

(** The entries of a directory, walked a second time. *)
Lemma entries_sim p entries X X' Y :
  NoDup (map pname entries) →
  Forall (λ n, ∀ rel,
            repeatable_action target rel (pname n, walk_entry_pure E rel n))
         entries →
  run_actions (entry_actions E p entries) X = Some X' →
  (∀ k, p `prefix_of` k → k ≠ p →
        Y !! k = X !! k ∨ Y !! k = X' !! k
        ∨ (k = LOCAL_VERSION_FILE ∧ Y !! k = Some (File target))) →
  agree_at p X Y →
  X' !! LOCAL_VERSION_FILE ≠ Some Dir →
  ∃ Y', run_actions (entry_actions E p entries) Y = Some Y'
    ∧ (∀ k, p `prefix_of` k → k ≠ p →
            Y' !! k = X' !! k
            ∨ (k = LOCAL_VERSION_FILE ∧ Y' !! k = Some (File target)))
    ∧ Y' !! p = Y !! p ∧ X' !! p = X !! p.
Proof.
  intros Hnd Hrep Hrun Hall Hag Hmarker.
  pose proof (entry_actions_local E p entries) as Hloc.
  destruct (run_actions_sim target p (entry_actions E p entries) X X' Y)
    as (Y' & HrunY & Hset & _ & Hout); try done.
  - by apply entry_actions_NoDup.
  - apply entry_actions_extending.
  - apply Forall_app. split.
    + apply Forall_map, Forall_forall. intros f _. apply file_action_repeatable.
    + apply Forall_map, Forall_forall. intros n Hn.
      apply elem_of_subdirs in Hn as [Hn _].
      rewrite Forall_forall in Hrep. by apply Hrep.
  - intros it Hin k Hk. apply Hall.
    + etrans; [|exact Hk]. by exists [it.1].
    + intros ->. by apply prefix_snoc_self in Hk.
  - exists Y'. split; [done|]. split; [|split].
    + intros k [k' ->] Hne.
      destruct k' as [|x k'']; [by rewrite app_nil_r in Hne|].
      destruct (decide (x ∈ (entry_actions E p entries).*1)) as [Hin|Hnin].
      * apply list_elem_of_fmap in Hin as (it & -> & Hin).
        apply (Hset it Hin). exists k''. by rewrite <- app_assoc.
      * assert (∀ it, it ∈ entry_actions E p entries →
                  ¬ (p ++ [it.1]) `prefix_of` (p ++ x :: k'')) as Hno.
        { intros it Hin [k3 Hk3]. rewrite <- app_assoc in Hk3.
          apply app_inv_head in Hk3. injection Hk3 as -> _.
          apply Hnin. by apply list_elem_of_fmap_2. }
        rewrite (Hout _ Hno).
        rewrite (run_actions_local p _ X X' Hloc (proj1 (proj2 Hag)) Hrun _ Hno).
        destruct (Hall (p ++ x :: k'')) as [HY|[HY|HY]];
          [by eexists|done|by left| |by right].
        left. rewrite HY.
        apply (run_actions_local p _ X X' Hloc (proj1 (proj2 Hag)) Hrun _ Hno).
    + apply Hout. intros it _. apply prefix_snoc_self.
    + apply (run_actions_local p _ X X' Hloc (proj1 (proj2 Hag)) Hrun).
      intros it _. apply prefix_snoc_self.
Qed.

(** A walked entry is repeatable. *)
Lemma walk_entry_repeatable n :
  unique_names n →
  ∀ rel, repeatable_action target rel (pname n, walk_entry_pure E rel n).
Proof.
  induction n as [name content|name entries IH] using pnode_induct;
    intros Hun rel X X' Y Hrun Hall Hag Hmarker.
  { injection Hrun as <-. exists Y. split; [done|]. intros k Hk.
    destruct (Hall k Hk) as [HY|[HY|HY]]; [by left|by left|by right]. }
  apply unique_names_dir in Hun as [Hnd Hun].
  cbn [fst snd pname] in *. rewrite walk_entry_pure_actions in Hrun |- *.
  destruct (ensure_dir E (rel ++ [name]) X) as [Xm|] eqn:HenX; [|done].
  simpl in Hrun.
  pose proof (ensure_dir_prefixes E _ _ _ _ (proj1 (proj2 Hag)) HenX) as HpXm.
  pose proof (run_actions_extends _ _ _
                (entry_actions_extending E (rel ++ [name]) entries) Hrun) as Hext.
  assert (X' !! (rel ++ [name]) = Xm !! (rel ++ [name])) as Hp'.
  { apply (run_actions_local (rel ++ [name]) _ Xm X'
             (entry_actions_local E _ entries) HpXm Hrun).
    intros it _. apply prefix_snoc_self. }
  destruct (ensure_dir_sim rel name X Xm X' Y HenX Hext Hp' Hall Hag Hmarker)
    as (Ym & HenY & Hagm & HYm & Hat).
  destruct (entries_sim (rel ++ [name]) entries Xm X' Ym)
    as (Y' & HrunY & Hset & HY'p & _); try done.
  - rewrite Forall_forall in IH, Hun. apply Forall_forall. intros n Hn.
    apply IH; [done|]. by apply Hun.
  - intros k Hk Hne. rewrite (HYm k Hne).
    rewrite (ensure_dir_local E _ _ _ _ k (proj1 (proj2 Hag)) HenX Hne).
    by apply Hall.
  - exists Y'. rewrite HenY. split; [done|]. intros k Hk.
    destruct (decide (k = rel ++ [name])) as [->|Hne]; [|by apply Hset].
    rewrite HY'p, Hp'. destruct Hat as [Hat|[HYp HXp]]; [by left|].
    rewrite HYp, HXp.
    destruct (Hall (rel ++ [name]) Hk) as [HY|[HY|HY]]; [by left| |by right].
    left. by rewrite HY, Hp'.
Qed.

End WalkTwice.

(** ** The delete-list, read a second time *)

Section Deletions.

Context (E : env).

Implicit Types (p q k : path) (m X Y : gmap path node).

Lemma remove_below_Some q m k v :
  remove_below q m !! k = Some v ↔ m !! k = Some v ∧ ¬ q `prefix_of` k.
Proof. unfold remove_below. by rewrite map_lookup_filter_Some. Qed.

Lemma remove_below_ne q m k :
  ¬ q `prefix_of` k → remove_below q m !! k = m !! k.
Proof.
  intros Hk. destruct (m !! k) as [v|] eqn:Hm.
  - by apply remove_below_Some.
  - destruct (remove_below q m !! k) as [v|] eqn:Hr; [|done].
    apply remove_below_Some in Hr as [Hr _]. congruence.
Qed.

Lemma remove_below_eq q m k :
  q `prefix_of` k → remove_below q m !! k = None.
Proof.
  intros Hk. destruct (remove_below q m !! k) as [v|] eqn:Hr; [|done].
  by apply remove_below_Some in Hr as [_ Hr].
Qed.

(** Deletions only remove. *)
Lemma delete_at_Some q m k v :
  delete_at E q m !! k = Some v → m !! k = Some v.
Proof.
  unfold delete_at. destruct (m !! q) as [[c|]|]; [| |done].
  - destruct (den E (OpRemove q)); [done|].
    intros Hk. by apply lookup_delete_Some in Hk as [_ Hk].
  - destruct (den E (OpRmtree q)); [done|].
    intros Hk. by apply remove_below_Some in Hk as [Hk _].
Qed.

Lemma delete_line_pure_cases line :
  (∀ m, delete_line_pure E line m = m)
  ∨ ∃ q, q ≠ [] ∧ ∀ m, delete_line_pure E line m = delete_at E q m.
Proof.
  unfold delete_line_pure. destruct (str_truthy (Py.strip line)); [|by left].
  destruct (resolve (Py.strip line)) as [q|] eqn:Hq; [|by left].
  right. exists q. split; [|done]. by eapply resolve_nonempty.
Qed.

Lemma delete_at_well_formed q m :
  well_formed m → well_formed (delete_at E q m).
Proof.
  intros [Hroot Hwf]. unfold delete_at.
  destruct (m !! q) as [[c|]|] eqn:Hq; [| |done].
  - destruct (den E (OpRemove q)); [done|]. split.
    + apply lookup_delete_None. by right.
    + intros k q' [v Hk] Hpre Hne Hne'.
      apply lookup_delete_Some in Hk as [Hqk Hk].
      rewrite lookup_delete_ne; [by eapply Hwf|].
      intros ->. rewrite (Hwf k q') in Hq; done.
  - destruct (den E (OpRmtree q)); [done|]. split.
    + destruct (remove_below q m !! []) as [v|] eqn:Hr; [|done].
      apply remove_below_Some in Hr as [Hr _]. congruence.
    + intros k q' [v Hk] Hpre Hne Hne'.
      apply remove_below_Some in Hk as [Hk Hqk].
      rewrite remove_below_ne; [by eapply Hwf|].
      intros Hqq'. apply Hqk. by etrans.
Qed.

(** What the first reading left in place, the second one leaves too. *)
Lemma delete_at_survive q X Y k v :
  q ≠ [] → well_formed X →
  delete_at E q X !! k = Some v →
  (∃ v', Y !! k = Some v' ∧ same_kind v v') →
  delete_at E q Y !! k = Y !! k.
Proof.
  intros Hq [_ Hwf] Hsurv (v' & HY & Hkind).
  pose proof (delete_at_Some _ _ _ _ Hsurv) as HX.
  unfold delete_at in Hsurv |- *.
  destruct (Y !! q) as [[c|]|] eqn:HYq; [| |done].
  - destruct (den E (OpRemove q)) eqn:Hden; [done|].
    destruct (decide (q = k)) as [->|Hne]; [|by apply lookup_delete_ne].
    rewrite HX in Hsurv. rewrite HY in HYq. injection HYq as ->.
    destruct v as [c'|]; [|done].
    by rewrite lookup_delete_eq in Hsurv.
  - destruct (den E (OpRmtree q)) eqn:Hden; [done|].
    destruct (decide (q `prefix_of` k)) as [Hpre|Hnpre];
      [|by apply remove_below_ne].
    assert (X !! q = Some Dir) as HXq.
    { destruct (decide (q = k)) as [->|Hne].
      - rewrite HY in HYq. injection HYq as ->. by destruct v.
      - by apply (Hwf k q). }
    rewrite HXq in Hsurv. by rewrite remove_below_eq in Hsurv.
Qed.

Lemma delete_line_pure_Some line m k v :
  delete_line_pure E line m !! k = Some v → m !! k = Some v.
Proof.
  destruct (delete_line_pure_cases line) as [Hid|(q & _ & Hq)].
  - by rewrite Hid.
  - rewrite Hq. apply delete_at_Some.
Qed.

Lemma delete_line_pure_well_formed line m :
  well_formed m → well_formed (delete_line_pure E line m).
Proof.
  destruct (delete_line_pure_cases line) as [Hid|(q & _ & Hq)].
  - by rewrite Hid.
  - rewrite Hq. apply delete_at_well_formed.
Qed.

Lemma deletions_Some ls m k v :
  fold_left (λ m line, delete_line_pure E line m) ls m !! k = Some v →
  m !! k = Some v.
Proof.
  revert m. induction ls as [|line ls IH]; intros m; simpl; [done|].
  intros Hk. by apply IH, delete_line_pure_Some in Hk.
Qed.

Lemma deletions_well_formed ls m :
  well_formed m →
  well_formed (fold_left (λ m line, delete_line_pure E line m) ls m).
Proof.
  revert m. induction ls as [|line ls IH]; intros m Hwf; simpl; [done|].
  by apply IH, delete_line_pure_well_formed.
Qed.

Lemma deletions_survive ls X Y :
  well_formed X →
  (∀ q v, fold_left (λ m line, delete_line_pure E line m) ls X !! q = Some v →
          ∃ v', Y !! q = Some v' ∧ same_kind v v') →
  ∀ q v, fold_left (λ m line, delete_line_pure E line m) ls X !! q = Some v →
         fold_left (λ m line, delete_line_pure E line m) ls Y !! q = Y !! q.
Proof.
  revert X Y. induction ls as [|line ls IH]; intros X Y Hwf Hkind q v Hq;
    simpl in *; [done|].
  assert (∀ q v,
    fold_left (λ m line, delete_line_pure E line m) ls
              (delete_line_pure E line X) !! q = Some v →
    delete_line_pure E line Y !! q = Y !! q) as Hstep.
  { intros q' v' Hq'. pose proof (deletions_Some _ _ _ _ Hq') as H1.
    destruct (delete_line_pure_cases line) as [Hid|(r & Hr & Hat)];
      [by rewrite Hid|].
    rewrite Hat in H1 |- *. eapply delete_at_survive; eauto. }
  rewrite (IH (delete_line_pure E line X) (delete_line_pure E line Y)) with (v := v);
    [by eapply Hstep|by apply delete_line_pure_well_formed| |done].
  intros q' v' Hq'. rewrite (Hstep q' v' Hq'). by apply Hkind.
Qed.

End Deletions.

(** ** A package applied twice, on the install root *)

Section Twice.

Context (E : env) (target : string).

Implicit Types (p q k : path) (m X Y A B : gmap path node).

Lemma deletions_sim ls A XD B :
  well_formed A →
  extends (fold_left (λ m line, delete_line_pure E line m) ls A) XD →
  (∀ k, k ≠ LOCAL_VERSION_FILE → B !! k = XD !! k) →
  B !! LOCAL_VERSION_FILE = Some (File target) →
  XD !! LOCAL_VERSION_FILE ≠ Some Dir →
  ∀ k, let XC := fold_left (λ m line, delete_line_pure E line m) ls A in
       let YC := fold_left (λ m line, delete_line_pure E line m) ls B in
       YC !! k = XC !! k ∨ YC !! k = XD !! k
       ∨ (k = LOCAL_VERSION_FILE ∧ YC !! k = Some (File target)).
Proof.
  intros Hwf Hext HB Hmark HXD k XC YC.
  assert (∀ q v, XC !! q = Some v → ∃ v', B !! q = Some v' ∧ same_kind v v')
    as Hkind.
  { intros q v Hq. destruct (Hext q) as [Hd Hf].
    destruct (decide (q = LOCAL_VERSION_FILE)) as [->|Hne].
    - exists (File target). split; [done|].
      destruct v as [c|]; [done|]. by apply Hd in Hq.
    - rewrite (HB q Hne). destruct v as [c|].
      + destruct (Hf c Hq) as [c' Hc']. by exists (File c').
      + exists Dir. split; [by apply Hd|done]. }
  assert (∀ v, YC !! k = Some v → B !! k = Some v →
            YC !! k = XD !! k
            ∨ (k = LOCAL_VERSION_FILE ∧ YC !! k = Some (File target))) as HinB.
  { intros v HY HBk. destruct (decide (k = LOCAL_VERSION_FILE)) as [->|Hne].
    - right. split; [done|]. congruence.
    - left. rewrite HY, <- HBk. by apply HB. }
  destruct (XC !! k) as [v|] eqn:HX.
  - pose proof (deletions_survive E ls A B Hwf Hkind k v HX) as HY.
    fold YC in HY. destruct (Hkind k v HX) as (v' & HBk & _).
    right. apply (HinB v'); congruence.
  - destruct (YC !! k) as [v|] eqn:HY; [|by left].
    right. apply (HinB v); [done|].
    by apply deletions_Some in HY.
Qed.

Lemma cleanse_pure_sim entries A XC XD B :
  well_formed A → cleanse_pure E entries A = Some XC → extends XC XD →
  (∀ k, k ≠ LOCAL_VERSION_FILE → B !! k = XD !! k) →
  B !! LOCAL_VERSION_FILE = Some (File target) →
  XD !! LOCAL_VERSION_FILE ≠ Some Dir →
  ∃ YC, cleanse_pure E entries B = Some YC
    ∧ (∀ k, YC !! k = XC !! k ∨ YC !! k = XD !! k
            ∨ (k = LOCAL_VERSION_FILE ∧ YC !! k = Some (File target)))
    ∧ (∀ k v, YC !! k = Some v → B !! k = Some v).
Proof.
  intros Hwf Hcl Hext HB Hmark HXD. unfold cleanse_pure in *.
  destruct (find_entry (DELETE_LIST_FILE E) entries) as [[name content|name es]|];
    [|done|].
  - destruct (den E (OpRead (TEMP_DIR ++ [DELETE_LIST_FILE E]))); [done|].
    injection Hcl as <-. eexists. split; [done|]. split.
    + intros k. by apply deletions_sim.
    + intros k v. apply deletions_Some.
  - injection Hcl as <-. exists B. split; [done|]. split; [|done].
    intros k. by apply (deletions_sim [] A XD B).
Qed.

Lemma cleanse_pure_Some entries A XC k v :
  cleanse_pure E entries A = Some XC → XC !! k = Some v → A !! k = Some v.
Proof.
  unfold cleanse_pure.
  destruct (find_entry (DELETE_LIST_FILE E) entries) as [[name content|name es]|];
    [|done|by intros [= <-]].
  destruct (den E (OpRead (TEMP_DIR ++ [DELETE_LIST_FILE E]))); [done|].
  intros [= <-]. apply deletions_Some.
Qed.

Lemma walk_pure_extends entries X X' :
  walk_pure E entries X = Some X' → extends X X'.
Proof.
  rewrite walk_pure_actions. apply run_actions_extends, entry_actions_extending.
Qed.

Lemma walk_pure_sim entries XC XD YC :
  NoDup (map pname entries) → Forall unique_names entries →
  walk_pure E entries XC = Some XD →
  (∀ k, YC !! k = XC !! k ∨ YC !! k = XD !! k
        ∨ (k = LOCAL_VERSION_FILE ∧ YC !! k = Some (File target))) →
  XD !! LOCAL_VERSION_FILE ≠ Some Dir →
  ∃ YD, walk_pure E entries YC = Some YD
    ∧ (∀ k, k ≠ [] → YD !! k = XD !! k
            ∨ (k = LOCAL_VERSION_FILE ∧ YD !! k = Some (File target)))
    ∧ YD !! [] = YC !! [] ∧ XD !! [] = XC !! [].
Proof.
  intros Hnd Hun Hrun Hall Hmark. rewrite walk_pure_actions in Hrun.
  destruct (entries_sim E target [] entries XC XD YC)
    as (YD & HrunY & Hset & HY & HX); try done.
  - apply Forall_forall. intros n Hn rel. apply walk_entry_repeatable.
    rewrite Forall_forall in Hun. by apply Hun.
  - split; [done|]. split; intros q Hq; by apply prefix_nil_inv in Hq as ->.
  - exists YD. rewrite walk_pure_actions. split; [done|]. split; [|done].
    intros k Hk. apply Hset; [apply prefix_nil|done].
Qed.

(** The delete-list and the walk, run again on what they and the commit
    produced, end on the same install root. *)
Lemma install_pure_twice entries A XC XD :
  well_formed A →
  NoDup (map pname entries) → Forall unique_names entries →
  cleanse_pure E entries A = Some XC → walk_pure E entries XC = Some XD →
  XD !! ["SCRIPTS"] = Some Dir → XD !! LOCAL_VERSION_FILE ≠ Some Dir →
  ∃ YC YD,
    cleanse_pure E entries (<[LOCAL_VERSION_FILE := File target]> XD) = Some YC
    ∧ walk_pure E entries YC = Some YD
    ∧ YD !! ["SCRIPTS"] = Some Dir ∧ YD !! LOCAL_VERSION_FILE ≠ Some Dir
    ∧ <[LOCAL_VERSION_FILE := File target]> YD
      = <[LOCAL_VERSION_FILE := File target]> XD.
Proof.
  intros Hwf Hnd Hun Hcl Hwalk Hscripts Hmark.
  pose proof (walk_pure_extends _ _ _ Hwalk) as Hext.
  destruct (cleanse_pure_sim entries A XC XD
              (<[LOCAL_VERSION_FILE := File target]> XD))
    as (YC & HclY & Hall & Hsub); try done.
  { intros k Hk. by rewrite lookup_insert_ne. }
  { by rewrite lookup_insert_eq. }
  destruct (walk_pure_sim entries XC XD YC) as (YD & HwalkY & Hset & HYr & HXr);
    try done.
  exists YC, YD. split; [done|]. split; [done|]. split; [|split].
  - by destruct (Hset ["SCRIPTS"]) as [->|[? _]].
  - destruct (Hset LOCAL_VERSION_FILE) as [->|[_ ->]]; done.
  - apply map_eq. intros k.
    destruct (decide (k = LOCAL_VERSION_FILE)) as [->|Hne];
      [by rewrite !lookup_insert_eq|].
    rewrite !lookup_insert_ne by done.
    destruct (decide (k = [])) as [->|Hk].
    + rewrite HYr, HXr.
      assert (XC !! [] = None) as HXC.
      { destruct (XC !! []) as [v|] eqn:Hv; [|done].
        apply (cleanse_pure_Some _ _ _ _ _ Hcl) in Hv. destruct Hwf. congruence. }
      rewrite HXC. destruct (YC !! []) as [v|] eqn:Hv; [|done].
      apply Hsub in Hv. rewrite lookup_insert_ne in Hv by done. congruence.
    + by destruct (Hset k Hk) as [->|[? _]].
Qed.

End Twice.

(** ** An application that succeeds, step by step *)

Section ApplySteps.

Context (E : env) (Hstatic : static E).

Lemma stage_inv w w' :
  stage E w = (Ret tt, w') →
  inst w' = inst w ∧ temp w' = TempDir [] ∧ den E (OpMkdir TEMP_DIR) = false.
Proof.
  unfold stage. rewrite get_world_bind, bind_run.
  destruct (temp w) eqn:Ht; simpl.
  - rewrite bind_run, check_static by done.
    destruct (den E (OpMkdir TEMP_DIR)); [done|]. by intros [= <-].
  - done.
  - rewrite bind_run, check_static by done.
    destruct (den E (OpRmtree TEMP_DIR)); [done|]. simpl.
    rewrite bind_run, check_static by done. simpl.
    destruct (den E (OpMkdir TEMP_DIR)); [done|]. by intros [= <-].
Qed.

Lemma stage_intro w :
  temp w = TempAbsent → den E (OpMkdir TEMP_DIR) = false →
  ∃ w', stage E w = (Ret tt, w') ∧ inst w' = inst w ∧ temp w' = TempDir [].
Proof.
  intros Ht Hden. unfold stage. rewrite get_world_bind, bind_run, Ht. simpl.
  rewrite bind_run, check_static, Hden by done. by eexists.
Qed.

Lemma extract_inv update_file w w' :
  extract E update_file w = (Ret tt, w') →
  ∃ c a, inst w !! update_file = Some (File c)
    ∧ den E (OpRead update_file) = false
    ∧ unzip E c = Some a ∧ complete a = true
    ∧ inst w' = inst w ∧ temp w' = TempDir (members a).
Proof.
  unfold extract. rewrite get_world_bind.
  destruct (inst w !! update_file) as [[c|]|] eqn:Hpkg; [|done..].
  rewrite bind_run, check_static by done.
  destruct (den E (OpRead update_file)); [done|].
  destruct (unzip E c) as [a|] eqn:Hzip; [|done].
  rewrite bind_run. simpl. destruct (complete a) eqn:Hc; [|done].
  intros [= <-]. by exists c, a.
Qed.

Lemma extract_intro update_file w c a :
  inst w !! update_file = Some (File c) → den E (OpRead update_file) = false →
  unzip E c = Some a → complete a = true →
  ∃ w', extract E update_file w = (Ret tt, w')
    ∧ inst w' = inst w ∧ temp w' = TempDir (members a).
Proof.
  intros Hpkg Hden Hzip Hc. unfold extract. rewrite get_world_bind, Hpkg.
  rewrite bind_run, check_static, Hden, Hzip by done.
  rewrite bind_run. simpl. rewrite Hc. by eexists.
Qed.

Lemma commit_inv target w w' :
  commit E target w = (Ret tt, w') →
  commits E (inst w)
  ∧ inst w' = <[LOCAL_VERSION_FILE := File target]> (inst w)
  ∧ temp w' = temp w.
Proof.
  unfold commits.
  unfold commit. rewrite bind_run. simpl. rewrite write_file_static by done.
  cbn [inst temp clock UPDATE_WARNINGS trace].
  change (is_dir (inst w) (parent LOCAL_VERSION_FILE))
    with (match inst w !! ["SCRIPTS"] with Some Dir => true | _ => false end).
  change (is_dir (inst w) LOCAL_VERSION_FILE)
    with (match inst w !! LOCAL_VERSION_FILE with
          | Some Dir => true | _ => false end).
  destruct (inst w !! ["SCRIPTS"]) as [[c|]|]; [done| |done].
  destruct (inst w !! LOCAL_VERSION_FILE) as [[c|]|] eqn:Hm; simpl; [|done|];
    (destruct (den E (OpOpenW LOCAL_VERSION_FILE)); [done|]);
    (destruct (den E (OpWrite LOCAL_VERSION_FILE)); [done|]);
    by intros [= <-].
Qed.

Lemma commit_intro target w :
  commits E (inst w) →
  ∃ w', commit E target w = (Ret tt, w')
    ∧ inst w' = <[LOCAL_VERSION_FILE := File target]> (inst w).
Proof.
  intros (Hs & Hm & Ho & Hw). unfold commit. rewrite bind_run. simpl.
  rewrite write_file_static by done.
  cbn [inst temp clock UPDATE_WARNINGS trace].
  change (is_dir (inst w) (parent LOCAL_VERSION_FILE))
    with (match inst w !! ["SCRIPTS"] with Some Dir => true | _ => false end).
  change (is_dir (inst w) LOCAL_VERSION_FILE)
    with (match inst w !! LOCAL_VERSION_FILE with
          | Some Dir => true | _ => false end).
  rewrite Hs, Ho, Hw.
  destruct (inst w !! LOCAL_VERSION_FILE) as [[c|]|]; [|done|]; by eexists.
Qed.

Lemma install_inv update_file w w' :
  install E update_file w = (Ret tt, w') →
  installs E update_file (inst w) (inst w') ∧ ∃ es, temp w' = TempDir es.
Proof.
  unfold install. intros Hrun.
  apply run_bind_inv in Hrun as [[_ ?]|([] & w1 & Hstage & Hrun)]; [done|].
  apply stage_inv in Hstage as (Hi1 & Ht1 & Hmk).
  apply run_bind_inv in Hrun as [[_ ?]|([] & w2 & Hext & Hrun)]; [done|].
  apply extract_inv in Hext as (c & a & Hpkg & Hrd & Hzip & Hc & Hi2 & Ht2).
  apply run_bind_inv in Hrun as [[_ ?]|([] & w3 & Hcl & Hrun)]; [done|].
  destruct (cleanse_run E Hstatic _ w2 Ht2) as (w3' & Ht3 & [[Hcl' HclP]|[Hcl' _]]);
    rewrite Hcl in Hcl'; [|done]. injection Hcl' as <-.
  apply run_bind_inv in Hrun as [[_ ?]|([] & w4 & Hwalk & Hrun)]; [done|].
  destruct (walk_run E Hstatic _ w3 Ht3) as (w4' & Ht4 & [[Hwalk' HwalkP]|[Hwalk' _]]);
    rewrite Hwalk in Hwalk'; [|done]. injection Hwalk' as <-.
  injection Hrun as <-. split; [|by eexists]. exists c, a, (inst w3).
  rewrite Hi1 in Hpkg. rewrite Hi2, Hi1 in HclP. done.
Qed.

Lemma install_intro update_file w XD :
  temp w = TempAbsent → installs E update_file (inst w) XD →
  ∃ w', install E update_file w = (Ret tt, w') ∧ inst w' = XD.
Proof.
  intros Ht (c & a & XC & Hpkg & Hrd & Hzip & Hc & Hmk & HclP & HwalkP).
  unfold install.
  destruct (stage_intro w Ht Hmk) as (w1 & Hstage & Hi1 & Ht1).
  rewrite (bind_ret_run _ _ _ _ _ Hstage).
  rewrite <- Hi1 in Hpkg, HclP.
  destruct (extract_intro update_file w1 c a Hpkg Hrd Hzip Hc)
    as (w2 & Hext & Hi2 & Ht2).
  rewrite (bind_ret_run _ _ _ _ _ Hext). rewrite <- Hi2 in HclP.
  destruct (cleanse_run E Hstatic _ w2 Ht2) as (w3 & Ht3 & [[Hcl HclP']|[_ HclP']]);
    [|congruence].
  rewrite (bind_ret_run _ _ _ _ _ Hcl).
  assert (inst w3 = XC) as Hi3 by congruence. rewrite <- Hi3 in HwalkP.
  destruct (walk_run E Hstatic _ w3 Ht3) as (w4 & Ht4 & [[Hwalk HwalkP']|[_ HwalkP']]);
    [|congruence].
  rewrite (bind_ret_run _ _ _ _ _ Hwalk). eexists. split; [done|].
  simpl. congruence.
Qed.

End ApplySteps.

(** ** The same package, applied again *)

Section ApplyTwice.

Context (E : env) (Hstatic : static E).

Lemma installs_twice update_file target A XD :
  well_formed A → unique_members E →
  installs E update_file A XD → commits E XD →
  <[LOCAL_VERSION_FILE := File target]> XD !! update_file = A !! update_file →
  ∃ YD, installs E update_file (<[LOCAL_VERSION_FILE := File target]> XD) YD
    ∧ commits E YD
    ∧ <[LOCAL_VERSION_FILE := File target]> YD
      = <[LOCAL_VERSION_FILE := File target]> XD.
Proof.
  intros Hwf Huniq (c & a & XC & Hpkg & Hrd & Hzip & Hc & Hmk & Hcl & Hwalk)
         (Hs & Hm & Ho & Hw) Hsame.
  destruct (Huniq c a Hzip) as [Hnd Hun].
  destruct (install_pure_twice E target (members a) A XC XD)
    as (YC & YD & HclY & HwalkY & HsY & HmY & Heq); try done.
  exists YD. split; [|done].
  exists c, a, YC. by rewrite Hsame.
Qed.

Lemma cleanup_temp_static w :
  ∃ w', cleanup_temp E w = (Ret tt, w') ∧ inst w' = inst w
    ∧ (temp w' = TempAbsent
       ∨ (temp w' = temp w ∧ (temp w = TempFile
                               ∨ den E (OpRmtree TEMP_DIR) = true))).
Proof.
  unfold cleanup_temp. rewrite get_world_bind.
  destruct (temp w) eqn:Ht.
  - exists w. by auto.
  - eexists. split; [done|]. simpl. by auto.
  - rewrite try_except_warning, bind_run, check_static by done.
    destruct (den E (OpRmtree TEMP_DIR)); simpl; eexists; (split; [done|]);
      simpl; by auto.
Qed.

Lemma apply_update_true_inv update_file target w w' :
  apply_update E update_file target w = (Ret true, w') →
  ∃ XD, installs E update_file (inst w) XD ∧ commits E XD
    ∧ inst w' = <[LOCAL_VERSION_FILE := File target]> XD
    ∧ (temp w' = TempAbsent
       ∨ ∃ es, temp w' = TempDir es ∧ den E (OpRmtree TEMP_DIR) = true).
Proof.
  intros Hrun. destruct (get_local_version_frame E w)
    as (backup & w0 & Hglv & Hi0 & Ht0 & _).
  destruct (apply_update_cases E _ _ _ _ _ _ _ Hglv Hrun)
    as (evs & _ & [(? & ? & _ & _ & _ & ? & _)
                  |[(w1 & w2 & Hin & Hco & Hcl & _)
                   |(? & ? & ? & _ & _ & _ & _ & ? & _)]]); [done| |done].
  apply install_inv in Hin as [Hin [es Ht1]]; [|done].
  apply commit_inv in Hco as (Hco & Hi2 & Ht2); [|done].
  destruct (cleanup_temp_static w2) as (w'' & Hcl' & Hi3 & Ht3).
  rewrite Hcl in Hcl'. injection Hcl' as <-.
  exists (inst w1). rewrite Hi0 in Hin. split; [done|]. split; [done|].
  split; [congruence|].
  destruct Ht3 as [Ht3|[Ht3 [Hf|Hden]]]; [by left|congruence|].
  right. exists es. split; [congruence|done].
Qed.

Lemma apply_update_true_intro update_file target w XD :
  temp w = TempAbsent →
  installs E update_file (inst w) XD → commits E XD →
  ∃ w', apply_update E update_file target w = (Ret true, w')
    ∧ inst w' = <[LOCAL_VERSION_FILE := File target]> XD.
Proof.
  intros Ht Hin Hco. destruct (get_local_version_frame E w)
    as (backup & w0 & Hglv & Hi0 & Ht0 & _).
  rewrite <- Hi0 in Hin. rewrite <- Ht0 in Ht.
  destruct (install_intro E Hstatic update_file w0 XD Ht Hin)
    as (w1 & Hinstall & Hi1).
  rewrite <- Hi1 in Hco.
  destruct (commit_intro E Hstatic target w1 Hco) as (w2 & Hcommit & Hi2).
  destruct (cleanup_temp_static w2) as (w' & Hcl & Hi3 & _).
  exists w'. split; [|congruence].
  unfold apply_update. rewrite (bind_ret_run _ _ _ _ _ Hglv).
  unfold try_finally, try_except.
  rewrite (bind_ret_run _ _ _ _ _ Hinstall), (bind_ret_run _ _ _ _ _ Hcommit).
  simpl. by rewrite Hcl.
Qed.

(** With the work area left behind and not removable, the next
    application stops at once and writes the marker back. *)
Lemma apply_update_blocked update_file target w es :
  temp w = TempDir es → den E (OpRmtree TEMP_DIR) = true →
  inst w !! LOCAL_VERSION_FILE = Some (File target) →
  Py.strip target = target → commits E (inst w) →
  ∃ w', apply_update E update_file target w = (Ret false, w')
    ∧ inst w' = inst w.
Proof.
  intros Ht Hden Hmark Hstrip (Hs & Hm & Ho & Hw).
  destruct (get_local_version_frame E w)
    as (backup & w0 & Hglv & Hi0 & Ht0 & _).
  assert (∃ w1, install E update_file w0 = (Raise, w1) ∧ inst w1 = inst w0)
    as (w1 & Hinstall & Hi1).
  { unfold install, stage. rewrite bind_run, get_world_bind, Ht0, Ht.
    rewrite !bind_run, check_static, Hden by done. by eexists. }
  assert (∃ w2, restore E backup w1 = (Ret tt, w2) ∧ inst w2 = inst w1)
    as (w2 & Hrestore & Hi2).
  { rewrite restore_run. destruct backup as [b|]; [|by eexists].
    destruct (str_truthy b); [|by eexists].
    apply get_local_version_some in Hglv as (c & Hc & ->).
    assert (c = target) as -> by congruence. rewrite Hstrip.
    unfold restore_write. rewrite bind_run. simpl.
    rewrite write_file_static by done.
    cbn [inst temp clock UPDATE_WARNINGS trace].
    change (is_dir (inst w1) (parent LOCAL_VERSION_FILE))
      with (match inst w1 !! ["SCRIPTS"] with Some Dir => true | _ => false end).
    change (is_dir (inst w1) LOCAL_VERSION_FILE)
      with (match inst w1 !! LOCAL_VERSION_FILE with
            | Some Dir => true | _ => false end).
    rewrite Hi1, Hi0, Hs, Hmark, Ho, Hw. simpl. eexists. split; [done|].
    simpl. apply insert_id. congruence. }
  destruct (cleanup_temp_static w2) as (w' & Hcl & Hi3 & _).
  exists w'. split; [|congruence].
  unfold apply_update. rewrite (bind_ret_run _ _ _ _ _ Hglv).
  unfold try_finally, try_except.
  rewrite (bind_raise_run _ _ _ _ Hinstall), (bind_ret_run _ _ _ _ _ Hrestore).
  simpl. by rewrite Hcl.
Qed.

End ApplyTwice.

Lemma well_formedb_sound (m : gmap path node) :
  well_formedb m = true → well_formed m.
Proof.
  unfold well_formedb. intros [Hroot Hall]%andb_prop.
  apply bool_decide_eq_true in Hroot. split; [done|].
  intros k q [v Hk] [k' ->] Hne Hne'. rewrite forallb_forall in Hall.
  apply elem_of_map_to_list, list_elem_of_In in Hk.
  specialize (Hall _ Hk). cbn [fst] in Hall. rewrite forallb_forall in Hall.
  assert (k' ≠ []) as Hk' by (intros ->; by rewrite app_nil_r in Hne).
  specialize (Hall (length q)). rewrite take_app_length in Hall.
  assert (is_dir m q = true) as Hd.
  { apply Hall, in_seq. rewrite length_app.
    destruct q; [done|]. destruct k'; [done|]. simpl. lia. }
  unfold is_dir in Hd. destruct q as [|x q]; [done|].
  by destruct (m !! (x :: q)) as [[]|].
Qed.

Lemma static_no_faults unzip http_get disk_free name :
  static (Env unzip no_faults http_get disk_free name).
Proof. by intros t op. Qed.

Ltac not_among :=
  let H := fresh in
  intros H; repeat (apply elem_of_cons in H as [H|H]; [discriminate|]);
  by apply elem_of_nil in H.
Ltac distinct_names :=
  repeat first
    [ apply NoDup_nil_2 | apply NoDup_cons_2; [not_among|] | not_among ].

Lemma unique_members_demo : unique_members env_demo.
Proof.
  intros c a. simpl. destruct (String.eqb c "PKG"); [|done].
  intros [= <-]. simpl. split; [distinct_names|].
  repeat constructor; simpl; repeat split; distinct_names.
Qed.

(** ** Properties of the patch applier *)



(** C3.  When an application fails before the commit is complete and the
    write that restores the marker succeeds, the marker afterwards holds
    the value snapshotted before the call, and reading it gives that
    value. *)
Theorem rollback_restores_snapshot (E : env) (update_file : path)
    (target b : string) (w w0 w1 w2 : world) :
  get_local_version E w = (Ret (Some b), w0) →
  (install E update_file ;; commit E target ;; mret true) w0 = (Raise, w1) →
  str_truthy b = true →
  restore_write E b w1 = (Ret tt, w2) →
  ∃ w', apply_update E update_file target w = (Ret false, w')
    ∧ inst w' !! LOCAL_VERSION_FILE = Some (File b)
    ∧ (denied E (clock w') (OpRead LOCAL_VERSION_FILE) = false →
       (get_local_version E w').1 = Ret (Some b)).
Proof.
  intros Hglv Hbody Hb Hrw.
  assert (restore E (Some b) w1 = (Ret tt, w2)) as Hr
    by (unfold restore, try_except; by rewrite Hb, Hrw).
  destruct (total_run (cleanup_temp E) w2 (cleanup_temp_total E)) as ([] & w' & Hcl).
  exists w'.
  assert (inst w' !! LOCAL_VERSION_FILE = Some (File b)) as Hm.
  { pose proof (cleanup_temp_inst E (inst w2) w2 eq_refl) as Hi.
    rewrite Hcl in Hi. simpl in Hi. rewrite Hi.
    unfold restore_write in Hrw. rewrite bind_run in Hrw. simpl in Hrw.
    apply write_file_ok in Hrw. rewrite Hrw. simpl. apply lookup_insert_eq. }
  split; [|split; [done|]].
  - unfold apply_update. rewrite (bind_ret_run _ _ _ _ _ Hglv).
    unfold try_finally, try_except. rewrite Hbody.
    rewrite bind_run, Hr. simpl. by rewrite Hcl.
  - intros Hd. rewrite (get_local_version_file E w' b Hm Hd).
    by rewrite (get_local_version_stripped E _ _ _ Hglv).
Qed.

Lemma rollback_restores_snapshot_witness :
  ∃ w', apply_update env_offline ["Update_1.1.zip"] "1.1"
          (fresh_world (installed ("1.0" ++ String "010" EmptyString)))
        = (Ret false, w')
    ∧ inst w' !! LOCAL_VERSION_FILE = Some (File "1.0").
Proof.
  pose (E := env_offline). pose (u := ["Update_1.1.zip"] : path).
  pose (w := fresh_world (installed ("1.0" ++ String "010" EmptyString))).
  pose (w0 := (get_local_version E w).2).
  pose (w1 := ((install E u ;; commit E "1.1" ;; mret true) w0).2).
  destruct (rollback_restores_snapshot E u "1.1" "1.0" w w0 w1
              (restore_write E "1.0" w1).2)
    as (w' & H1 & H2 & _).
  - vm_compute. reflexivity.
  - vm_compute. reflexivity.
  - reflexivity.
  - vm_compute. reflexivity.
  - exists w'. split; [exact H1 | exact H2].
Defined.

(** ** Properties of the fetcher and of the orchestrator *)

(** C9.  When the server reports a content length, the preflight asks for
    free space strictly greater than twice that size; when there is not
    that much, [download_update] returns [None] without writing the
    package, and the chain stops there with no later version fetched. *)
Theorem disk_space_preflight (E : env) (version h : string)
    (rest body : list string) (ok : bool) (n free : Z) (w : world) :
  (∀ t, http_get E t version = RespOk (Some h) body ok) →
  Py.int h = Some n →
  (∀ t, disk_free E t = Some free) →
  ((check_disk_space E n w).1 = Ret true ↔ free > 2 * n)
  ∧ ((free ≤ 2 * n) →
     ∃ w', download_update E version w = (Ret None, w')
       ∧ (inst w' = inst w ∨ inst w' = delete (package_path version) (inst w))
       ∧ ∃ w'', run_chain E (version :: rest) w = (Ret false, w'')
           ∧ trace w'' = trace w ++ [EvFetch version]).
Proof.
  intros Hget Hint Hfree.
  assert (∀ w1, check_disk_space E n w1
            = (Ret (free >? n * 2),
               World (inst w1) (temp w1) (S (clock w1)) (UPDATE_WARNINGS w1)
                     (trace w1))) as Hcheck.
  { intros w1. unfold check_disk_space. rewrite bind_run. simpl.
    by rewrite Hfree. }
  split.
  { rewrite Hcheck. simpl. split.
    - intros [= H]. apply Z.gtb_gt in H. lia.
    - intros H. f_equal. apply Z.gtb_gt. lia. }
  intros Hle.
  assert ((free >? n * 2) = false) as Hgt.
  { destruct (free >? n * 2) eqn:H; [|done]. apply Z.gtb_gt in H. lia. }
  assert (∀ w1, ∃ w', download_update E version w1 = (Ret None, w')
            ∧ trace w' = trace w1
            ∧ (inst w' = inst w1
               ∨ inst w' = delete (package_path version) (inst w1))) as Hdl.
  { intros w1. unfold download_update.
    destruct (cleanup_stale_run E (package_path version) w1) as (w2 & Hs & Ht & Hi).
    rewrite (bind_ret_run _ _ _ _ _ Hs). rewrite bind_run. simpl.
    rewrite Hget, Hint. rewrite bind_run. simpl. rewrite bind_run, Hcheck, Hgt.
    simpl. eexists. split; [done|]. simpl. auto. }
  destruct (Hdl w) as (w' & Hw' & _ & Hi). exists w'. split; [done|].
  split; [done|].
  simpl. rewrite bind_run. simpl. rewrite bind_run.
  match goal with |- context [download_update E version ?w1] =>
    destruct (Hdl w1) as (w'' & Hw'' & Ht'' & _) end.
  rewrite Hw''. exists w''. split; [done|].
  by rewrite Ht''.
Qed.

Lemma disk_space_preflight_witness :
  ∃ w', download_update env_small_disk "1.1" (fresh_world (installed "1.0"))
        = (Ret None, w')
    ∧ (run_chain env_small_disk ["1.1"; "1.2"] (fresh_world (installed "1.0"))).1
      = Ret false.
Proof.
  destruct (disk_space_preflight env_small_disk "1.1" "600" ["1.2"] ["data"]
              true 600 1000 (fresh_world (installed "1.0")))
    as (_ & H).
  - reflexivity.
  - reflexivity.
  - reflexivity.
  - destruct H as (w' & H1 & _ & w'' & H2 & _); [lia|].
    exists w'. split; [exact H1|]. by rewrite H2.
Defined.









(** * Further properties *)

(** ** The version source *)

Example version_list_example :
  get_version_list
    (HttpText (" 1.10" ++ String "010" ("1.2" ++ String "013" (String "010"
       ("beta" ++ String "010" (String "010" ("1.02 " ++ String "010" "")))))))
  = Some ["1.2"; "1.02"; "1.10"].
Proof. reflexivity. Qed.

Section Sorting.

Context {A : Type} (key : A → list Z).

Implicit Types (x y : A) (l : list A).

Lemma list_le_not_lt (a b : list Z) :
  Py.list_le a b = true ↔ Py.list_lt b a = false.
Proof.
  rewrite list_le_lt_or_eq. split.
  - intros [Hlt| ->]; [by apply list_lt_asym|apply list_lt_irrefl].
  - intros Hba. destruct (list_lt_trichotomy a b) as [?|[?|?]]; auto.
    congruence.
Qed.

Lemma list_le_refl (a : list Z) : Py.list_le a a = true.
Proof. apply list_le_lt_or_eq. by right. Qed.

Lemma list_le_trans (a b c : list Z) :
  Py.list_le a b = true → Py.list_le b c = true → Py.list_le a c = true.
Proof.
  rewrite !list_le_lt_or_eq. intros [Hab| ->] [Hbc| ->]; auto.
  left. by eapply list_lt_trans.
Qed.

Lemma list_lt_le_trans (a b c : list Z) :
  Py.list_lt a b = true → Py.list_le b c = true → Py.list_lt a c = true.
Proof.
  rewrite list_le_lt_or_eq. intros Hab [Hbc| <-]; [|done].
  by eapply list_lt_trans.
Qed.

Lemma list_le_antisym (a b : list Z) :
  Py.list_le a b = true → Py.list_le b a = true → a = b.
Proof.
  rewrite !list_le_lt_or_eq. intros [Hab|?] [Hba|?]; try done.
  apply list_lt_asym in Hab. congruence.
Qed.

Lemma insert_by_key_perm x l : insert_by_key key x l ≡ₚ x :: l.
Proof.
  induction l as [|y l IH]; simpl; [done|].
  destruct (Py.list_lt (key y) (key x)); [|done].
  rewrite IH. apply Permutation_swap.
Qed.

Lemma sort_by_key_perm l : sort_by_key key l ≡ₚ l.
Proof.
  induction l as [|x l IH]; simpl; [done|].
  by rewrite insert_by_key_perm, IH.
Qed.

Lemma insert_by_key_sorted x l :
  StronglySorted (λ a b, Py.list_le (key a) (key b) = true) l →
  StronglySorted (λ a b, Py.list_le (key a) (key b) = true)
                 (insert_by_key key x l).
Proof.
  induction 1 as [|y l Hl IH Hy]; simpl; [by repeat constructor|].
  destruct (Py.list_lt (key y) (key x)) eqn:Hyx.
  - constructor; [done|]. rewrite insert_by_key_perm.
    constructor; [|done]. apply list_le_lt_or_eq. by left.
  - apply list_le_not_lt in Hyx. constructor; [by constructor|].
    constructor; [done|]. eapply Forall_impl; [exact Hy|].
    intros z Hz. by eapply list_le_trans.
Qed.

Lemma sort_by_key_sorted l :
  StronglySorted (λ a b, Py.list_le (key a) (key b) = true) (sort_by_key key l).
Proof.
  induction l as [|x l IH]; simpl; [constructor|by apply insert_by_key_sorted].
Qed.

(** Elements with the same key keep their order. *)
Lemma insert_by_key_stable (k : list Z) x l :
  StronglySorted (λ a b, Py.list_le (key a) (key b) = true) l →
  filter (λ v, key v = k) (insert_by_key key x l)
  = filter (λ v, key v = k) (x :: l).
Proof.
  induction 1 as [|y l Hl IH Hy]; simpl; [done|].
  destruct (Py.list_lt (key y) (key x)) eqn:Hyx; [|done].
  rewrite (filter_cons _ y), IH, !filter_cons.
  destruct (decide (key y = k)) as [Hyk|Hyk];
    destruct (decide (key x = k)) as [Hxk|Hxk]; try done.
  rewrite Hyk, Hxk, list_lt_irrefl in Hyx. done.
Qed.

Lemma sort_by_key_stable (k : list Z) l :
  filter (λ v, key v = k) (sort_by_key key l) = filter (λ v, key v = k) l.
Proof.
  induction l as [|x l IH]; simpl; [done|].
  rewrite insert_by_key_stable by apply sort_by_key_sorted.
  by rewrite !filter_cons, IH.
Qed.

End Sorting.

Section VersionSource.

Implicit Types (s v : string) (l : list string).

Lemma rstrip_lstrip s : Py.rstrip (Py.lstrip s) = Py.lstrip (Py.rstrip s).
Proof.
  induction s as [|c s IH]; [done|].
  cbn [Py.lstrip]. destruct (Py.isspace c) eqn:Hc.
  - rewrite IH. cbn [Py.rstrip].
    destruct (Py.rstrip s) as [|d r]; simpl; by rewrite Hc.
  - destruct (rstrip_head c s Hc) as [r Hr]. rewrite Hr. simpl. by rewrite Hc.
Qed.

Lemma strip_of_lstrip s : Py.strip (Py.lstrip s) = Py.strip s.
Proof. unfold Py.strip. by rewrite lstrip_idemp. Qed.

Lemma strip_of_rstrip s : Py.strip (Py.rstrip s) = Py.strip s.
Proof. unfold Py.strip. by rewrite <- rstrip_lstrip, rstrip_idemp. Qed.

Lemma int_strip_eq a b : Py.strip a = Py.strip b → Py.int a = Py.int b.
Proof. unfold Py.int. by intros ->. Qed.

Lemma mapM_int_strip_eq (xs ys : list string) :
  Forall2 (λ a b, Py.strip a = Py.strip b) xs ys →
  mapM Py.int xs = mapM Py.int ys.
Proof.
  induction 1 as [|a b xs ys Hab _ IH]; [done|].
  cbn [mapM]. by rewrite (int_strip_eq a b Hab), IH.
Qed.

Lemma split_cons sep s : ∃ w ws, Py.split sep s = w :: ws.
Proof.
  destruct s as [|c s]; simpl; [by eexists _, _|].
  destruct (Ascii.eqb c sep); [by eexists _, _|].
  destruct (Py.split sep s); by eexists _, _.
Qed.

(** Splitting after stripping changes the segments by whitespace at their
    ends only, when the separator is no whitespace. *)
Lemma split_lstrip sep s :
  Py.isspace sep = false →
  Forall2 (λ a b, Py.strip a = Py.strip b)
          (Py.split sep (Py.lstrip s)) (Py.split sep s).
Proof.
  intros Hsep. induction s as [|c s IH].
  { by repeat constructor. }
  cbn [Py.lstrip]. destruct (Py.isspace c) eqn:Hc;
    [|apply Forall2_same_length_lookup_2; [done|congruence]].
  cbn [Py.split]. destruct (Ascii.eqb_spec c sep) as [->|_]; [congruence|].
  destruct (split_cons sep s) as (w & ws & Hs). rewrite Hs in IH |- *.
  inversion IH as [|a ? l ? Ha Hl]; subst.
  constructor; [|done]. rewrite Ha. unfold Py.strip. simpl. by rewrite Hc.
Qed.

Lemma split_String sep c s :
  Py.split sep (String c s)
  = if Ascii.eqb c sep then EmptyString :: Py.split sep s
    else match Py.split sep s with
         | [] => [String c EmptyString]
         | w :: ws => String c w :: ws
         end.
Proof. reflexivity. Qed.

Lemma split_rstrip sep s :
  Py.isspace sep = false →
  Forall2 (λ a b, Py.rstrip a = Py.rstrip b)
          (Py.split sep (Py.rstrip s)) (Py.split sep s).
Proof.
  intros Hsep. induction s as [|c s IH].
  { by repeat constructor. }
  cbn [Py.rstrip]. rewrite (split_String sep c s).
  destruct (split_cons sep s) as (w & ws & Hs). rewrite Hs in IH |- *.
  destruct (Py.rstrip s) as [|d r] eqn:Hr.
  - inversion IH as [|a x l xs Ha Hl]; subst. inversion Hl; subst.
    simpl in Ha.
    destruct (Ascii.eqb_spec c sep) as [->|Hne].
    + rewrite Hsep. simpl. rewrite Ascii.eqb_refl. by repeat constructor.
    + destruct (Py.isspace c) eqn:Hc; simpl.
      * repeat constructor. simpl. by rewrite <- Ha, Hc.
      * apply Ascii.eqb_neq in Hne. rewrite Hne.
        repeat constructor. simpl. by rewrite <- Ha, Hc.
  - rewrite (split_String sep c (String d r)).
    destruct (Ascii.eqb c sep); [by constructor|].
    destruct (split_cons sep (String d r)) as (w' & ws' & Hs').
    rewrite Hs' in IH |- *.
    inversion IH as [|? ? ? ? Hw Hws]; subst.
    constructor; [|done]. simpl. by rewrite Hw.
Qed.

Lemma rstrip_eq_strip_eq a b :
  Py.rstrip a = Py.rstrip b → Py.strip a = Py.strip b.
Proof. intros H. unfold Py.strip. by rewrite !rstrip_lstrip, H. Qed.

End VersionSource.

Section VersionOrder.

Lemma StronglySorted_filter {A} (R : A → A → Prop) (P : A → bool) (l : list A) :
  StronglySorted R l → StronglySorted R (List.filter P l).
Proof.
  induction 1 as [|x l Hl IH Hx]; simpl; [constructor|].
  destruct (P x); [|done]. constructor; [done|].
  apply Forall_forall. intros y Hy%list_elem_of_In%filter_In.
  rewrite Forall_forall in Hx. apply Hx, list_elem_of_In, Hy.
Qed.

Lemma StronglySorted_last {A} (R : A → A → Prop) (l : list A) (u : A) :
  (∀ x, R x x) → StronglySorted R l → last l = Some u →
  ∀ a, a ∈ l → R a u.
Proof.
  intros Hrefl. induction 1 as [|x l Hl IH Hx]; [done|].
  intros Hlast a Ha. destruct l as [|y l].
  - injection Hlast as <-. by apply list_elem_of_singleton in Ha as ->.
  - change (last (y :: l) = Some u) in Hlast.
    apply elem_of_cons in Ha as [->|Ha]; [|by apply IH].
    rewrite Forall_forall in Hx. apply Hx. by apply last_Some_elem_of.
Qed.

Lemma version_lines_stripped text v :
  v ∈ version_lines text → v ≠ EmptyString ∧ Py.strip v = v.
Proof.
  unfold version_lines. intros (x & -> & Hx)%list_elem_of_fmap.
  apply list_elem_of_In, filter_In in Hx as [_ Hx].
  split; [by destruct (Py.strip x)|apply strip_idemp].
Qed.

End VersionOrder.

Lemma parse_strip (s : string) :
  parse_version (Py.strip s) = parse_version s.
Proof.
  unfold parse_version, Py.strip.
  assert (Py.isspace "." = false) as Hdot by reflexivity.
  rewrite (mapM_int_strip_eq (Py.split "." (Py.rstrip (Py.lstrip s)))
             (Py.split "." (Py.lstrip s))).
  - by rewrite (mapM_int_strip_eq _ _ (split_lstrip "." s Hdot)).
  - eapply Forall2_impl; [apply split_rstrip; exact Hdot|].
    intros a b. apply rstrip_eq_strip_eq.
Qed.

Lemma chain_ascending_last (current target : string)
    (all_versions : list string) :
  ascending all_versions →
  ascending (get_update_chain current target all_versions)
  ∧ (∀ v, v ∈ all_versions →
       parse_version v = parse_version target →
       parse_version current ≠ [] →
       Py.list_lt (parse_version current) (parse_version target) = true →
       ∃ u, last (get_update_chain current target all_versions) = Some u
         ∧ parse_version u = parse_version target).
Proof.
  intros Hasc. rewrite get_update_chain_filter.
  destruct (Py.truthy (parse_version current)) eqn:Hc;
    destruct (Py.truthy (parse_version target)) eqn:Ht; simpl;
    try (split; [constructor|]; intros v _ _ Hcur Hlt; exfalso;
         first [ by apply Hcur, truthy_nil_iff
               | apply truthy_nil_iff in Ht;
                 by rewrite Ht, list_lt_nil_r in Hlt ]).
  split; [by apply StronglySorted_filter|].
  intros v Hv Hvt _ Hlt.
  set (chain := List.filter _ all_versions).
  assert (v ∈ chain) as Hin.
  { apply list_elem_of_In, filter_In. split; [by apply list_elem_of_In|].
    unfold in_range. rewrite Hvt, Ht, Hlt, list_le_refl. done. }
  destruct (last chain) as [u|] eqn:Hlast;
    [|apply last_None in Hlast; rewrite Hlast in Hin; by apply elem_of_nil in Hin].
  exists u. split; [done|].
  assert (Py.list_le (parse_version v) (parse_version u) = true) as Hvu.
  { apply (StronglySorted_last
             (λ a b, Py.list_le (parse_version a) (parse_version b) = true)
             chain u); [intros x; apply list_le_refl| |done..].
    by apply StronglySorted_filter. }
  apply last_Some_elem_of, list_elem_of_In, filter_In in Hlast as [_ Hu].
  apply andb_true_iff in Hu as [_ Hu]. unfold in_range in Hu.
  apply andb_true_iff in Hu as [_ Hu].
  rewrite <- Hvt. apply list_le_antisym; [by rewrite Hvt|done].
Qed.

(** The version list: what [get_version_list] returns for a response is
    in ascending order of parsed version, holds exactly the stripped,
    non-empty lines of the text that parse, each as often as it occurs, and
    keeps lines that parse alike in the order of the text. *)
Theorem get_version_list_sorted (text : string) :
  ∃ versions,
    get_version_list (HttpText text) = Some versions
    ∧ ascending versions
    ∧ versions ≡ₚ valid_versions (version_lines text)
    ∧ Forall (λ v, parse_version v ≠ [] ∧ v ≠ EmptyString ∧ Py.strip v = v)
             versions
    ∧ ∀ k, filter (λ v, parse_version v = k) versions
           = filter (λ v, parse_version v = k)
                    (valid_versions (version_lines text)).
Proof.
  eexists. split; [reflexivity|]. split; [apply sort_by_key_sorted|].
  split; [apply sort_by_key_perm|]. split; [|intros k; apply sort_by_key_stable].
  apply Forall_forall. intros v Hv. rewrite sort_by_key_perm in Hv.
  apply list_elem_of_In, filter_In in Hv as [Hv Hp].
  apply list_elem_of_In, version_lines_stripped in Hv.
  split; [|done]. intros Hnil. by rewrite Hnil in Hp.
Qed.

(** A failed request gives no list, whatever the failure. *)
Example get_version_list_failed :
  get_version_list HttpTimeout = None ∧ get_version_list HttpFailed = None.
Proof. done. Qed.

(** On a list in ascending order the update chain is in ascending order,
    and when some published version parses like the target, which is newer
    than the current version, the chain is not empty and its last element
    parses like the target. *)
Theorem chain_ascending_to_target (current target : string)
    (all_versions : list string) :
  ascending all_versions →
  ascending (get_update_chain current target all_versions)
  ∧ (∀ v, v ∈ all_versions →
       parse_version v = parse_version target →
       parse_version current ≠ [] →
       Py.list_lt (parse_version current) (parse_version target) = true →
       ∃ u, last (get_update_chain current target all_versions) = Some u
         ∧ parse_version u = parse_version target).
Proof. apply chain_ascending_last. Qed.

Lemma chain_ascending_to_target_witness :
  ascending (get_update_chain "1.0" "1.2" ["1.0"; "1.1"; "1.2"; "1.3"])
  ∧ ∃ u, last (get_update_chain "1.0" "1.2" ["1.0"; "1.1"; "1.2"; "1.3"])
         = Some u
      ∧ parse_version u = parse_version "1.2".
Proof.
  destruct (chain_ascending_to_target "1.0" "1.2" ["1.0"; "1.1"; "1.2"; "1.3"])
    as [H1 H2].
  - repeat constructor.
  - split; [exact H1|]. apply (H2 "1.2").
    + repeat constructor.
    + reflexivity.
    + discriminate.
    + reflexivity.
Defined.

(** The chain never leads backwards: when the target is not newer than the
    current version, nothing is to be applied. *)
Theorem no_downgrade (current target : string) (all_versions : list string) :
  Py.list_lt (parse_version current) (parse_version target) = false →
  get_update_chain current target all_versions = [].
Proof.
  intros Hnlt. rewrite get_update_chain_filter.
  destruct (Py.truthy (parse_version current) && Py.truthy (parse_version target));
    [|done].
  induction all_versions as [|v vs IH]; simpl; [done|].
  destruct (Py.truthy (parse_version v)); simpl; [|done].
  unfold in_range.
  destruct (Py.list_lt (parse_version current) (parse_version v)) eqn:H1;
    simpl; [|done].
  destruct (Py.list_le (parse_version v) (parse_version target)) eqn:H2; [|done].
  by rewrite (list_lt_le_trans _ _ _ H1 H2) in Hnlt.
Qed.

Lemma no_downgrade_witness :
  get_update_chain "1.2" "1.1" ["1.0"; "1.1"; "1.2"; "1.3"] = []
  ∧ get_update_chain "1.2" "1.2" ["1.0"; "1.1"; "1.2"; "1.3"] = [].
Proof.
  split; apply no_downgrade; reflexivity.
Defined.


(** ** What a step leaves alone *)

Section KeepsPath.

Context (E : env) (k : path) (x : option node) (t : temp_state).

Local Abbreviation keeps m :=
  (preserves (λ w, inst w !! k = x ∧ temp w = t) m).

Lemma keeps_set_inst f :
  (∀ m, f m !! k = m !! k) → keeps (set_inst f).
Proof. intros Hf w [Hk Ht]. simpl. by rewrite Hf. Qed.

Lemma keeps_pure {A} (m : M A) :
  (∀ w, inst (m w).2 = inst w ∧ temp (m w).2 = temp w) → keeps m.
Proof. intros Hm w [Hk Ht]. destruct (Hm w) as [-> ->]. done. Qed.

Lemma keeps_check op : keeps (check E op).
Proof. apply keeps_pure. intros w. by rewrite check_run. Qed.

Lemma keeps_add_warning y : keeps (add_warning y).
Proof. by apply keeps_pure. Qed.

Lemma keeps_tick : keeps tick.
Proof. by apply keeps_pure. Qed.

Lemma keeps_emit e : keeps (emit e).
Proof. by apply keeps_pure. Qed.

Ltac keeps_leaf :=
  first [ apply keeps_check | apply keeps_add_warning | apply keeps_tick
        | apply keeps_emit ].

Lemma keeps_os_remove p : p ≠ k → keeps (os_remove E p).
Proof.
  intros Hp. unfold os_remove.
  pres ltac:(first [ keeps_leaf
                   | apply keeps_set_inst; intros m; by apply lookup_delete_ne ]).
Qed.

Lemma keeps_rmtree p : ¬ p `prefix_of` k → keeps (rmtree E p).
Proof.
  intros Hp. unfold rmtree.
  pres ltac:(first [ keeps_leaf
                   | apply keeps_set_inst; intros m; by apply remove_below_ne ]).
Qed.

Lemma keeps_os_mkdir p : p ≠ k → keeps (os_mkdir E p).
Proof.
  intros Hp. unfold os_mkdir.
  pres ltac:(first [ keeps_leaf
                   | apply keeps_set_inst; intros m; by apply lookup_insert_ne ]).
Qed.

Lemma keeps_makedirs_from base rest :
  (∀ q, q `prefix_of` rest → q ≠ [] → base ++ q ≠ k) →
  keeps (makedirs_from E base rest).
Proof.
  revert base. induction rest as [|y rest IH]; intros base Hq; simpl.
  { apply preserves_raise. }
  assert (base ++ [y] ≠ k) as Hy by (apply Hq; [by exists rest|done]).
  assert (keeps (makedirs_from E (base ++ [y]) rest)) as Hrest.
  { apply IH. intros q Hpre Hne. rewrite <- app_assoc. apply Hq; [|done].
    by apply prefix_cons. }
  destruct rest as [|z rest]; [by apply keeps_os_mkdir|].
  pres ltac:(first [ by apply keeps_os_mkdir | exact Hrest | keeps_leaf ]).
Qed.

Lemma keeps_write_file p s : p ≠ k → keeps (write_file E p s).
Proof.
  intros Hp. unfold write_file.
  pres ltac:(first [ keeps_leaf
                   | apply keeps_set_inst; intros m; by apply lookup_insert_ne ]).
Qed.

Lemma keeps_copy_file rel (file : string * string) :
  ¬ (rel ++ [file.1]) `prefix_of` k → keeps (copy_file E rel file).
Proof.
  intros Hp. unfold copy_file, copy2.
  pres ltac:(first [ keeps_leaf
                   | apply keeps_set_inst; intros m; apply lookup_insert_ne;
                     intros <-; apply Hp; first [done|by eexists] ]).
Qed.

Lemma keeps_write_chunk p chunk : p ≠ k → keeps (write_chunk E p chunk).
Proof.
  intros Hp. unfold write_chunk.
  pres ltac:(first [ keeps_leaf
                   | apply keeps_set_inst; intros m; repeat case_match;
                     by rewrite ?lookup_insert_ne ]).
Qed.

Lemma keeps_cleanup_stale p : p ≠ k → keeps (cleanup_stale E p).
Proof.
  intros Hp. unfold cleanup_stale.
  pres ltac:(first [ by apply keeps_os_remove | keeps_leaf ]).
Qed.

Lemma keeps_cleanup_update_package p :
  p ≠ k → keeps (cleanup_update_package E p).
Proof.
  intros Hp. unfold cleanup_update_package.
  pres ltac:(first [ by apply keeps_os_remove | keeps_leaf ]).
Qed.

Lemma keeps_download_update version :
  package_path version ≠ k → keeps (download_update E version).
Proof.
  intros Hp. unfold download_update, check_disk_space.
  pres ltac:(first [ by apply keeps_cleanup_stale | by apply keeps_write_chunk
                   | keeps_leaf
                   | apply keeps_set_inst; intros m; by apply lookup_insert_ne ]).
Qed.

End KeepsPath.

(** ** The fetcher *)

Section Fetcher.

Context (E : env).

Lemma string_app_assoc (a b c : string) :
  String.append (String.append a b) c = String.append a (String.append b c).
Proof. induction a as [|x a IH]; [done|]. exact (f_equal (String x) IH). Qed.

Lemma string_app_nil_r (a : string) : String.append a EmptyString = a.
Proof. induction a as [|x a IH]; [done|]. exact (f_equal (String x) IH). Qed.

Lemma write_chunk_run f chunk w w' c :
  write_chunk E f chunk w = (Ret tt, w') →
  inst w !! f = Some (File c) →
  inst w' !! f = Some (File (String.append c chunk)).
Proof.
  unfold write_chunk. destruct chunk as [|a chunk]; simpl.
  - intros [= <-] Hf. by rewrite string_app_nil_r.
  - rewrite bind_run, check_run.
    destruct (denied E (clock w) (OpWrite f)); [done|]. simpl.
    intros [= <-] Hf. simpl. rewrite Hf. apply lookup_insert_eq.
Qed.

Lemma write_chunks_payload f body w w' c :
  for_each (write_chunk E f) body w = (Ret tt, w') →
  inst w !! f = Some (File c) →
  inst w' !! f = Some (File (String.append c (payload body))).
Proof.
  revert w c. induction body as [|chunk body IH]; intros w c; simpl.
  - intros [= <-] Hf. by rewrite string_app_nil_r.
  - intros Hrun Hf.
    apply run_bind_inv in Hrun as [[_ ?]|([] & w1 & Hc & Hrun)]; [done|].
    rewrite <- string_app_assoc. apply (IH w1); [done|].
    by eapply write_chunk_run.
Qed.

End Fetcher.

(** A download writes nothing but the package: whatever its outcome, every
    other path of the install root and the work area are as before. *)
Theorem download_update_frame (E : env) (version : string) (w w' : world)
    (r : res (option path)) :
  download_update E version w = (r, w') →
  (∀ k, k ≠ package_path version → inst w' !! k = inst w !! k)
  ∧ temp w' = temp w.
Proof.
  intros Hrun.
  assert (∀ k, k ≠ package_path version →
            inst w' !! k = inst w !! k ∧ temp w' = temp w) as Hk.
  { intros k Hne.
    pose proof (keeps_download_update E k (inst w !! k) (temp w) version
                  (λ H, Hne (eq_sym H)) w (conj eq_refl eq_refl)) as H.
    by rewrite Hrun in H. }
  split; [intros k Hne; by apply Hk|]. by apply (Hk []).
Qed.

Lemma download_update_frame_witness :
  inst (download_update env_small_disk "1.1"
          (fresh_world (with_package "1.0"))).2 !! ["Update.zip"]
  = Some (File "PKG").
Proof.
  destruct (download_update_frame env_small_disk "1.1"
              (fresh_world (with_package "1.0"))
              (download_update env_small_disk "1.1"
                 (fresh_world (with_package "1.0"))).2
              (download_update env_small_disk "1.1"
                 (fresh_world (with_package "1.0"))).1) as [H _].
  - apply surjective_pairing.
  - rewrite H; [reflexivity|discriminate].
Defined.

(** A download that succeeds returns the path of the package, and the
    package then holds the chunks of the response, in order. *)
Theorem download_update_success (E : env) (version : string) (w w' : world)
    (f : path) :
  download_update E version w = (Ret (Some f), w') →
  f = package_path version
  ∧ ∃ t content_length body,
      http_get E t version = RespOk content_length body true
      ∧ inst w' !! f = Some (File (payload body)).
Proof.
  intros Hrun. split; [by eapply download_update_some|].
  unfold download_update in Hrun.
  apply run_bind_inv in Hrun as [[_ ?]|([] & w1 & _ & H)]; [done|].
  apply run_bind_inv in H as [[_ ?]|(t & w2 & _ & H)]; [done|].
  destruct (http_get E t version) as [| |h body ok] eqn:Hget;
    try (by injection H).
  apply run_bind_inv in H as [[_ ?]|(n & w3 & _ & H)]; [done|].
  apply run_bind_inv in H as [[_ ?]|(enough & w4 & _ & H)]; [done|].
  destruct (negb enough); [by injection H|].
  rewrite get_world_bind in H.
  apply run_bind_inv in H as [[_ ?]|([] & w5 & Hopen & H)]; [done|].
  apply run_bind_inv in H as [[_ ?]|([] & w6 & Hbody & H)]; [done|].
  destruct ok; [|by injection H]. injection H as <- <-.
  exists t, h, body. split; [done|].
  assert (inst w5 !! package_path version = Some (File EmptyString)) as H5.
  { destruct (is_dir (inst w4) (parent (package_path version))
              && negb (is_dir (inst w4) (package_path version))); [|done].
    rewrite bind_run, check_run in Hopen.
    destruct (denied E (clock w4) (OpOpenW (package_path version))); [done|].
    injection Hopen as <-. apply lookup_insert_eq. }
  apply (write_chunks_payload E _ _ _ _ _ Hbody H5).
Qed.

Lemma download_update_success_witness :
  inst (download_update env_second_package_corrupt "1.1"
          (fresh_world (installed "1.0"))).2 !! ["Update_1.1.zip"]
  = Some (File "PKG").
Proof.
  destruct (download_update_success env_second_package_corrupt "1.1"
              (fresh_world (installed "1.0"))
              (download_update env_second_package_corrupt "1.1"
                 (fresh_world (installed "1.0"))).2
              ["Update_1.1.zip"]) as [_ (t & h & body & Hget & Hf)].
  - vm_compute. reflexivity.
  - injection Hget as _ <-. exact Hf.
Defined.



(** After [cleanup_update_package] the package is gone and no warning was
    added, or the install root is as before and exactly one warning was
    recorded; no other path changes and nothing is raised. *)
Theorem cleanup_update_package_post (E : env) (update_package : path)
    (w : world) :
  ∃ w', cleanup_update_package E update_package w = (Ret tt, w')
    ∧ (∀ k, k ≠ update_package → inst w' !! k = inst w !! k)
    ∧ ((inst w' !! update_package = None
        ∧ UPDATE_WARNINGS w' = UPDATE_WARNINGS w)
       ∨ (inst w' = inst w
          ∧ UPDATE_WARNINGS w' = UPDATE_WARNINGS w ++ [WPackageCleanup])).
Proof.
  unfold cleanup_update_package. rewrite get_world_bind.
  destruct (path_exists (inst w) update_package) eqn:Hex.
  - destruct (guarded_remove_run E update_package WPackageCleanup w)
      as (w' & -> & [[Hi Hw]|[Hi Hw]]); exists w'; (split; [done|]).
    + rewrite Hi. split; [intros k Hk; by apply lookup_delete_ne|].
      left. split; [apply lookup_delete_eq|done].
    + rewrite Hi. split; [done|]. by right.
  - exists w. split; [done|]. split; [done|]. left. split; [|done].
    by apply path_exists_false.
Qed.

Section ApplierOutcome.

Context (E : env).

Lemma stage_inst m : preserves (λ w, inst w = m) (stage E).
Proof.
  unfold stage.
  pres ltac:(first [ by intros w | intros w Hw; by rewrite check_inst ]).
Qed.

(** The extraction does not change the install root, and when it returns
    the package was a file that unpacked completely into the work area. *)
Lemma extract_cases update_file w r w' :
  extract E update_file w = (r, w') →
  inst w' = inst w
  ∧ (r = Ret tt →
     ∃ c a, inst w !! update_file = Some (File c) ∧ unzip E c = Some a
       ∧ complete a = true ∧ temp w' = TempDir (members a)).
Proof.
  unfold extract. rewrite get_world_bind.
  destruct (inst w !! update_file) as [[c|]|] eqn:Hpkg;
    try (intros [= <- <-]; by split).
  rewrite bind_run, check_run.
  destruct (denied E (clock w) (OpRead update_file));
    [intros [= <- <-]; by split|].
  destruct (unzip E c) as [a|] eqn:Hzip; [|intros [= <- <-]; by split].
  rewrite bind_run. simpl. destruct (complete a) eqn:Hc;
    intros [= <- <-]; (split; [done|]); [|done].
  intros _. by exists c, a.
Qed.

Lemma cleanup_temp_post w w' :
  cleanup_temp E w = (Ret tt, w') →
  temp w' = TempAbsent ∨ last (UPDATE_WARNINGS w') = Some WTempCleanup.
Proof.
  unfold cleanup_temp. rewrite get_world_bind.
  destruct (temp w) eqn:Ht.
  - intros [= <-]. by left.
  - intros [= <-]. right. simpl. apply last_snoc.
  - rewrite try_except_warning, bind_run, check_run.
    destruct (denied E (clock w) (OpRmtree TEMP_DIR)); simpl; intros [= <-].
    + right. simpl. apply last_snoc.
    + by left.
Qed.

Lemma install_package update_file w w' :
  install E update_file w = (Ret tt, w') →
  ∃ c a, inst w !! update_file = Some (File c) ∧ unzip E c = Some a
    ∧ complete a = true.
Proof.
  unfold install. intros H.
  apply run_bind_inv in H as [[_ ?]|([] & w1 & Hstage & H)]; [done|].
  apply run_bind_inv in H as [[_ ?]|([] & w2 & Hext & _)]; [done|].
  pose proof (stage_inst (inst w) w eq_refl) as Hi. rewrite Hstage in Hi.
  simpl in Hi.
  destruct (extract_cases _ _ _ _ Hext) as [_ (c & a & Hc & Hz & Hcomp & _)];
    [done|].
  exists c, a. by rewrite <- Hi.
Qed.

End ApplierOutcome.

(** An application returns success only for a package that is a file of
    the install root and unpacks completely, and then the marker holds the
    target version exactly as given; read back, it gives the target
    without its surrounding whitespace. *)
Theorem apply_update_success (E : env) (update_file : path) (target : string)
    (w w' : world) :
  apply_update E update_file target w = (Ret true, w') →
  inst w' !! LOCAL_VERSION_FILE = Some (File target)
  ∧ (∃ c a, inst w !! update_file = Some (File c) ∧ unzip E c = Some a
       ∧ complete a = true)
  ∧ (denied E (clock w') (OpRead LOCAL_VERSION_FILE) = false →
     (get_local_version E w').1 = Ret (Some (Py.strip target))).
Proof.
  intros Hrun.
  destruct (get_local_version_frame E w) as (backup & w0 & Hglv & Hi0 & _).
  destruct (apply_update_cases E _ _ _ _ _ _ _ Hglv Hrun)
    as (evs & _ & [(? & ? & _ & _ & _ & ? & _)
                  |[(w1 & w2 & Hin & Hco & Hcl & _)
                   |(? & ? & ? & _ & _ & _ & _ & ? & _)]]); [done| |done].
  assert (inst w' !! LOCAL_VERSION_FILE = Some (File target)) as Hm.
  { pose proof (cleanup_temp_inst E (inst w2) w2 eq_refl) as Hi.
    rewrite Hcl in Hi. simpl in Hi. rewrite Hi.
    unfold commit in Hco. rewrite bind_run in Hco. simpl in Hco.
    apply write_file_ok in Hco. rewrite Hco. apply lookup_insert_eq. }
  split; [done|]. split.
  - rewrite <- Hi0. by eapply install_package.
  - intros Hd. by apply get_local_version_file.
Qed.

Lemma apply_update_success_witness :
  inst (apply_update env_demo ["Update.zip"] "1.1" world_demo).2
    !! LOCAL_VERSION_FILE = Some (File "1.1").
Proof.
  destruct (apply_update_success env_demo ["Update.zip"] "1.1" world_demo
              (apply_update env_demo ["Update.zip"] "1.1" world_demo).2)
    as [H _].
  - vm_compute. reflexivity.
  - exact H.
Defined.


(** ** What an application leaves alone *)

Section KeepsApply.

Context (E : env) (k : path) (x : option node) (t : temp_state).

Local Abbreviation keeps m :=
  (preserves (λ w, inst w !! k = x ∧ temp w = t) m).

Lemma keeps_for_each_in {A} (body : A → M unit) (l : list A) :
  (∀ a, a ∈ l → keeps (body a)) → keeps (for_each body l).
Proof.
  induction l as [|a l IH]; intros Hb; simpl; [apply preserves_ret|].
  apply preserves_bind; [apply Hb; by left|]. intros _. apply IH.
  intros b Hin. apply Hb. by right.
Qed.

Lemma keeps_delete_line line :
  (∀ q, resolve (Py.strip line) = Some q → ¬ q `prefix_of` k) →
  keeps (delete_line E line).
Proof.
  intros Hq. unfold delete_line.
  destruct (str_truthy (Py.strip line)); [|apply preserves_ret].
  destruct (resolve (Py.strip line)) as [q|]; [|apply preserves_ret].
  specialize (Hq q eq_refl).
  pres ltac:(first [ by apply keeps_rmtree
                   | apply keeps_os_remove; by intros ->
                   | apply keeps_add_warning ]).
Qed.

Lemma files_of_entries (f : string * string) entries :
  f ∈ files_of entries → PFile f.1 f.2 ∈ entries.
Proof.
  unfold files_of. rewrite list_elem_of_In, in_flat_map.
  intros ([name c|name es] & Hn & Hf); [|done].
  destruct Hf as [<-|[]]. by apply list_elem_of_In.
Qed.

Lemma visited_files_in rel entries (f : string * string) :
  f ∈ visited_files E rel entries → f ∈ files_of entries.
Proof. intros Hf. eapply elem_of_sublist; [done|apply visited_files_sublist]. Qed.

Lemma keeps_visit rel entries :
  (∀ q, q `prefix_of` rel → q ≠ [] → q ≠ k) →
  (∀ f, f ∈ files_of entries → ¬ (rel ++ [f.1]) `prefix_of` k) →
  keeps (visit E rel entries).
Proof.
  intros Hrel Hfiles. unfold visit.
  fold (visited_files E rel entries).
  apply preserves_bind; [apply preserves_get_world|]. intros w0.
  apply preserves_bind.
  - destruct (path_exists (inst w0) rel); [apply preserves_ret|].
    apply keeps_makedirs_from. exact Hrel.
  - intros _. apply keeps_for_each_in. intros f Hf.
    apply keeps_copy_file, Hfiles. by apply (visited_files_in rel).
Qed.

Lemma keeps_walk_entry n rel :
  (∀ q, q `prefix_of` rel → q ≠ [] → q ≠ k) →
  ¬ (rel ++ [pname n]) `prefix_of` k →
  keeps (walk_entry E rel n).
Proof.
  revert rel. induction n as [name content|name entries IH] using pnode_induct;
    intros rel Hrel Hk; simpl; [apply preserves_ret|].
  cbn [pname] in Hk.
  assert (∀ q, q `prefix_of` (rel ++ [name]) → q ≠ [] → q ≠ k) as Hrel'.
  { intros q Hq Hne. apply prefix_snoc_inv in Hq as [->|Hq]; [|by apply Hrel].
    by intros <-. }
  apply preserves_bind.
  - apply keeps_visit; [done|]. intros f _. by apply prefix_snoc_below.
  - intros _. apply keeps_for_each_in. intros n Hn.
    rewrite Forall_forall in IH. apply IH; [done..|].
    by apply prefix_snoc_below.
Qed.

End KeepsApply.

Section ApplyFrame.

Context (E : env) (k : path).

Lemma keeps_cleanse x entries :
  (∀ line q, line ∈ delete_lines E entries →
             resolve (Py.strip line) = Some q → ¬ q `prefix_of` k) →
  preserves (λ w, inst w !! k = x ∧ temp w = TempDir entries) (cleanse E).
Proof.
  intros Hlines w [Hk Ht]. unfold cleanse. rewrite get_world_bind, Ht.
  unfold delete_lines in Hlines.
  destruct (find_entry (DELETE_LIST_FILE E) entries) as [[name content|name es]|];
    [|done..].
  apply (preserves_bind (λ w, inst w !! k = x ∧ temp w = TempDir entries));
    [apply keeps_check| |done].
  intros _. apply keeps_for_each_in. intros line Hline.
  apply keeps_delete_line. intros q. by apply Hlines.
Qed.

Lemma keeps_walk x entries :
  (∀ n, n ∈ entries → ¬ [pname n] `prefix_of` k) →
  preserves (λ w, inst w !! k = x ∧ temp w = TempDir entries) (walk E).
Proof.
  intros Hnames w [Hk Ht]. unfold walk. rewrite get_world_bind, Ht.
  apply (preserves_bind (λ w, inst w !! k = x ∧ temp w = TempDir entries));
    [| |done].
  - apply keeps_visit; [by intros q ->%prefix_nil_inv|].
    intros f Hf. apply (Hnames (PFile f.1 f.2)). by apply files_of_entries.
  - intros _. apply keeps_for_each_in. intros n Hn.
    apply keeps_walk_entry; [by intros q ->%prefix_nil_inv|by apply Hnames].
Qed.

Lemma install_keeps update_file w r w' :
  install E update_file w = (r, w') →
  (∀ c a, inst w !! update_file = Some (File c) → unzip E c = Some a →
          ¬ touched E a k) →
  inst w' !! k = inst w !! k.
Proof.
  unfold install. intros H Hk.
  pose proof (stage_inst E (inst w) w eq_refl) as Hi1.
  apply run_bind_inv in H as [[H _]|([] & w1 & Hstage & H)].
  { rewrite H in Hi1. simpl in Hi1. by rewrite Hi1. }
  rewrite Hstage in Hi1. simpl in Hi1.
  apply run_bind_inv in H as [[H _]|([] & w2 & Hext & H)].
  { apply extract_cases in H as [-> _]. by rewrite Hi1. }
  apply extract_cases in Hext as [Hi2 Hx].
  destruct (Hx eq_refl) as (c & a & Hc & Hz & _ & Ht2).
  rewrite Hi1 in Hc. specialize (Hk c a Hc Hz).
  assert (preserves (λ w, inst w !! k = inst w2 !! k
                          ∧ temp w = TempDir (members a))
                    (cleanse E ;; walk E ;; emit EvWalkDone)) as Hrest.
  { apply preserves_bind; [|intros _; apply preserves_bind].
    - apply keeps_cleanse. intros line q Hline Hq Hpre. apply Hk.
      right. by exists line, q.
    - apply keeps_walk. intros n Hn Hpre. apply Hk. left. by exists n.
    - intros _. apply keeps_emit. }
  specialize (Hrest w2 (conj eq_refl Ht2)). rewrite H in Hrest.
  simpl in Hrest. destruct Hrest as [Hrest _]. by rewrite Hrest, Hi2, Hi1.
Qed.

Lemma marker_write_keeps (m : M unit) w :
  k ≠ LOCAL_VERSION_FILE →
  (∃ s, m = commit E s) ∨ (∃ b, m = restore E b) →
  inst (m w).2 !! k = inst w !! k.
Proof.
  intros Hk Hm.
  assert (preserves (λ w0, inst w0 !! k = inst w !! k ∧ temp w0 = temp w) m)
    as Hkeeps.
  { destruct Hm as [[s ->]|[b ->]]; unfold commit, restore, restore_write;
      pres ltac:(first [ apply keeps_emit | apply keeps_add_warning
                       | apply keeps_write_file; by intros <- ]). }
  by destruct (Hkeeps w (conj eq_refl eq_refl)).
Qed.

End ApplyFrame.



(** ** The overlay installs the files of the package *)

Section Overlay.

Context (E : env) (Hfree : ∀ op, den E op = false).

Implicit Types (p q k rel : path) (m X Y : gmap path node).

Lemma copy_pure_installs p (f : string * string) m :
  is_dir m p = true → m !! (p ++ [f.1]) ≠ Some Dir →
  copy_pure E p f m = <[p ++ [f.1] := File f.2]> m.
Proof.
  intros Hp Hq. unfold copy_pure.
  assert (is_dir m (p ++ [f.1]) = false) as Hnd.
  { rewrite is_dir_snoc.
    destruct (m !! (p ++ [f.1])) as [[c|]|]; [done|by destruct Hq|done]. }
  cbv zeta. rewrite Hnd, !Hfree, parent_snoc, Hp. by rewrite Hnd.
Qed.

Lemma run_actions_app items1 items2 X :
  run_actions (items1 ++ items2) X
  = run_actions items1 X ≫= run_actions items2.
Proof. apply fold_opt_app. Qed.

(** One action among those of a directory: what it finds at its own
    entry is what the directory held at the start, and what it leaves
    there is what the directory holds at the end. *)
Lemma run_actions_item p pre (it : action) post X X' :
  NoDup (pre ++ it :: post).*1 →
  Forall (local_action p) (pre ++ it :: post) →
  prefixes_exist p X →
  run_actions (pre ++ it :: post) X = Some X' →
  ∃ X1 X2, it.2 X1 = Some X2
    ∧ (∀ k, (p ++ [it.1]) `prefix_of` k → X1 !! k = X !! k ∧ X' !! k = X2 !! k)
    ∧ is_dir X1 p = is_dir X p ∧ prefixes_exist p X1.
Proof.
  intros Hnd Hloc Hp Hrun.
  rewrite fmap_app, fmap_cons in Hnd.
  apply NoDup_app in Hnd as (_ & Hpre & [Hpost _]%NoDup_cons).
  apply Forall_app in Hloc as [Hlpre [Hlit Hlpost]%Forall_cons].
  rewrite run_actions_app in Hrun.
  destruct (run_actions pre X) as [X1|] eqn:H1; [|done]. simpl in Hrun.
  change (run_actions (it :: post) X1) with (it.2 X1 ≫= run_actions post) in Hrun.
  destruct (it.2 X1) as [X2|] eqn:H2; [|done]. simpl in Hrun.
  assert (prefixes_exist p X1) as Hp1.
  { clear -Hlpre Hp H1. revert X Hp H1.
    induction Hlpre as [|a pre Ha _ IH]; intros X Hp H1.
    - by injection H1 as <-.
    - simpl in H1. destruct (a.2 X) as [Xa|] eqn:Ha'; [|done].
      eapply IH; [|exact H1]. by eapply prefixes_exist_local. }
  exists X1, X2. split; [done|]. split; [|split; [|done]].
  - intros k Hk. split.
    + apply (run_actions_local p pre X X1 Hlpre Hp H1).
      intros a Ha. apply (snoc_not_prefix p it.1 a.1); [|done].
      intros Heq. apply (Hpre a.1); [by apply list_elem_of_fmap_2|].
      rewrite <- Heq. by left.
    + apply (run_actions_local p post X2 X' Hlpost); [|done|].
      * by eapply prefixes_exist_local.
      * intros a Ha. apply (snoc_not_prefix p it.1 a.1); [|done].
        intros Heq. apply Hpost. rewrite Heq. by apply list_elem_of_fmap_2.
  - unfold is_dir. destruct p as [|y p'] eqn:Hpeq; [done|]. rewrite <- Hpeq in *.
    rewrite (run_actions_local p pre X X1 Hlpre Hp H1); [done|].
    intros a _. apply prefix_snoc_self.
Qed.

Lemma dir_files_below rel n q c :
  (q, c) ∈ dir_files E rel n →
  (rel ++ [pname n]) `prefix_of` q ∧ q ≠ rel ++ [pname n].
Proof.
  revert rel. induction n as [name content|name entries IH] using pnode_induct;
    intros rel; simpl; [by intros ?%elem_of_nil|].
  rewrite elem_of_app. intros [Hq|Hq].
  - apply list_elem_of_fmap in Hq as (f & [= -> ->] & _).
    split; [by eexists|]. intros Heq.
    apply (f_equal length) in Heq. rewrite !length_app in Heq. simpl in Heq. lia.
  - apply list_elem_of_In, in_flat_map in Hq as (n & Hn & Hq).
    rewrite Forall_forall in IH.
    destruct (IH n (proj2 (list_elem_of_In _ _) Hn) (rel ++ [name])
                (proj2 (list_elem_of_In _ _) Hq)) as [[l ->] _].
    split; [exists ([pname n] ++ l); by rewrite <- !app_assoc|].
    intros Heq. apply (f_equal length) in Heq.
    rewrite !length_app in Heq. simpl in Heq. lia.
Qed.

Lemma dir_paths_below rel n d :
  d ∈ dir_paths rel n → (rel ++ [pname n]) `prefix_of` d.
Proof.
  revert rel. induction n as [name content|name entries IH] using pnode_induct;
    intros rel; simpl; [by intros ?%elem_of_nil|].
  rewrite elem_of_cons. intros [->|Hd]; [done|].
  apply list_elem_of_In, in_flat_map in Hd as (n & Hn & Hd).
  rewrite Forall_forall in IH.
  destruct (IH n (proj2 (list_elem_of_In _ _) Hn) (rel ++ [name])
              (proj2 (list_elem_of_In _ _) Hd)) as [l ->].
  exists ([pname n] ++ l). by rewrite <- !app_assoc.
Qed.

Lemma files_at_below p entries q c :
  (q, c) ∈ files_at E p entries → p `prefix_of` q ∧ q ≠ p.
Proof.
  unfold files_at. rewrite elem_of_app. intros [Hq|Hq].
  - apply list_elem_of_fmap in Hq as (f & [= -> ->] & _).
    split; [by eexists|]. intros Heq. apply (f_equal length) in Heq.
    rewrite length_app in Heq. simpl in Heq. lia.
  - apply list_elem_of_In, in_flat_map in Hq as (n & _ & Hq).
    apply list_elem_of_In, dir_files_below in Hq as [[l ->] _].
    split; [exists ([pname n] ++ l); by rewrite <- app_assoc|].
    intros Heq. apply (f_equal length) in Heq.
    rewrite !length_app in Heq. simpl in Heq. lia.
Qed.

Lemma dirs_at_below p entries d :
  d ∈ dirs_at p entries → p `prefix_of` d ∧ d ≠ p.
Proof.
  unfold dirs_at. intros Hd.
  apply list_elem_of_In, in_flat_map in Hd as (n & _ & Hd).
  apply list_elem_of_In, dir_paths_below in Hd as [l ->].
  split; [exists ([pname n] ++ l); by rewrite <- app_assoc|].
  intros Heq. apply (f_equal length) in Heq.
  rewrite !length_app in Heq. simpl in Heq. lia.
Qed.

Lemma entries_install entries p X X' :
  Forall (installs_dir E) entries →
  NoDup (map pname entries) → Forall unique_names entries →
  run_actions (entry_actions E p entries) X = Some X' →
  is_dir X p = true → prefixes_exist p X →
  no_conflict E X p entries →
  ∀ q c, (q, c) ∈ files_at E p entries → X' !! q = Some (File c).
Proof.
  intros IH Hnd Hun Hrun Hdir Hp [Hcf Hcd] q c Hq.
  pose proof (entry_actions_NoDup E p entries Hnd) as Hnames.
  pose proof (entry_actions_local E p entries) as Hloc.
  pose proof Hq as Hq'. unfold files_at in Hq'.
  apply elem_of_app in Hq' as [Hf|Hd].
  - apply list_elem_of_fmap in Hf as (f & [= -> ->] & Hf).
    apply list_elem_of_split in Hf as (l1 & l2 & Hl).
    assert (entry_actions E p entries
            = file_actions E p l1
              ++ (f.1, λ m, Some (copy_pure E p f m))
                 :: (file_actions E p l2 ++ dir_actions E p entries)) as Heq.
    { unfold entry_actions, file_actions. rewrite Hl, map_app. cbn [map].
      by rewrite <- app_assoc. }
    rewrite Heq in Hrun, Hnames, Hloc.
    destruct (run_actions_item p _ _ _ X X' Hnames Hloc Hp Hrun)
      as (X1 & X2 & H2 & Hk & Hd1 & _).
    cbn [fst snd] in H2, Hk. injection H2 as <-.
    destruct (Hk (p ++ [f.1]) (reflexivity _)) as [HX1 ->].
    rewrite copy_pure_installs; [apply lookup_insert_eq|congruence|].
    rewrite HX1. by eapply Hcf.
  - apply list_elem_of_In, in_flat_map in Hd as (n & Hn & Hd).
    apply list_elem_of_In in Hn, Hd.
    destruct n as [name content|name es]; [by apply elem_of_nil in Hd|].
    assert (PDir name es ∈ subdirs entries) as Hsub
      by (apply elem_of_subdirs; split; [done|by eexists _, _]).
    apply list_elem_of_split in Hsub as (l1 & l2 & Hl).
    assert (entry_actions E p entries
            = (file_actions E p (visited_files E p entries)
               ++ map (λ n, (pname n, walk_entry_pure E p n)) l1)
              ++ (name, walk_entry_pure E p (PDir name es))
                 :: map (λ n, (pname n, walk_entry_pure E p n)) l2) as Heq.
    { unfold entry_actions, dir_actions. rewrite Hl, map_app. cbn [map].
      by rewrite <- app_assoc. }
    rewrite Heq in Hrun, Hnames, Hloc.
    destruct (run_actions_item p _ _ _ X X' Hnames Hloc Hp Hrun)
      as (X1 & X2 & H2 & Hk & Hd1 & Hp1).
    cbn [fst snd pname] in H2, Hk.
    pose proof (dir_files_below p _ _ _ Hd) as [Hbelow _].
    cbn [pname] in Hbelow.
    destruct (Hk q Hbelow) as [_ ->].
    rewrite Forall_forall in IH, Hun.
    apply (IH (PDir name es) Hn p X1 X2); try done.
    + by apply Hun.
    + congruence.
    + intros q' c' Hq'' HX1.
      pose proof (dir_files_below p _ _ _ Hq'') as [Hb' _].
      destruct (Hk q' Hb') as [HX1' _]. rewrite HX1' in HX1.
      apply (Hcf q' c'); [|done]. unfold files_at. apply elem_of_app. right.
      apply list_elem_of_In, in_flat_map. exists (PDir name es).
      split; by apply list_elem_of_In.
    + intros d c' Hd' HX1.
      pose proof (dir_paths_below p _ _ Hd') as Hb'.
      destruct (Hk d Hb') as [HX1' _]. rewrite HX1' in HX1.
      apply (Hcd d c'); [|done]. unfold dirs_at.
      apply list_elem_of_In, in_flat_map. exists (PDir name es).
      split; by apply list_elem_of_In.
Qed.

Lemma walk_entry_installs n : installs_dir E n.
Proof.
  induction n as [name content|name entries IH] using pnode_induct;
    intros rel X X' Hun Hrun Hdir Hp Hcf Hcd q c Hq;
    [by apply elem_of_nil in Hq|].
  apply unique_names_dir in Hun as [Hnd Hun].
  rewrite walk_entry_pure_actions in Hrun.
  destruct (ensure_dir E (rel ++ [name]) X) as [Xm|] eqn:Hen; [|done].
  simpl in Hrun.
  assert (∀ k, k ≠ rel ++ [name] → Xm !! k = X !! k) as Hother
    by (intros k Hk; by eapply ensure_dir_local).
  apply (entries_install entries (rel ++ [name]) Xm X'); try done.
  - destruct (ensure_dir_spec E _ _ _ _ Hp Hen) as [[Hex ->]|(_ & -> & _)].
    + rewrite path_exists_snoc in Hex. rewrite is_dir_snoc.
      destruct (X !! (rel ++ [name])) as [[c'|]|] eqn:HX; [|done..].
      exfalso. apply (Hcd (rel ++ [name]) c'); [by left|done].
    + by rewrite is_dir_snoc, lookup_insert_eq.
  - by eapply ensure_dir_prefixes.
  - split.
    + intros q' c' Hq'. pose proof (files_at_below _ _ _ _ Hq') as [_ Hne].
      rewrite (Hother q' Hne). apply (Hcf q' c'). exact Hq'.
    + intros d c' Hd. pose proof (dirs_at_below _ _ _ Hd) as [_ Hne].
      rewrite (Hother d Hne). apply (Hcd d c'). by right.
Qed.

End Overlay.

Lemma fault_free_static (E : env) : fault_free E → static E.
Proof. intros Hff t op. unfold den. by rewrite !Hff. Qed.


Ltac each_listed H tac :=
  repeat (apply elem_of_cons in H as [H|H]; [tac H|]);
  by apply elem_of_nil in H.


(** ** The delete-list removes what it names *)

Section DeleteList.

Context (E : env).

Implicit Types (p q k : path) (m X A : gmap path node).

Lemma resolve_truthy s q : resolve s = Some q → str_truthy s = true.
Proof. by destruct s. Qed.

Lemma delete_at_removes q m k :
  well_formed m → q ≠ [] →
  den E (OpRemove q) = false → den E (OpRmtree q) = false →
  q `prefix_of` k → delete_at E q m !! k = None.
Proof.
  intros [_ Hwf] Hq Hrm Hrt Hk. unfold delete_at.
  assert (m !! q ≠ Some Dir → k ≠ q → m !! k = None) as Hbelow.
  { intros Hnd Hne. destruct (m !! k) as [v|] eqn:Hmk; [|done].
    destruct Hnd. apply (Hwf k q); [by eexists|done|by intros ->|done]. }
  destruct (m !! q) as [[c|]|] eqn:Hmq.
  - rewrite Hrm. destruct (decide (k = q)) as [->|Hne];
      [apply lookup_delete_eq|].
    rewrite lookup_delete_ne by done. by apply Hbelow.
  - rewrite Hrt. by apply remove_below_eq.
  - destruct (decide (k = q)) as [->|Hne]; [done|]. by apply Hbelow.
Qed.

Lemma deletions_remove ls line q A k :
  well_formed A → line ∈ ls → resolve (Py.strip line) = Some q →
  den E (OpRemove q) = false → den E (OpRmtree q) = false →
  q `prefix_of` k →
  fold_left (λ m l, delete_line_pure E l m) ls A !! k = None.
Proof.
  intros Hwf Hin Hres Hrm Hrt Hk. revert A Hwf.
  induction ls as [|l ls IH]; intros A Hwf; [by apply elem_of_nil in Hin|].
  simpl. apply elem_of_cons in Hin as [<-|Hin].
  - destruct (fold_left _ ls (delete_line_pure E line A) !! k) as [v|] eqn:Hv;
      [|done].
    apply deletions_Some in Hv. unfold delete_line_pure in Hv.
    rewrite (resolve_truthy _ _ Hres), Hres in Hv.
    rewrite delete_at_removes in Hv; try done.
    by eapply resolve_nonempty.
  - apply IH; [done|]. by apply delete_line_pure_well_formed.
Qed.

Lemma entry_action_names p entries (it : action) :
  it ∈ entry_actions E p entries → ∃ n, n ∈ entries ∧ it.1 = pname n.
Proof.
  unfold entry_actions. rewrite elem_of_app. intros [Hit|Hit].
  - apply list_elem_of_fmap in Hit as (f & -> & Hf).
    exists (PFile f.1 f.2). split; [|done].
    by eapply files_of_entries, visited_files_in.
  - apply list_elem_of_fmap in Hit as (n & -> & Hn).
    apply elem_of_subdirs in Hn as [Hn _]. by exists n.
Qed.

End DeleteList.



(** ** The console dialogues *)

Example upper_examples :
  upper "yes" = code_points "YES"
  ∧ upper_is "y" "Y" = true ∧ upper_is "n" "N" = true
  ∧ upper_is " y" "Y" = false ∧ upper_is "" "Y" = false.
Proof. by vm_compute. Qed.

Section Dialogues.

Implicit Types (s choice : string) (inputs rest junk : list string).

Lemma upper_char_cons c : ∃ n l, upper_char c = n :: l.
Proof. unfold upper_char. repeat case_match; by eexists _, _. Qed.

Lemma upper_single s (n : N) :
  upper s = [n] → ∃ c, s = String c EmptyString ∧ upper_char c = [n].
Proof.
  destruct s as [|c s]; [done|]. unfold upper. simpl.
  destruct (upper_char_cons c) as (n1 & l1 & Hc). rewrite Hc. simpl.
  intros [= -> Hnil]. apply app_eq_nil in Hnil as [-> Hs].
  destruct s as [|d s]; [by exists c|]. simpl in Hs.
  destruct (upper_char_cons d) as (n2 & l2 & Hd). by rewrite Hd in Hs.
Qed.

Lemma upper_is_Y s : upper_is s "Y" = true ↔ s = "y" ∨ s = "Y".
Proof.
  unfold upper_is. rewrite bool_decide_eq_true. split.
  - intros (c & -> & Hc)%upper_single.
    destruct c as [[] [] [] [] [] [] [] []]; vm_compute in Hc;
      try discriminate; auto.
  - by intros [->| ->].
Qed.

Lemma upper_is_N s : upper_is s "N" = true ↔ s = "n" ∨ s = "N".
Proof.
  unfold upper_is. rewrite bool_decide_eq_true. split.
  - intros (c & -> & Hc)%upper_single.
    destruct c as [[] [] [] [] [] [] [] []]; vm_compute in Hc;
      try discriminate; auto.
  - by intros [->| ->].
Qed.

Lemma ask_retry_or_exit_shorter inputs e rest :
  ask_retry_or_exit inputs = (e, rest) → (length rest ≤ length inputs)%nat.
Proof.
  revert e rest. induction inputs as [|choice inputs IH]; intros e rest; simpl.
  - intros [= <- <-]. done.
  - destruct (upper_is choice "Y"); [intros [= <- <-]; lia|].
    destruct (upper_is choice "N"); [intros [= <- <-]; lia|].
    intros H. apply IH in H. lia.
Qed.

Lemma ask_retry_or_exit_true inputs r rest :
  ask_retry_or_exit inputs = (Returned r, rest) → r = true.
Proof.
  induction inputs as [|choice inputs IH]; simpl; [done|].
  destruct (upper_is choice "Y"); [by intros [= <- _]|].
  destruct (upper_is choice "N"); [done|]. exact IH.
Qed.

Lemma user_choice_loop_ends turns launch attempt inputs :
  (length inputs < turns)%nat →
  ∃ e rest, user_choice_loop turns launch attempt inputs = Some (e, rest)
    ∧ (e = Exited ∨ e = EndOfInput).
Proof.
  revert attempt inputs. induction turns as [|turns IH];
    intros attempt inputs Hlen; [lia|].
  destruct inputs as [|choice rest]; simpl; [by eauto|]. simpl in Hlen.
  destruct (upper_is choice "Y").
  - destruct (launch attempt); [by eauto|].
    destruct (ask_retry_or_exit rest) as [[r| |] rest'] eqn:Hask; [|by eauto..].
    pose proof (ask_retry_or_exit_true _ _ _ Hask) as ->.
    apply ask_retry_or_exit_shorter in Hask. apply IH. lia.
  - destruct (upper_is choice "N"); [by eauto|]. apply IH. lia.
Qed.

End Dialogues.

(** [ask_retry_or_exit] never returns [False]: it returns [True] at the
    first line that reads y or Y, ends the program at the first that reads
    n or N, and skips every other line, blank or padded ones too; with no
    such line the input runs out. *)
Theorem ask_retry_or_exit_answers (junk rest : list string)
    (choice : string) :
  Forall (λ l, l ≠ "y" ∧ l ≠ "Y" ∧ l ≠ "n" ∧ l ≠ "N") junk →
  (choice = "y" ∨ choice = "Y" →
   ask_retry_or_exit (junk ++ choice :: rest) = (Returned true, rest))
  ∧ (choice = "n" ∨ choice = "N" →
     ask_retry_or_exit (junk ++ choice :: rest) = (Exited, rest))
  ∧ ask_retry_or_exit junk = (EndOfInput, [])
  ∧ ∀ inputs r rest',
      ask_retry_or_exit inputs = (Returned r, rest') → r = true.
Proof.
  intros Hjunk.
  assert (∀ tail, ask_retry_or_exit (junk ++ tail) = ask_retry_or_exit tail)
    as Hskip.
  { intros tail. induction Hjunk as [|l junk (H1 & H2 & H3 & H4) _ IH]; [done|].
    simpl.
    destruct (upper_is l "Y") eqn:HY;
      [apply upper_is_Y in HY as [?|?]; done|].
    destruct (upper_is l "N") eqn:HN;
      [apply upper_is_N in HN as [?|?]; done|].
    exact IH. }
  split; [|split; [|split]].
  - intros Hc. rewrite Hskip. simpl.
    by rewrite (proj2 (upper_is_Y choice) Hc).
  - intros Hc. rewrite Hskip. simpl.
    destruct (upper_is choice "Y") eqn:HY.
    + apply upper_is_Y in HY. destruct Hc as [->| ->], HY; done.
    + by rewrite (proj2 (upper_is_N choice) Hc).
  - specialize (Hskip []). by rewrite app_nil_r in Hskip.
  - apply ask_retry_or_exit_true.
Qed.

Lemma ask_retry_or_exit_answers_witness :
  ask_retry_or_exit ["maybe"; " y"; ""; "y"; "n"] = (Returned true, ["n"])
  ∧ ask_retry_or_exit ["maybe"; " y"; ""] = (EndOfInput, []).
Proof.
  destruct (ask_retry_or_exit_answers ["maybe"; " y"; ""] ["n"] "y")
    as (H1 & _ & H3 & _).
  - repeat constructor; discriminate.
  - split; [apply H1; by left|exact H3].
Defined.

(** [user_choice_and_exit] never returns to its caller: whatever is typed
    and whether or not the game starts, it ends in [sys.exit()] or with the
    input exhausted, and the loop is never cut short. *)
Theorem user_choice_and_exit_never_returns (launch : nat → bool)
    (inputs : list string) :
  ∃ e rest, user_choice_and_exit launch inputs = Some (e, rest)
    ∧ (e = Exited ∨ e = EndOfInput)
    ∧ ∀ turns, (length inputs < turns)%nat →
        user_choice_loop turns launch 0 inputs = Some (e, rest).
Proof.
  unfold user_choice_and_exit.
  destruct (user_choice_loop_ends (S (length inputs)) launch 0 inputs)
    as (e & rest & Hrun & He); [lia|].
  exists e, rest. split; [done|]. split; [done|].
  clear He. revert Hrun. generalize (S (length inputs)) 0%nat.
  intros t0 attempt. revert attempt inputs e rest.
  induction t0 as [|t0 IH]; intros attempt inputs e rest Hrun turns Hlen;
    [done|].
  destruct turns as [|turns]; [lia|].
  destruct inputs as [|choice tail]; [done|]. simpl in Hrun, Hlen |- *.
  destruct (upper_is choice "Y").
  - destruct (launch attempt); [done|].
    destruct (ask_retry_or_exit tail) as [[[]| |] rest'] eqn:Hask; try done.
    apply ask_retry_or_exit_shorter in Hask. eapply IH; [done|lia].
  - destruct (upper_is choice "N"); [done|]. eapply IH; [done|lia].
Qed.

(** ** The configuration *)

Example load_config_partial :
  Config.load_config
    (Config.Parsed {[ "Paths" := {[ "server_version_url" := "http://s/v";
                                     "version_list_url" := "http://s/l" ]} ]})
    Config.initial
  = (Ret false,
     Config.Globals (Some "http://s/v") None None None None None).
Proof. by vm_compute. Qed.

Section ConfigLoading.

Context (sections : gmap string (gmap string string)).

Lemma assign_value_of (name : string)
    (set : string → Config.globals → Config.globals) (g : Config.globals) :
  Config.assign sections name set g
  = match Config.value_of sections name with
    | Some value => (Some tt, set value g)
    | None => (None, g)
    end.
Proof.
  unfold Config.assign, Config.value_of.
  by destruct (sections !! "Paths") as [paths|].
Qed.

Lemma and_then_assign (name : string)
    (set : string → Config.globals → Config.globals) (b : Config.step)
    (g : Config.globals) :
  Config.and_then (Config.assign sections name set) b g
  = match Config.value_of sections name with
    | Some value => b (set value g)
    | None => (None, g)
    end.
Proof.
  unfold Config.and_then. rewrite assign_value_of.
  by destruct (Config.value_of sections name).
Qed.

End ConfigLoading.

Ltac config_cases :=
  unfold Config.load_config, Config.assignments;
  repeat (rewrite ?and_then_assign, ?assign_value_of;
          match goal with
          | |- context [match Config.value_of ?s ?k with _ => _ end] =>
              destruct (Config.value_of s k)
          end);
  try done.

(** [load_config] is not atomic.  For a file that was read it returns
    whether all six options can be looked up in the section [Paths], and a
    variable is assigned exactly when its option and all the options before
    it can be: it then holds the value of its option, and otherwise keeps
    what it held, even though the call reports failure.  For a file that is
    missing or cannot be read nothing is assigned. *)
Theorem load_config_assigns (sections : gmap string (gmap string string))
    (g : Config.globals) :
  let present := λ o : string * (Config.globals → option string),
                   bool_decide (is_Some (Config.value_of sections o.1)) in
  (Config.load_config (Config.Parsed sections) g).1
    = Ret (forallb present Config.options)
  ∧ (∀ i o, Config.options !! i = Some o →
       o.2 (Config.load_config (Config.Parsed sections) g).2
       = if forallb present (take (S i) Config.options)
         then Config.value_of sections o.1 else o.2 g)
  ∧ (∀ file, (∀ s, file ≠ Config.Parsed s) →
       (Config.load_config file g).2 = g).
Proof.
  intros present. subst present. unfold Config.options.
  split; [|split].
  - cbn [forallb fst]. config_cases.
  - intros i o Hi.
    do 6 (destruct i as [|i];
          [injection Hi as <-; cbn [take forallb fst snd]; config_cases|]).
    done.
  - intros [| | |s] Hfile; try done. by destruct (Hfile s).
Qed.

(** ** The decisions of the check for updates *)

Section Decisions.

Lemma parse_version_empty : parse_version EmptyString = [].
Proof. reflexivity. Qed.

Lemma str_truthy_false s : str_truthy s = false → s = EmptyString.
Proof. by destruct s. Qed.

Lemma get_version_list_ascending text all_versions :
  get_version_list (HttpText text) = Some all_versions → ascending all_versions.
Proof. intros [= <-]. apply sort_by_key_sorted. Qed.

End Decisions.


(** An update is offered only forwards: the chain is never empty, its
    elements are published versions strictly newer than the local version
    and at most the server's, and the installation counts as up to date
    exactly when both versions parse, the list is not empty and the local
    version is not older than the server's.  An empty list is an error
    even then. *)
Theorem check_versions_spec (local_version_str server_version_str : string)
    (all_versions : list string) :
  (∀ update_chain,
     check_versions local_version_str server_version_str all_versions
     = Update update_chain →
     update_chain ≠ []
     ∧ update_chain
       = get_update_chain local_version_str server_version_str all_versions
     ∧ ∀ v, v ∈ update_chain →
         v ∈ all_versions
         ∧ Py.list_lt (parse_version local_version_str) (parse_version v)
           = true
         ∧ Py.list_le (parse_version v) (parse_version server_version_str)
           = true)
  ∧ (check_versions local_version_str server_version_str all_versions
     = UpToDate
     ↔ parse_version local_version_str ≠ []
       ∧ parse_version server_version_str ≠ []
       ∧ all_versions ≠ []
       ∧ Py.list_lt (parse_version local_version_str)
                    (parse_version server_version_str) = false)
  ∧ check_versions local_version_str server_version_str [] = InfoError.
Proof.
  split; [|split].
  - intros chain. unfold check_versions.
    destruct (negb _ || negb _ || negb _) eqn:Hbad; [done|].
    destruct (Py.list_lt _ _) eqn:Hlt; [|done].
    destruct (get_update_chain _ _ _) as [|v0 rest] eqn:Hchain; [done|].
    simpl. intros [= <-]. split; [done|]. split; [done|].
    intros v Hv. rewrite <- Hchain, get_update_chain_filter in Hv.
    destruct (Py.truthy (parse_version local_version_str)
              && Py.truthy (parse_version server_version_str));
      [|by apply elem_of_nil in Hv].
    apply list_elem_of_In, filter_In in Hv as [Hin Hv].
    apply andb_true_iff in Hv as [_ Hv]. unfold in_range in Hv.
    apply andb_true_iff in Hv as [H1 H2]. by apply list_elem_of_In in Hin.
  - unfold check_versions.
    destruct (parse_version local_version_str) as [|x l];
      [split; [done|by intros [? _]]|].
    destruct (parse_version server_version_str) as [|y m];
      [split; [done|by intros (_ & ? & _)]|].
    destruct all_versions as [|v vs];
      [split; [done|by intros (_ & _ & ? & _)]|].
    cbn [Py.truthy negb orb].
    destruct (Py.list_lt (x :: l) (y :: m)) eqn:Hlt.
    + split; [|by intros (_ & _ & _ & ?)].
      by destruct (negb (Py.truthy (get_update_chain _ _ _))).
    + by split.
  - unfold check_versions.
    destruct (Py.truthy (parse_version local_version_str)),
      (Py.truthy (parse_version server_version_str)); done.
Qed.

(** When the version list arrived, a published version parses like the
    server's version, and the local version parses and is older, then an
    update is offered: its chain is in ascending order and ends with a
    version that parses like the server's. *)
Theorem update_offered (text local_version_str server_version_str v : string)
    (all_versions : list string) :
  get_version_list (HttpText text) = Some all_versions →
  v ∈ all_versions →
  parse_version v = parse_version server_version_str →
  parse_version local_version_str ≠ [] →
  Py.list_lt (parse_version local_version_str)
             (parse_version server_version_str) = true →
  ∃ update_chain u,
    check_versions local_version_str server_version_str all_versions
    = Update update_chain
    ∧ ascending update_chain
    ∧ last update_chain = Some u
    ∧ parse_version u = parse_version server_version_str.
Proof.
  intros Hlist Hv Hvs Hlocal Hlt.
  apply get_version_list_ascending in Hlist.
  destruct (chain_ascending_last local_version_str server_version_str
              all_versions Hlist) as [Hasc Hlast].
  destruct (Hlast v Hv Hvs Hlocal Hlt) as (u & Hu & Hpu).
  exists (get_update_chain local_version_str server_version_str all_versions), u.
  split; [|done]. unfold check_versions. rewrite Hlt.
  destruct (parse_version local_version_str) as [|x l]; [done|].
  destruct (parse_version server_version_str) as [|y m]; [done|].
  destruct all_versions as [|v0 vs]; [by apply elem_of_nil in Hv|].
  cbn [Py.truthy negb orb].
  by destruct (get_update_chain _ _ _).
Qed.

Lemma update_offered_witness :
  ∃ update_chain u,
    check_versions "1.0" "1.2" ["1.0"; "1.1"; "1.2"; "1.3"]
    = Update update_chain
    ∧ last update_chain = Some u
    ∧ parse_version u = parse_version "1.2".
Proof.
  destruct (update_offered
              ("1.3" ++ String "010" ("1.1" ++ String "010"
                 ("1.2" ++ String "010" "1.0")))
              "1.0" "1.2" "1.2" ["1.0"; "1.1"; "1.2"; "1.3"])
    as (chain & u & H1 & _ & H2 & H3).
  - reflexivity.
  - repeat first [ by apply list_elem_of_here | apply list_elem_of_further ].
  - reflexivity.
  - discriminate.
  - reflexivity.
  - by exists chain, u.
Defined.
